(** * FinBoard data-acquisition core: cache, rate limits, fetch, paths, currency

    A shallow embedding of [src/utils/cache.ts], [src/utils/api.ts] and
    [src/utils/currencyDetection.ts], with the properties the specification
    states about them, and of their callers [src/utils/apiUrlBuilder.ts] and
    [src/hooks/useWidgetData.ts], with further properties of the code.

    Modelling conventions.
    - JavaScript values are the tagged union [JSValue].  Numbers are the
      integers [Z] (millisecond instants, counters, status codes); [NaN] is
      kept apart in [jsnum] where the source can produce it.
    - Strings are byte strings ([string]); case mapping and trimming act on
      the ASCII range.
    - Objects are own-property dictionaries given as association lists in
      [Object.keys] order; arrays own their indices and [length].  Both
      inherit the members of [Object.prototype] and [Array.prototype], which
      the [in] operator and a property read reach: [Any] adds the
      prototypes and their methods to the JSON values.
    - The two module-level [Map]s are [gmap]s inside an explicit [World],
      together with a simulated clock ([Date.now()]) and the trace of
      network requests and timer waits.  Time advances only while the code
      awaits the network or a timer; a timer takes its delay as a 32-bit
      integer.
    - [new URL], [String.prototype.localeCompare], [fetch] and the text of
      engine-raised [TypeError]s belong to the platform: they are section
      variables, instantiated by small concrete stand-ins in the examples. *)

From Stdlib Require Import ZArith String Ascii List Lia Bool DecimalString DecimalPos.
From Stdlib Require Import Sorting.Permutation Sorting.Sorted OrdersEx.
From stdpp Require Import base option gmap strings.

Local Open Scope Z_scope.
Local Open Scope string_scope.

(** ** JavaScript values and the string primitives the sources use *)

Module JS.

#[warnings="-register-all"]
Inductive JSValue : Type :=
| JUndefined
| JNull
| JBool (b : bool)
| JNum (n : Z)
| JStr (s : string)
| JArr (items : list JSValue)
| JObj (fields : list (string * JSValue)).

(** A number that may be [NaN] ([parseInt] results and what is computed
    from them). *)
Inductive jsnum : Type :=
| NaN
| Int (z : Z).

(** A thrown [Error]; [isTypeError] is [error instanceof TypeError]. *)
Record Exn : Type := mkExn { isTypeError : bool; message : string }.

Definition showZ (z : Z) : string := NilZero.string_of_int (Z.to_int z).

Definition showNat (n : nat) : string := showZ (Z.of_nat n).

(** [s.startsWith(prefix)] *)
Fixpoint startsWith (prefix s : string) : bool :=
  match prefix, s with
  | EmptyString, _ => true
  | String a prefix', String b s' => Ascii.eqb a b && startsWith prefix' s'
  | String _ _, EmptyString => false
  end.

(** [haystack.includes(needle)] *)
Fixpoint includes (needle haystack : string) : bool :=
  startsWith needle haystack ||
  match haystack with
  | EmptyString => false
  | String _ rest => includes needle rest
  end.

Definition isWhiteSpace (c : ascii) : bool :=
  let n := nat_of_ascii c in
  (Nat.eqb n 32 || (Nat.leb 9 n && Nat.leb n 13))%bool.

Fixpoint trimStart (s : string) : string :=
  match s with
  | String c rest => if isWhiteSpace c then trimStart rest else s
  | EmptyString => EmptyString
  end.

Fixpoint trimEnd (s : string) : string :=
  match s with
  | EmptyString => EmptyString
  | String c rest =>
      match trimEnd rest with
      | EmptyString => if isWhiteSpace c then EmptyString else String c EmptyString
      | t => String c t
      end
  end.

Definition trim (s : string) : string := trimEnd (trimStart s).

Definition isUpper (c : ascii) : bool :=
  (Nat.leb 65 (nat_of_ascii c) && Nat.leb (nat_of_ascii c) 90)%bool.

Definition isLower (c : ascii) : bool :=
  (Nat.leb 97 (nat_of_ascii c) && Nat.leb (nat_of_ascii c) 122)%bool.

Definition lowerChar (c : ascii) : ascii :=
  if isUpper c then ascii_of_nat (nat_of_ascii c + 32) else c.

Definition upperChar (c : ascii) : ascii :=
  if isLower c then ascii_of_nat (nat_of_ascii c - 32) else c.

Fixpoint mapString (f : ascii -> ascii) (s : string) : string :=
  match s with
  | EmptyString => EmptyString
  | String c rest => String (f c) (mapString f rest)
  end.

Definition toLowerCase : string -> string := mapString lowerChar.
Definition toUpperCase : string -> string := mapString upperChar.

(** [s.split(sep)] for a one-character separator: never the empty list. *)
Fixpoint split (sep : ascii) (s : string) : list string :=
  match s with
  | EmptyString => [EmptyString]
  | String c rest =>
      if Ascii.eqb c sep then EmptyString :: split sep rest
      else match split sep rest with
           | piece :: pieces => String c piece :: pieces
           | [] => [String c EmptyString]
           end
  end.

(** [s.replace(c, '')] with a string pattern: only the first occurrence. *)
Fixpoint removeFirst (c : ascii) (s : string) : string :=
  match s with
  | EmptyString => EmptyString
  | String d rest => if Ascii.eqb d c then rest else String d (removeFirst c rest)
  end.

Fixpoint join (sep : string) (pieces : list string) : string :=
  match pieces with
  | [] => EmptyString
  | [p] => p
  | p :: rest => p +:+ sep +:+ join sep rest
  end.

Definition isDigit (c : ascii) : bool :=
  (Nat.leb 48 (nat_of_ascii c) && Nat.leb (nat_of_ascii c) 57)%bool.

Definition digitValue (c : ascii) : Z := Z.of_nat (nat_of_ascii c) - 48.

(** The longest run of leading decimal digits, read as a number; [None]
    when the string does not start with a digit. *)
Fixpoint leadingDigits (acc : option Z) (s : string) : option Z :=
  match s with
  | String c rest =>
      if isDigit c
      then leadingDigits (Some (10 * default 0 acc + digitValue c)) rest
      else acc
  | EmptyString => acc
  end.

(** The sign [parseInt] reads after the leading white space, and what
    follows it. *)
Definition splitSign (s : string) : bool * string :=
  match trimStart s with
  | String "-" rest => (true, rest)
  | String "+" rest => (false, rest)
  | t => (false, t)
  end.

Definition signed (negative : bool) (digits : option Z) : jsnum :=
  match digits with
  | Some n => Int (if negative then - n else n)
  | None => NaN
  end.

(** [parseInt(s, 10)]: leading white space, an optional sign, then
    decimal digits; [NaN] without digits. *)
Definition parseInt10 (s : string) : jsnum :=
  let (negative, rest) := splitSign s in
  signed negative (leadingDigits None rest).

Definition hexValue (c : ascii) : option Z :=
  let n := nat_of_ascii c in
  if isDigit c then Some (Z.of_nat n - 48)
  else if (Nat.leb 97 n && Nat.leb n 102)%bool then Some (Z.of_nat n - 87)
  else if (Nat.leb 65 n && Nat.leb n 70)%bool then Some (Z.of_nat n - 55)
  else None.

Fixpoint leadingHexDigits (acc : option Z) (s : string) : option Z :=
  match s with
  | String c rest =>
      match hexValue c with
      | Some d => leadingHexDigits (Some (16 * default 0 acc + d)) rest
      | None => acc
      end
  | EmptyString => acc
  end.

(** [parseInt(s)] without a radix: as [parseInt(s, 10)], except that a
    [0x] or [0X] after the sign switches to hexadecimal digits. *)
Definition parseInt (s : string) : jsnum :=
  let (negative, rest) := splitSign s in
  match rest with
  | String "0" (String "x" digits) | String "0" (String "X" digits) =>
      signed negative (leadingHexDigits None digits)
  | _ => signed negative (leadingDigits None rest)
  end.

(** Truthiness of a value ([if (v)], [v || w], [v && w]). *)
Definition truthy (v : JSValue) : bool :=
  match v with
  | JUndefined | JNull => false
  | JBool b => b
  | JNum n => negb (Z.eqb n 0)
  | JStr s => negb (String.eqb s EmptyString)
  | JArr _ | JObj _ => true
  end.

Definition truthyStr (s : string) : bool := negb (String.eqb s EmptyString).

(** [a || b] *)
Definition orElse (a b : JSValue) : JSValue := if truthy a then a else b.

Definition strOr (a b : string) : string := if truthyStr a then a else b.

(** [typeof v === 'object'] (true of [null], arrays and objects). *)
Definition typeofObject (v : JSValue) : bool :=
  match v with
  | JNull | JArr _ | JObj _ => true
  | _ => false
  end.

Definition isArray (v : JSValue) : bool :=
  match v with JArr _ => true | _ => false end.

Fixpoint assoc (k : string) (fields : list (string * JSValue)) : option JSValue :=
  match fields with
  | [] => None
  | (k', v) :: rest => if String.eqb k k' then Some v else assoc k rest
  end.

(** An array index in canonical form: the decimal numeral of a natural
    number, which is the only spelling under which an array owns it. *)
Definition canonicalIndex (k : string) : option nat :=
  match leadingDigits None k with
  | Some n => if String.eqb (showZ n) k then Some (Z.to_nat n) else None
  | None => None
  end.

(** The own property [k] of an object or array; [None] when there is no
    such own property, and for every value that is not an object. *)
Definition ownProperty (k : string) (v : JSValue) : option JSValue :=
  match v with
  | JObj fields => assoc k fields
  | JArr items =>
      if String.eqb k "length" then Some (JNum (Z.of_nat (List.length items)))
      else match canonicalIndex k with
           | Some i => nth_error items i
           | None => None
           end
  | _ => None
  end.

(** [v[k]] in the places where the source reads a property of a value that
    may be a primitive: [undefined] when absent.  Reading a property of
    [null] or [undefined] throws, which callers model where it can
    happen.  The names the sources read this way are fixed ([error],
    [message], [data], [Note] and the like), and no value inherits a
    member under any of them. *)
Definition getProp (k : string) (v : JSValue) : JSValue :=
  default JUndefined (ownProperty k v).

(** [arr[index]] for a numeric index that may be [NaN] or out of range. *)
Definition getIndex (index : jsnum) (items : list JSValue) : JSValue :=
  match index with
  | Int i => if Z.ltb i 0 then JUndefined else default JUndefined (nth_error items (Z.to_nat i))
  | NaN => JUndefined
  end.

(** *** What objects and arrays inherit

    A property read, and the [in] operator, look through an object's own
    properties and then through its prototype chain.  The values that
    come out of [JSON.parse] have [Object.prototype] (objects) or
    [Array.prototype] and then [Object.prototype] (arrays) behind them.
    The members of the two prototypes are the ones ECMAScript 2023 gives
    them, Annex B included. *)

Inductive Prototype : Type := ObjectPrototype | ArrayPrototype.

(** Whatever a property read can give: a value of the data, one of the
    two prototypes, or a function that a prototype holds. *)
Inductive Any : Type :=
| Data (v : JSValue)
| Proto (p : Prototype)
| Method (holder : Prototype) (name : string).

Coercion Data : JSValue >-> Any.

Definition objectPrototypeMethods : list string :=
  [ "constructor"; "__defineGetter__"; "__defineSetter__"; "hasOwnProperty";
    "__lookupGetter__"; "__lookupSetter__"; "isPrototypeOf";
    "propertyIsEnumerable"; "toString"; "valueOf"; "toLocaleString" ].

Definition arrayPrototypeMethods : list string :=
  [ "constructor"; "at"; "concat"; "copyWithin"; "fill"; "find"; "findIndex";
    "findLast"; "findLastIndex"; "lastIndexOf"; "pop"; "push"; "reverse";
    "shift"; "unshift"; "slice"; "sort"; "splice"; "includes"; "indexOf";
    "join"; "keys"; "entries"; "values"; "forEach"; "filter"; "flat";
    "flatMap"; "map"; "every"; "some"; "reduce"; "reduceRight";
    "toLocaleString"; "toString"; "toReversed"; "toSorted"; "toSpliced";
    "with" ].

Definition among (k : string) (names : list string) : bool :=
  existsb (String.eqb k) names.

(** [p[k]] for a prototype [p]; [None] when [k in p] is false.  The
    accessor [__proto__] gives the prototype's own prototype. *)
Definition prototypeMember (k : string) (p : Prototype) : option Any :=
  match p with
  | ObjectPrototype =>
      if String.eqb k "__proto__" then Some (Data JNull)
      else if among k objectPrototypeMethods then Some (Method ObjectPrototype k)
      else None
  | ArrayPrototype =>
      if String.eqb k "__proto__" then Some (Proto ObjectPrototype)
      else if String.eqb k "length" then Some (Data (JNum 0))
      else if among k arrayPrototypeMethods then Some (Method ArrayPrototype k)
      else if among k objectPrototypeMethods then Some (Method ObjectPrototype k)
      else None
  end.

(** What an object finds under [k] behind its own properties, when its
    prototype is [p]. *)
Definition inherited (k : string) (p : Prototype) : option Any :=
  if String.eqb k "__proto__" then Some (Proto p) else prototypeMember k p.

Definition prototypeOf (v : JSValue) : option Prototype :=
  match v with
  | JObj _ => Some ObjectPrototype
  | JArr _ => Some ArrayPrototype
  | _ => None
  end.

(** [v[k]] for an object or array [v], own properties first; [None] when
    [k in v] is false (and for every [v] that is not an object). *)
Definition member (k : string) (v : JSValue) : option Any :=
  match ownProperty k v with
  | Some x => Some (Data x)
  | None =>
      match prototypeOf v with
      | Some p => inherited k p
      | None => None
      end
  end.

(** [String(v)], as used by template literals and [new Error(v)]. *)
Fixpoint toStr (v : JSValue) : string :=
  match v with
  | JUndefined => "undefined"
  | JNull => "null"
  | JBool true => "true"
  | JBool false => "false"
  | JNum n => showZ n
  | JStr s => s
  | JArr items =>
      join "," (List.map (fun x => match x with
                                   | JUndefined | JNull => EmptyString
                                   | _ => toStr x
                                   end) items)
  | JObj _ => "[object Object]"
  end.

(** [s.substring(0, n)] *)
Definition take (n : nat) (s : string) : string := String.substring 0 n s.

End JS.

(** ** The platform: parsed URLs, HTTP responses, requests *)

Module Web.
Import JS.

(** What [new URL(url)] exposes to the sources: [origin], [pathname] and
    the decoded entries of [searchParams], in their order in the URL. *)
Record URL : Type := mkURL {
  origin : string;
  pathname : string;
  searchParams : list (string * string)
}.

(** What [await response.text()] gives once [response.json()] has failed:
    the Fetch standard rejects it (the body is already consumed); the
    response may also hand back a text. *)
Inductive Body : Type :=
| BodyJson (v : JSValue)
| BodyNotJson (text : Exn + string).

Record Response : Type := mkResponse {
  status : Z;
  statusText : string;
  retryAfter : option string;      (* headers.get('Retry-After') *)
  body : Body
}.

(** [response.ok] *)
Definition ok (r : Response) : bool := (200 <=? status r)%Z && (status r <=? 299)%Z.

(** Where a request goes: the API itself, or [/api/proxy] on the page's own
    origin with its [url] and optional [apiKey]/[apiKeyHeader] parameters. *)
Inductive Target : Type :=
| Direct (url : string)
| ViaProxy (url : string) (credentials : option (string * string)).

(** [fetch(target, { method: 'GET', headers })]; [None] is
    [headers: undefined]. *)
Record Request : Type := mkRequest {
  target : Target;
  headers : option (list (string * string))
}.

(** The outcome of one [fetch]: it rejects, or resolves to a response,
    after [latency] milliseconds. *)
Inductive NetResult : Type :=
| NetError (e : Exn) (latency : N)
| NetResponse (r : Response) (latency : N).

(** Observable effects, oldest first. *)
Inductive Event : Type :=
| EvFetch (r : Request)
| EvSleep (ms : Z).

(** [TypeError]s raised by the engine rather than by the sources. *)
Inductive Fault : Type :=
| InvalidURL                       (* new URL(url) on an unparsable url *)
| ReadOfNull (property : string)   (* null.property *)
| NotAFunction (callee : string)   (* calling something that is not callable *)
| InOnPrimitive (key : string).    (* key in v, for v not an object *)

(** [apiKey ? a : b] for an optional string: [undefined] and [''] are
    falsy. *)
Definition truthyOpt (o : option string) : bool :=
  match o with
  | Some s => truthyStr s
  | None => false
  end.

End Web.

(** ** [src/utils/cache.ts] *)

Module Cache.
Import JS Web.

Record CacheEntry : Type := mkEntry {
  data : JSValue;
  timestamp : Z;
  expiresAt : Z;
  url : string
}.

(** [responseCache], the module-level [Map<string, CacheEntry>]. *)
Abbreviation Store := (gmap string CacheEntry).

Section Keys.

Variable parseURL : string -> option URL.
Variable localeCompare : string -> string -> Z.

(** [xs.sort((a, b) => cmp(a, b))]: [Array.prototype.sort] is stable, and
    for a comparator that is a total preorder its result is the stable
    sorted arrangement, which insertion from the right computes. *)
Fixpoint insertBy {A : Type} (cmp : A -> A -> Z) (x : A) (l : list A) : list A :=
  match l with
  | [] => [x]
  | y :: rest => if (cmp x y <=? 0)%Z then x :: l else y :: insertBy cmp x rest
  end.

Fixpoint sortBy {A : Type} (cmp : A -> A -> Z) (l : list A) : list A :=
  match l with
  | [] => []
  | x :: rest => insertBy cmp x (sortBy cmp rest)
  end.

Definition compareEntries (a b : string * string) : Z :=
  localeCompare (fst a) (fst b).

Definition sortedParams (u : URL) : string :=
  join "&" (List.map (fun kv => fst kv +:+ "=" +:+ snd kv)
                     (sortBy compareEntries (searchParams u))).

Definition generateCacheKey (url : string) (apiKey apiKeyHeader : option string) : string :=
  match parseURL url with
  | Some urlObj =>
      let baseUrl := origin urlObj +:+ pathname urlObj in
      let keySuffix :=
        if truthyOpt apiKey then "&_key=" +:+ take 8 (default "" apiKey) else "" in
      let headerSuffix :=
        if truthyOpt apiKeyHeader then "&_header=" +:+ default "" apiKeyHeader else "" in
      baseUrl +:+ "?" +:+ sortedParams urlObj +:+ keySuffix +:+ headerSuffix
  | None =>
      (* new URL threw: the url as it is *)
      let keySuffix :=
        if truthyOpt apiKey then "_key_" +:+ take 8 (default "" apiKey) else "" in
      let headerSuffix :=
        if truthyOpt apiKeyHeader then "_header_" +:+ default "" apiKeyHeader else "" in
      url +:+ keySuffix +:+ headerSuffix
  end.

End Keys.

(** Every function below reads [Date.now()] at most once; [now] is that
    reading. *)

Definition getCachedData (now : Z) (key : string) (c : Store) : option CacheEntry * Store :=
  match c !! key with
  | None => (None, c)
  | Some entry =>
      if (now >=? expiresAt entry)%Z then (None, delete key c)
      else (Some entry, c)
  end.

Definition setCachedData (now : Z) (key : string) (d : JSValue) (ttlSeconds : Z)
    (u : string) (c : Store) : Store :=
  let expires := now + ttlSeconds * 1000 in
  <[key := {| data := d; timestamp := now; expiresAt := expires; url := u |}]> c.

Definition invalidateCache (key : string) (c : Store) : Store := delete key c.

Definition clearCache (c : Store) : Store := ∅.

Definition clearCacheByUrlPattern (urlPattern : string) (c : Store) : Store :=
  filter (fun kv => includes urlPattern (url (snd kv)) = false) c.

Definition cleanupExpiredCache (now : Z) (c : Store) : Store :=
  filter (fun kv => (now < expiresAt (snd kv))%Z) c.

Definition getCacheAge (now : Z) (key : string) (c : Store) : option Z :=
  match c !! key with
  | None => None
  | Some entry =>
      if (now >=? expiresAt entry)%Z then None
      else Some ((now - timestamp entry) / 1000)
  end.

Record CacheStats : Type := mkStats {
  totalEntries : Z;
  expiredEntries : Z;
  validEntries : Z
}.

(** One round of the loop of [getCacheStats] over
    [responseCache.values()]; [counts] is [(expiredCount, validCount)]. *)
Definition countEntry (now : Z) (entry : CacheEntry) (counts : Z * Z) : Z * Z :=
  if (now >=? expiresAt entry)%Z then (fst counts + 1, snd counts)
  else (fst counts, snd counts + 1).

Definition getCacheStats (now : Z) (c : Store) : CacheStats :=
  let counts := map_fold (fun _ entry => countEntry now entry) (0, 0) c in
  {| totalEntries := Z.of_nat (size c);
     expiredEntries := fst counts;
     validEntries := snd counts |}.

(** The stores a program can build: from the empty map by the exported
    operations. *)
Inductive reachable : Store -> Prop :=
| reach_empty : reachable ∅
| reach_get now key c : reachable c -> reachable (snd (getCachedData now key c))
| reach_set now key d ttl u c : reachable c -> reachable (setCachedData now key d ttl u c)
| reach_invalidate key c : reachable c -> reachable (invalidateCache key c)
| reach_clear c : reachable c -> reachable (clearCache c)
| reach_pattern p c : reachable c -> reachable (clearCacheByUrlPattern p c)
| reach_cleanup now c : reachable c -> reachable (cleanupExpiredCache now c).

(** A comparator [Array.prototype.sort] can work with: it ranks any two
    names one way or the other, and transitively. *)
Definition consistentComparator (cmp : string -> string -> Z) : Prop :=
  (forall a b, cmp a b <= 0 \/ cmp b a <= 0)
  /\ (forall a b c, cmp a b <= 0 -> cmp b c <= 0 -> cmp a c <= 0).

(** No two different parameters of [params] have names that the
    comparator ranks equal. *)
Definition distinctNames (cmp : string -> string -> Z) (params : list (string * string))
  : Prop :=
  forall p q, In p params -> In q params ->
              cmp (fst p) (fst q) <= 0 -> cmp (fst q) (fst p) <= 0 -> p = q.

(** An entry is well formed when some TTL explains its expiry. *)
Definition stamped (e : CacheEntry) : Prop :=
  exists ttlSeconds, expiresAt e = timestamp e + ttlSeconds * 1000.

End Cache.

(** ** [src/utils/api.ts]: rate-limit tracking and [fetchApiData] *)

Module Api.
Import JS Web.

(** An entry of [rateLimitCache]; [resetTime] is whatever number the 429
    branch computed, [NaN] included. *)
Record RateLimit : Type := mkLimit { count : Z; resetTime : jsnum }.

(** The module-level state of [cache.ts] and [api.ts], the simulated clock
    and the effects observed so far. *)
Record World : Type := mkWorld {
  responseCache : Cache.Store;
  rateLimitCache : gmap string RateLimit;
  clock : Z;
  trace : list Event
}.

(** [ApiResponse & { fromCache?, cacheAge? }]; [None] is an absent field. *)
Record ApiResponse : Type := mkApiResponse {
  data : JSValue;
  error : option string;
  timestamp : Z;
  fromCache : option bool;
  cacheAge : option Z
}.

Definition setResponseCache (c : Cache.Store) (w : World) : World :=
  mkWorld c (rateLimitCache w) (clock w) (trace w).

Definition setRateLimitCache (r : gmap string RateLimit) (w : World) : World :=
  mkWorld (responseCache w) r (clock w) (trace w).

(** Time passing outside the code under study. *)
Definition elapse (ms : Z) (w : World) : World :=
  mkWorld (responseCache w) (rateLimitCache w) (clock w + ms) (trace w).

(** *** Computations that read and write the world and may throw *)

Definition M (A : Type) : Type := World -> (Exn + A) * World.

Definition ret {A : Type} (a : A) : M A := fun w => (inr a, w).

Definition throw {A : Type} (e : Exn) : M A := fun w => (inl e, w).

Definition bind {A B : Type} (m : M A) (k : A -> M B) : M B :=
  fun w => match m w with
           | (inl e, w') => (inl e, w')
           | (inr a, w') => k a w'
           end.

Notation "x <- m ;; k" := (bind m (fun x => k))
  (at level 100, m at next level, right associativity).
Notation "m ;;; k" := (bind m (fun _ => k))
  (at level 100, right associativity).

(** [throw new Error(msg)] *)
Definition throwError {A : Type} (msg : string) : M A := throw (mkExn false msg).

(** [Date.now()] *)
Definition now : M Z := fun w => (inr (clock w), w).

(** The time a timer lets pass.  [setTimeout] takes its delay as a 32-bit
    integer: the number is reduced modulo 2^32 into the range from -2^31
    to 2^31 - 1, and a negative delay counts as zero.  The timer is taken
    to fire as soon as it is due. *)
Definition timerDelay (ms : Z) : Z :=
  Z.max 0 ((ms + 2147483648) mod 4294967296 - 2147483648).

Arguments timerDelay : simpl never.

(** [await new Promise(resolve => setTimeout(resolve, ms))]: the trace
    keeps the delay that was asked for. *)
Definition slept (ms : Z) (w : World) : World :=
  mkWorld (responseCache w) (rateLimitCache w)
          (clock w + timerDelay ms) (trace w ++ [EvSleep ms]).

Definition sleep (ms : Z) : M unit := fun w => (inr tt, slept ms w).

(** The world once [fetch(req)] has settled, [latency] milliseconds
    later. *)
Definition arrived (req : Request) (latency : N) (w : World) : World :=
  mkWorld (responseCache w) (rateLimitCache w)
          (clock w + Z.of_N latency) (trace w ++ [EvFetch req]).

Definition when (b : bool) (m : M unit) : M unit := if b then m else ret tt.

(** [Math.ceil(x / 1000)] *)
Definition ceilSeconds (x : Z) : Z := - ((- x) / 1000).

(** The cache operations of [cache.ts] on the world's [responseCache],
    each reading the clock as its [Date.now()]. *)
Definition getCachedData (key : string) : M (option Cache.CacheEntry) :=
  fun w => let r := Cache.getCachedData (clock w) key (responseCache w) in
           (inr (fst r), setResponseCache (snd r) w).

Definition getCacheAge (key : string) : M (option Z) :=
  fun w => (inr (Cache.getCacheAge (clock w) key (responseCache w)), w).

Definition setCachedData (key : string) (d : JSValue) (ttlSeconds : Z) (u : string) : M unit :=
  fun w => (inr tt, setResponseCache
                      (Cache.setCachedData (clock w) key d ttlSeconds u (responseCache w)) w).

Definition invalidateCache (key : string) : M unit :=
  fun w => (inr tt, setResponseCache (Cache.invalidateCache key (responseCache w)) w).

(** The response of a fetch that went to the network and succeeded at
    instant [t]. *)
Definition fresh (d : JSValue) (t : Z) : ApiResponse :=
  {| data := d; error := None; timestamp := t; fromCache := None; cacheAge := None |}.

(** The response of a call that failed at instant [t]. *)
Definition failed (msg : string) (t : Z) : ApiResponse :=
  {| data := JNull; error := Some msg; timestamp := t;
     fromCache := None; cacheAge := None |}.

(** [response.json()]: the parsed body, or a rejection that every caller
    catches without looking at it. *)
Definition json (r : Response) : M JSValue :=
  match body r with
  | BodyJson v => ret v
  | BodyNotJson _ => throw (mkExn false "SyntaxError")
  end.

(** The three results of running the [try] block of [fetchApiData] once:
    it returned a response, or it handed over to the recursive call (after
    recording and waiting), or it threw. *)
Inductive Step : Type :=
| Done (r : ApiResponse)
| Retry.

Definition corsMessage : string :=
  "CORS error: Unable to fetch data. The API may not allow requests from this origin. Try using a different API or check if the API supports CORS.".

Definition rateLimitedMessage (waitTime : Z) : string :=
  "Rate limit exceeded. Please wait " +:+ showZ waitTime +:+ " seconds before trying again.".

Definition rateLimitExhaustedMessage (waitTime : Z) : string :=
  "API rate limit exceeded. Please wait " +:+ showZ waitTime +:+ " seconds before trying again.".

Definition finnhubForbiddenMessage (errorMessage : string) : string :=
  "Finnhub API returned 403 Forbidden. This usually means:

1. Your API key might be invalid or expired
2. The endpoint requires a paid plan (candle data often requires a subscription)
3. You've exceeded your API rate limit

Try:
- Verify your API key at https://finnhub.io/
- Test with a simpler endpoint like /quote first
- Check if your plan includes this endpoint

Original error: " +:+ errorMessage.

Definition authErrorMessage (st : Z) (errorMessage : string) : string :=
  "API returned " +:+ showZ st +:+ ": " +:+ errorMessage +:+ "

Possible causes:
- Invalid or expired API key
- Insufficient permissions for this endpoint
- Rate limit exceeded
- Endpoint requires a paid subscription

Please check your API key and endpoint requirements.".

Definition badRequestMessage (errorMessage : string) : string :=
  "Bad Request: " +:+ errorMessage
  +:+ ". Check your API parameters (symbol format, parameter names, etc.).".

Definition invalidApiCallHelp : string :=
  "

Common causes:
1. Rate limit exceeded (free tier: 5 calls/minute, 500 calls/day)
2. Invalid API key or API key not activated
3. Missing required parameters (e.g., symbol, interval, function)
4. Invalid parameter values

Solutions:
- Wait 1 minute if you hit rate limit
- Verify your API key at https://www.alphavantage.co/support/#api-key
- Check the API documentation: https://www.alphavantage.co/documentation/
- Ensure all required parameters are included in your URL".

Definition thankYouHelp : string :=
  "

This usually means:
- You've exceeded the free tier rate limit (5 calls/minute)
- Wait 1 minute before trying again
- Consider upgrading to a paid plan for higher limits".

(** [Math.pow(2, retryCount) * 1000] as a timer delay in whole
    milliseconds (timers drop the fraction a negative exponent leaves). *)
Definition backoffDelay (retryCount : Z) : Z :=
  if (0 <=? retryCount)%Z then 2 ^ retryCount * 1000 else 1000 / 2 ^ (- retryCount).

(** The message the non-ok branch extracts from the response body
    (lines 153-183).  The retry hint computed alongside it is overwritten
    or unused, and is left out. *)
Definition errorMessageOf (response : Response) : JSValue :=
  let fallback := "HTTP error! status: " +:+ showZ (status response) in
  match body response with
  | BodyJson JNull | BodyJson JUndefined =>
      (* errorData.error throws; the body is consumed, so text() rejects *)
      JStr (strOr (statusText response) fallback)
  | BodyJson errorData =>
      orElse (getProp "error" errorData)
        (orElse (getProp "message" errorData)
           (orElse (getProp "Error Message" errorData)
              (orElse (getProp "error_message" errorData)
                 (orElse (getProp "msg" errorData)
                    (orElse (getProp "description" errorData)
                       (match errorData with
                        | JStr _ => errorData
                        | _ => JStr fallback
                        end))))))
  | BodyNotJson (inr text) => JStr (strOr text (strOr (statusText response) fallback))
  | BodyNotJson (inl _) => JStr (strOr (statusText response) fallback)
  end.

(** [errorMsg.includes(needle)] on whatever the body held: a substring
    test on a string, a membership test on an array, a [TypeError] on
    anything else. *)
Definition includesOf (needle : string) (errorMsg : JSValue) : option bool :=
  match errorMsg with
  | JStr s => Some (includes needle s)
  | JArr items =>
      Some (existsb (fun x => match x with
                              | JStr s => String.eqb s needle
                              | _ => false
                              end) items)
  | _ => None
  end.

Section Platform.

Variable parseURL : string -> option URL.
Variable localeCompare : string -> string -> Z.
(** [fetch]: its outcome may depend on the instant and on everything that
    happened before. *)
Variable network : Z -> list Event -> Request -> NetResult.
Variable typeErrorMessage : Fault -> string.

Definition throwTypeError {A : Type} (f : Fault) : M A :=
  throw (mkExn true (typeErrorMessage f)).

(** [await fetch(...)]: logs the request, lets the latency pass, then
    resolves or rejects. *)
Definition fetch (req : Request) : M Response :=
  fun w =>
    match network (clock w) (trace w) req with
    | NetError e latency => (inl e, arrived req latency w)
    | NetResponse r latency => (inr r, arrived req latency w)
    end.

(** [checkRateLimit]: [Some resetTime] is [{ limited: true, resetTime }],
    [None] is [{ limited: false }]. *)
Definition checkRateLimit (url : string) : M (option Z) :=
  fun w =>
    match parseURL url with
    | None => (inl (mkExn true (typeErrorMessage InvalidURL)), w)
    | Some u =>
        let cacheKey := origin u in
        match rateLimitCache w !! cacheKey with
        | Some limit =>
            match resetTime limit with
            | Int reset =>
                if (clock w <? reset)%Z then (inr (Some reset), w)
                else (inr None, setRateLimitCache (delete cacheKey (rateLimitCache w)) w)
            | NaN => (inr None, w)   (* both comparisons with NaN are false *)
            end
        | None => (inr None, w)
        end
    end.

Definition recordRateLimit (url : string) (reset : jsnum) : M unit :=
  fun w =>
    match parseURL url with
    | None => (inl (mkExn true (typeErrorMessage InvalidURL)), w)
    | Some u =>
        (inr tt, setRateLimitCache
                   (<[origin u := {| count := 1; resetTime := reset |}]> (rateLimitCache w)) w)
    end.

Section Call.

Variable url : string.
Variables apiKey apiKeyHeader : option string.
Variable maxRetries : Z.
Variable useProxy : bool.
Variable cacheTTL : option Z.
Variable bypassCache : bool.

(** [cacheTTL !== undefined && cacheTTL > 0] *)
Definition caching : bool :=
  match cacheTTL with
  | Some ttl => (0 <? ttl)%Z
  | None => false
  end.

Definition cacheKey : string :=
  Cache.generateCacheKey parseURL localeCompare url apiKey apiKeyHeader.

Definition store (d : JSValue) : M unit :=
  when caching (setCachedData cacheKey d (default 0 cacheTTL) url).

Definition invalidate : M unit := when caching (invalidateCache cacheKey).

Definition success (d : JSValue) : M Step :=
  t <- now ;;
  store d ;;;
  ret (Done (fresh d t)).

(** Lines 82-95. *)
Definition checkCache : M (option ApiResponse) :=
  if negb bypassCache && caching then
    cachedEntry <- getCachedData cacheKey ;;
    match cachedEntry with
    | Some entry =>
        age <- getCacheAge cacheKey ;;
        ret (Some {| data := Cache.data entry; error := None;
                     timestamp := Cache.timestamp entry;
                     fromCache := Some true; cacheAge := age |})
    | None => ret None
    end
  else ret None.

(** [apiKey && apiKeyHeader] for the proxy's query parameters
    (lines 116-119 and 341-344). *)
Definition proxyCredentials : option (string * string) :=
  if truthyOpt apiKey && truthyOpt apiKeyHeader
  then Some (default "" apiKey, default "" apiKeyHeader)
  else None.

Definition urlHasAuth : bool :=
  includes "token=" url || includes "apikey=" url
  || includes "api_key=" url || includes "key=" url.

(** [headers[apiKeyHeader] = apiKey] on the object literal [{}]: a new
    own property, except under the name [__proto__], where the assignment
    goes to the accessor the object inherits, which ignores a string and
    leaves the object without keys. *)
Definition assignHeader (name value : string) : list (string * string) :=
  if String.eqb name "__proto__" then [] else [(name, value)].

(** The [headers] object of lines 124-140. *)
Definition requestHeaders : list (string * string) :=
  if negb useProxy then
    if truthyOpt apiKey && truthyOpt apiKeyHeader
       && truthyStr (trim (default "" apiKey))
       && truthyStr (trim (default "" apiKeyHeader))
       && negb urlHasAuth
    then assignHeader (default "" apiKeyHeader) (default "" apiKey)
    else []
  else [].

(** The request of lines 108-149. *)
Definition request : Request :=
  {| target := if useProxy then ViaProxy url proxyCredentials else Direct url;
     headers := if negb useProxy && (0 <? List.length requestHeaders)%nat
                then Some requestHeaders else None |}.

(** Lines 186-207. *)
Definition onRateLimited (retryCount : Z) (response : Response) : M Step :=
  t <- now ;;
  let reset :=
    match retryAfter response with
    | Some h =>
        if truthyStr h
        then match parseInt h with Int s => Int (t + s * 1000) | NaN => NaN end
        else Int (t + 60000)
    | None => Int (t + 60000)
    end in
  recordRateLimit url reset ;;;
  match reset with
  | Int r =>
      if (retryCount <? maxRetries)%Z && negb (Z.eqb r 0) then
        sleep (Z.min (r - t) 60000) ;;;
        ret Retry
      else
        throwError (rateLimitExhaustedMessage (if Z.eqb r 0 then 60 else ceilSeconds (r - t)))
  | NaN => throwError (rateLimitExhaustedMessage 60)
  end.

(** Lines 151-237: a response that is not [ok]. *)
Definition onNotOk (retryCount : Z) (response : Response) : M Step :=
  let errorMessage := toStr (errorMessageOf response) in
  let st := status response in
  if Z.eqb st 429 then onRateLimited retryCount response
  else if Z.eqb st 401 || Z.eqb st 403 then
    if includes "finnhub.io" url && Z.eqb st 403
    then throwError (finnhubForbiddenMessage errorMessage)
    else throwError (authErrorMessage st errorMessage)
  else if Z.eqb st 400 then throwError (badRequestMessage errorMessage)
  else if (500 <=? st)%Z && (retryCount <? maxRetries)%Z then
    sleep (backoffDelay retryCount) ;;;
    ret Retry
  else throwError errorMessage.

(** Lines 288-320: an error reported inside a 200 response. *)
Definition onSoftError (errorMsg : JSValue) : M Step :=
  if includes "alphavantage.co" url then
    let helpfulMessage := "Alpha Vantage API Error: " +:+ toStr errorMsg in
    match includesOf "Invalid API call" errorMsg with
    | None => throwTypeError (NotAFunction "errorMsg.includes")
    | Some true => throwError (helpfulMessage +:+ invalidApiCallHelp)
    | Some false =>
        match includesOf "Thank you for using Alpha Vantage" errorMsg with
        | None => throwTypeError (NotAFunction "errorMsg.includes")
        | Some true => throwError (helpfulMessage +:+ thankYouHelp)
        | Some false => throwError helpfulMessage
        end
    end
  else throwError (toStr errorMsg).

(** Lines 239-333: a response that is [ok]. *)
Definition onOk (response : Response) : M Step :=
  match body response with
  | BodyNotJson (inl e) => throw e
  | BodyNotJson (inr text) => throwError ("Invalid JSON response: " +:+ take 100 text)
  | BodyJson JNull | BodyJson JUndefined => throwTypeError (ReadOfNull "error")
  | BodyJson d =>
      if useProxy then
        if truthy (getProp "error" d) then
          invalidate ;;;
          throwError (toStr (getProp "error" d))
        else if truthy (getProp "data" d) then success (getProp "data" d)
        else success d
      else
        let errorMsg :=
          orElse (getProp "error" d)
            (orElse (getProp "Error Message" d) (getProp "Note" d)) in
        if truthy errorMsg then onSoftError errorMsg else success d
  end.

(** The [try] block, lines 80-333, up to its [return], its [throw] or its
    recursive call. *)
Definition attempt (retryCount : Z) : M Step :=
  hit <- checkCache ;;
  match hit with
  | Some r => ret (Done r)
  | None =>
      rateLimitCheck <- checkRateLimit url ;;
      match rateLimitCheck with
      | Some reset =>
          t <- now ;;
          ret (Done (failed (rateLimitedMessage (ceilSeconds (reset - t))) t))
      | None =>
          response <- fetch request ;;
          if negb (ok response) then onNotOk retryCount response
          else onOk response
      end
  end.

(** Lines 338-369: the same request once more through the proxy. *)
Definition fallbackRequest : Request :=
  {| target := ViaProxy url proxyCredentials; headers := None |}.

Definition proxyFallback : M ApiResponse :=
  proxyFetchResponse <- fetch fallbackRequest ;;
  if negb (ok proxyFetchResponse) then
    errorData <- json proxyFetchResponse ;;
    invalidate ;;;
    match errorData with
    | JNull | JUndefined => throwTypeError (ReadOfNull "error")
    | _ => throwError (toStr (orElse (getProp "error" errorData) (JStr "Proxy request failed")))
    end
  else
    proxyData <- json proxyFetchResponse ;;
    match proxyData with
    | JNull | JUndefined => throwTypeError (ReadOfNull "data")
    | _ =>
        t <- now ;;
        store (getProp "data" proxyData) ;;;
        ret (fresh (getProp "data" proxyData) t)
    end.

Definition failure (msg : string) (w : World) : ApiResponse * World :=
  (failed msg (clock w), w).

(** The [catch] block, lines 334-390. *)
Definition handleError (e : Exn) (w : World) : ApiResponse * World :=
  if isTypeError e && includes "fetch" (message e) && negb useProxy then
    match proxyFallback w with
    | (inr r, w') => (r, w')
    | (inl proxyError, w') => failure corsMessage w'
    end
  else
    failure (message e) (snd (invalidate w)).

(** [fetchApiData], with the depth of its self-calls bounded by [fuel]:
    [None] only when the fuel runs out. *)
Fixpoint fetchApiData_fuel (fuel : nat) (retryCount : Z) (w : World)
  : option (ApiResponse * World) :=
  match fuel with
  | O => None
  | S fuel' =>
      match attempt retryCount w with
      | (inr (Done r), w') => Some (r, w')
      | (inr Retry, w') => fetchApiData_fuel fuel' (retryCount + 1) w'
      | (inl e, w') => Some (handleError e w')
      end
  end.

(** The call gets as far as the network from [w]: the cache gives no hit
    and the origin is not blocked; [w2] is the world after both checks
    (which may have dropped an expired entry or record). *)
Definition reachesNetwork (w w2 : World) : Prop :=
  exists w1, checkCache w = (inr None, w1) /\ checkRateLimit url w1 = (inr None, w2).

(** The effects a call can have: requests are its own request or its proxy
    replay, and timer waits. *)
Definition ownEvent (ev : Event) : Prop :=
  match ev with
  | EvFetch r => r = request \/ r = fallbackRequest
  | EvSleep _ => True
  end.

End Call.

(** Fuel for every self-call [fetchApiData] can make: each one needs
    [retryCount < maxRetries] and raises [retryCount] by one. *)
Definition retryBudget (retryCount maxRetries : Z) : nat :=
  S (Z.to_nat (maxRetries - retryCount)).

Definition fetchApiData (url : string) (apiKey apiKeyHeader : option string)
    (retryCount maxRetries : Z) (useProxy : bool) (cacheTTL : option Z)
    (bypassCache : bool) (w : World) : option (ApiResponse * World) :=
  fetchApiData_fuel url apiKey apiKeyHeader maxRetries useProxy cacheTTL bypassCache
    (retryBudget retryCount maxRetries) retryCount w.

End Platform.

(** A call failed: [error] is set and [data] is [null]. *)
Definition isFailure (r : ApiResponse) : Prop :=
  (exists msg, error r = Some msg) /\ data r = JNull.

(** The condition under which the credential is to travel as a request
    header: key and header name both supplied and not blank, and no
    auth-shaped parameter in the url. *)
Definition credentialSupplied (url : string) (apiKey apiKeyHeader : option string)
    (k h : string) : Prop :=
  apiKey = Some k /\ apiKeyHeader = Some h
  /\ trim k <> EmptyString /\ trim h <> EmptyString
  /\ includes "token=" url = false /\ includes "apikey=" url = false
  /\ includes "api_key=" url = false /\ includes "key=" url = false.

(** What a proxy attempt delivers when it succeeds: the [data] member of
    the JSON body of an [ok] response. *)
Definition delivered (res : NetResult) : option JSValue :=
  match res with
  | NetResponse r _ =>
      if ok r then
        match body r with
        | BodyJson JNull | BodyJson JUndefined => None
        | BodyJson v => Some (getProp "data" v)
        | BodyNotJson _ => None
        end
      else None
  | NetError _ _ => None
  end.

(** The requests in a trace, oldest first. *)
Definition requests (tr : list Event) : list Request :=
  omap (fun ev => match ev with EvFetch r => Some r | EvSleep _ => None end) tr.

(** The timer waits in a trace, oldest first. *)
Definition sleeps (tr : list Event) : list Z :=
  omap (fun ev => match ev with EvSleep ms => Some ms | EvFetch _ => None end) tr.

(** [getNestedValue].  The engine operations that can throw are kept
    fallible, so that the guards of the source have something to guard:
    [key in v] throws on a value that is not an object, [v[key]] on [null]
    and [undefined].  Both look through the prototype chain. *)

Definition hasProperty (key : string) (v : JSValue) : Fault + bool :=
  match v with
  | JObj _ | JArr _ => inr (bool_decide (is_Some (member key v)))
  | _ => inl (InOnPrimitive key)
  end.

Definition readProperty (key : string) (v : JSValue) : Fault + Any :=
  match v with
  | JNull | JUndefined => inl (ReadOfNull key)
  | _ => inr (default (Data JUndefined) (member key v))
  end.

(** [current && typeof current === 'object' && key in current] for a
    value of the data. *)
Definition present (key : string) (current : JSValue) : Fault + bool :=
  if truthy current && typeofObject current then hasProperty key current
  else inr false.

(** The guard, and [current[key]] when it holds ([None] when it does
    not), for whatever the walk has reached.  A prototype is an object
    and passes the first two tests; a function has the [typeof]
    ['function'] and fails the second. *)
Definition lookup (key : string) (current : Any) : Fault + option Any :=
  match current with
  | Data v =>
      match present key v with
      | inl f => inl f
      | inr false => inr None
      | inr true =>
          match readProperty key v with
          | inl f => inl f
          | inr next => inr (Some next)
          end
      end
  | Proto p => inr (prototypeMember key p)
  | Method _ _ => inr None
  end.

(** [next[index]] once [Array.isArray(next)] holds, [undefined]
    otherwise.  [Array.prototype] is an array without elements, and
    nothing is inherited under a numeral. *)
Definition element (index : jsnum) (next : Any) : JSValue :=
  match next with
  | Data (JArr items) => getIndex index items
  | _ => JUndefined
  end.

(** The loop of lines 487-508 from the segment [keys] on. *)
Fixpoint resolve (keys : list string) (current : Any) : Fault + Any :=
  match keys with
  | [] => inr current
  | key :: rest =>
      if includes "[" key then
        match split "["%char key with
        | arrayKey :: indexStr :: _ =>
            let index := parseInt10 (removeFirst "]"%char indexStr) in
            match lookup arrayKey current with
            | inl f => inl f
            | inr None => inr (Data JUndefined)
            | inr (Some next) =>
                match element index next with
                | JUndefined => inr (Data JUndefined)
                | found => resolve rest (Data found)
                end
            end
        | _ => inl (ReadOfNull "replace")   (* indexStr would be undefined *)
        end
      else
        match lookup key current with
        | inl f => inl f
        | inr None => inr (Data JUndefined)
        | inr (Some next) => resolve rest next
        end
  end.

Definition getNestedValue (obj : Any) (path : string) : Fault + Any :=
  resolve (split "."%char path) obj.

(** The property a path segment names: the text before its first
    bracket. *)
Definition segmentName (key : string) : string :=
  if includes "[" key then hd EmptyString (split "["%char key) else key.

(** The index a bracketed segment carries. *)
Definition segmentIndex (key : string) : option jsnum :=
  if includes "[" key then
    match split "["%char key with
    | _ :: indexStr :: _ => Some (parseInt10 (removeFirst "]"%char indexStr))
    | _ => None
    end
  else None.

(** An index that selects no element of [items]. *)
Definition outOfBounds (index : jsnum) (items : list JSValue) : Prop :=
  match index with
  | NaN => True
  | Int i => i < 0 \/ Z.of_nat (List.length items) <= i
  end.

(** An object in the sense of the guard: an object or array of the data,
    or a prototype. *)
Definition isObject (current : Any) : bool :=
  match current with
  | Data (JObj _) | Data (JArr _) | Proto _ => true
  | _ => false
  end.

(** The member of [current] under [name], own or inherited; [None] when
    there is none, and when [current] is no object. *)
Definition memberOf (name : string) (current : Any) : option Any :=
  match current with
  | Data v => member name v
  | Proto p => prototypeMember name p
  | Method _ _ => None
  end.

(** [extractFieldsFromJson].  A [FieldMapping] has a [path], a [value]
    text, a [type] text and optional [children]; [None] is an absent or
    [undefined] member. *)

#[warnings="-register-all"]
Inductive FieldMapping : Type :=
| mkField (path value type : string) (children : option (list FieldMapping)).

Definition fieldPath (f : FieldMapping) : string :=
  match f with mkField p _ _ _ => p end.

Definition fieldValue (f : FieldMapping) : string :=
  match f with mkField _ v _ _ => v end.

Definition fieldType (f : FieldMapping) : string :=
  match f with mkField _ _ t _ => t end.

Definition fieldChildren (f : FieldMapping) : option (list FieldMapping) :=
  match f with mkField _ _ _ c => c end.

(** [typeof v] *)
Definition typeOf (v : JSValue) : string :=
  match v with
  | JUndefined => "undefined"
  | JNull | JArr _ | JObj _ => "object"
  | JBool _ => "boolean"
  | JNum _ => "number"
  | JStr _ => "string"
  end.

(** [prefix ? `${prefix}.${key}` : key] *)
Definition pathUnder (prefix key : string) : string :=
  if truthyStr prefix then prefix +:+ "." +:+ key else key.

(** [`Array(${items.length} items)`] *)
Definition arrayLabel (items : list JSValue) : string :=
  "Array(" +:+ showNat (List.length items) +:+ " items)".

Fixpoint extractFieldsFromJson (obj : JSValue) (prefix : string) (showArraysOnly : bool)
  {struct obj} : list FieldMapping :=
  match obj with
  | JNull | JUndefined => []
  | JArr items =>
      (if negb showArraysOnly
       then [mkField (strOr prefix "root") (arrayLabel items) "array" None]
       else [])
      ++ match items with
         | firstItem :: _ =>
             match firstItem with
             | JArr _ | JObj _ =>   (* typeof firstItem === 'object' && firstItem !== null *)
                 extractFieldsFromJson firstItem (prefix +:+ "[0]") showArraysOnly
             | _ => []
             end
         | [] => []
         end
  | JObj fields =>
      (fix each (fs : list (string * JSValue)) : list FieldMapping :=
         match fs with
         | [] => []
         | (key, value) :: rest =>
             let currentPath := pathUnder prefix key in
             match value with
             | JNull | JUndefined =>
                 mkField currentPath (toStr value) (typeOf value) None
             | JArr items =>
                 mkField currentPath (arrayLabel items) "array"
                   match items with
                   | first :: _ =>
                       if typeofObject first
                       then Some (extractFieldsFromJson first (currentPath +:+ "[0]")
                                    showArraysOnly)
                       else None
                   | [] => None
                   end
             | JObj _ =>
                 mkField currentPath "Object" "object"
                   (Some (extractFieldsFromJson value currentPath showArraysOnly))
             | _ => mkField currentPath (toStr value) (typeOf value) None
             end :: each rest
         end) fields
  | _ => [mkField (strOr prefix "root") (toStr obj) (typeOf obj) None]
  end.

(** A field and everything below it in the tree of [children]. *)
Fixpoint allFields (f : FieldMapping) : list FieldMapping :=
  match f with
  | mkField _ _ _ None => [f]
  | mkField _ _ _ (Some cs) => f :: flat_map allFields cs
  end.

(** The fields a selector built from [fields] offers. *)
Definition offered (fields : list FieldMapping) : list FieldMapping :=
  flat_map allFields fields.

(** The value and type texts a field shows for the value [v]. *)
Definition describe (v : JSValue) : string * string :=
  match v with
  | JArr items => (arrayLabel items, "array")
  | JObj _ => ("Object", "object")
  | _ => (toStr v, typeOf v)
  end.

(** The [children] of the field that stands for [value] at
    [currentPath] (lines 441-456). *)
Definition childFields (value : JSValue) (currentPath : string) (showArraysOnly : bool)
  : option (list FieldMapping) :=
  match value with
  | JArr (first :: _) =>
      if typeofObject first
      then Some (extractFieldsFromJson first (currentPath +:+ "[0]") showArraysOnly)
      else None
  | JObj _ => Some (extractFieldsFromJson value currentPath showArraysOnly)
  | _ => None
  end.

(** The field's path leads [getNestedValue] from [root] to a value that
    the field's texts describe. *)
Definition faithful (root : JSValue) (f : FieldMapping) : Prop :=
  exists v : JSValue, getNestedValue root (fieldPath f) = inr (Data v)
                      /\ describe v = (fieldValue f, fieldType f).

(** [prefix] is a path from [root] to [obj]: paths that continue it
    resolve from [obj] on. *)
Definition located (root : JSValue) (prefix : string) (obj : JSValue) : Prop :=
  forall seg rest,
    includes "." seg = false ->
    resolve (split "."%char (pathUnder prefix seg) ++ rest) root = resolve (seg :: rest) obj.

(** A property name that a dotted path can spell: not empty, and without
    [.] and [[]. *)
Definition plainKey (k : string) : bool :=
  truthyStr k && negb (includes "." k) && negb (includes "[" k).

Fixpoint distinct (ks : list string) : bool :=
  match ks with
  | [] => true
  | k :: rest => negb (existsb (String.eqb k) rest) && distinct rest
  end.

(** Every object in [v] has plain, pairwise distinct property names. *)
Fixpoint plainKeys (v : JSValue) : bool :=
  match v with
  | JObj fields =>
      distinct (List.map fst fields)
      && (fix all (fs : list (string * JSValue)) : bool :=
            match fs with
            | [] => true
            | (k, x) :: rest => plainKey k && plainKeys x && all rest
            end) fields
  | JArr items =>
      (fix all (l : list JSValue) : bool :=
         match l with
         | [] => true
         | x :: rest => plainKeys x && all rest
         end) items
  | _ => true
  end.

(** No array in [v] has an array as its first element. *)
Fixpoint flatArrays (v : JSValue) : bool :=
  match v with
  | JObj fields =>
      (fix all (fs : list (string * JSValue)) : bool :=
         match fs with
         | [] => true
         | (_, x) :: rest => flatArrays x && all rest
         end) fields
  | JArr items =>
      match items with
      | first :: _ => negb (isArray first)
      | [] => true
      end
      && (fix all (l : list JSValue) : bool :=
            match l with
            | [] => true
            | x :: rest => flatArrays x && all rest
            end) items
  | _ => true
  end.

End Api.

(** ** [src/utils/currencyDetection.ts] *)

Module Currency.
Import JS.

Definition CURRENCY_FIELD_NAMES : list string :=
  [ "currency"; "currencyCode"; "currency_code"; "base_currency"; "baseCurrency";
    "vs_currency"; "vsCurrency"; "quote_currency"; "quoteCurrency"; "symbol";
    "code"; "currencySymbol"; "currency_symbol"; "unit"; "denomination" ].

Definition CURRENCY_CODE_TO_SYMBOL : list (string * string) :=
  [ ("USD", "$"); ("INR", "₹"); ("EUR", "€"); ("GBP", "£"); ("JPY", "¥");
    ("CNY", "¥"); ("AUD", "A$"); ("CAD", "C$"); ("CHF", "CHF"); ("BTC", "₿");
    ("ETH", "Ξ"); ("USDT", "$"); ("USDC", "$") ].

Definition SYMBOL_TO_CURRENCY_CODE : list (string * string) :=
  [ ("$", "USD"); ("₹", "INR"); ("€", "EUR"); ("£", "GBP"); ("¥", "JPY");
    ("₿", "BTC"); ("Ξ", "ETH") ].

Record CurrencyInfo : Type := mkInfo { code : string; symbol : string; path : string }.

Fixpoint tableLookup (k : string) (table : list (string * string)) : option string :=
  match table with
  | [] => None
  | (k', v) :: rest => if String.eqb k k' then Some v else tableLookup k rest
  end.

(** [s.length === 3 && /^[A-Z]{3}$/.test(s)] *)
Definition isCode (s : string) : bool :=
  match s with
  | String a (String b (String c EmptyString)) => isUpper a && isUpper b && isUpper c
  | _ => false
  end.

(** [path ? `${path}.${key}` : key] *)
Definition childPath (path key : string) : string :=
  if truthyStr path then path +:+ "." +:+ key else key.

Definition isCurrencyField (key : string) : bool :=
  existsb (fun field => includes (toLowerCase field) (toLowerCase key)) CURRENCY_FIELD_NAMES.

(** Lines 261-286: what one key of an object yields by itself. *)
Definition matchField (path key : string) (value : JSValue) : option CurrencyInfo :=
  if isCurrencyField key then
    match value with
    | JStr s =>
        if truthyStr (trim s) then
          let currencyValue := toUpperCase (trim s) in
          if isCode currencyValue then
            Some {| code := currencyValue;
                    symbol := default currencyValue
                                (tableLookup currencyValue CURRENCY_CODE_TO_SYMBOL);
                    path := childPath path key |}
          else
            match tableLookup currencyValue SYMBOL_TO_CURRENCY_CODE with
            | Some c => Some {| code := c; symbol := currencyValue;
                                path := childPath path key |}
            | None => None
            end
        else None
    | _ => None
    end
  else None.

Fixpoint findCurrencyInObject (obj : JSValue) (path : string) (maxDepth currentDepth : Z)
  {struct obj} : option CurrencyInfo :=
  if (currentDepth >? maxDepth)%Z then None
  else
    match obj with
    | JObj fields =>
        (fix scan (fs : list (string * JSValue)) : option CurrencyInfo :=
           match fs with
           | [] => None
           | (key, value) :: rest =>
               match matchField path key value with
               | Some found => Some found
               | None =>
                   match value with
                   | JObj _ =>
                       match findCurrencyInObject value (childPath path key)
                               maxDepth (currentDepth + 1) with
                       | Some found => Some found
                       | None => scan rest
                       end
                   | _ => scan rest
                   end
               end
           end) fields
    | JArr (first :: _) => findCurrencyInObject first path maxDepth (currentDepth + 1)
    | _ => None
    end.

Definition detectCurrency (d : JSValue) : option CurrencyInfo :=
  if negb (truthy d) || negb (typeofObject d) then None
  else
    match findCurrencyInObject d "" 5 0 with
    | Some rootResult => Some rootResult
    | None =>
        let inner := getProp "data" d in
        match (if truthy inner && typeofObject inner
               then findCurrencyInObject inner "data" 5 0 else None) with
        | Some nestedResult => Some nestedResult
        | None =>
            match d with
            | JArr (first :: _) => findCurrencyInObject first "[0]" 5 0
            | _ => None
            end
        end
    end.

(** [CURRENCY_CODE_TO_SYMBOL[code.toUpperCase()] || code].  The name read
    is in upper case, and every name an object inherits has a lower-case
    letter in it: this read, and the two reads of [matchField], find the
    table's own entries only. *)
Definition getCurrencySymbol (c : string) : string :=
  match tableLookup (toUpperCase c) CURRENCY_CODE_TO_SYMBOL with
  | Some s => strOr s c
  | None => c
  end.

(** [SYMBOL_TO_CURRENCY_CODE[symbol] || null].  The table is an object
    literal, so the read also finds what every object inherits: for such
    a name the result is the inherited member, which is truthy. *)
Definition getCurrencyCode (s : string) : Any :=
  match tableLookup s SYMBOL_TO_CURRENCY_CODE with
  | Some c => if truthyStr c then Data (JStr c) else Data JNull
  | None => default (Data JNull) (inherited s ObjectPrototype)
  end.

(** The keys of the data with their values, at any depth: those of an
    object, and those of whatever is stored under its keys or in the
    elements of an array. *)
Fixpoint entries (v : JSValue) : list (string * JSValue) :=
  match v with
  | JObj fields =>
      (fix each (fs : list (string * JSValue)) : list (string * JSValue) :=
         match fs with
         | [] => []
         | (k, x) :: rest => (k, x) :: entries x ++ each rest
         end) fields
  | JArr items =>
      (fix all (l : list JSValue) : list (string * JSValue) :=
         match l with
         | [] => []
         | x :: rest => (entries x ++ all rest)%list
         end) items
  | _ => []
  end.

(** One inspection made by the scan: the key [key] with value [value] of
    an object found [depth] levels down, at [location]. *)
Record Visit : Type := mkVisit {
  depth : Z;
  location : string;
  key : string;
  value : JSValue
}.

(** The inspections [findCurrencyInObject] would make if nothing ever
    matched, in the order it makes them. *)
Fixpoint visits (obj : JSValue) (path : string) (maxDepth currentDepth : Z)
  {struct obj} : list Visit :=
  if (currentDepth >? maxDepth)%Z then []
  else
    match obj with
    | JObj fields =>
        (fix each (fs : list (string * JSValue)) : list Visit :=
           match fs with
           | [] => []
           | (k, v) :: rest =>
               mkVisit currentDepth path k v
               :: match v with
                  | JObj _ => visits v (childPath path k) maxDepth (currentDepth + 1)
                  | _ => []
                  end
               ++ each rest
           end) fields
    | JArr (first :: _) => visits first path maxDepth (currentDepth + 1)
    | _ => []
    end.

(** The first inspection of a list that yields a currency. *)
Fixpoint firstMatch (l : list Visit) : option CurrencyInfo :=
  match l with
  | [] => None
  | x :: rest =>
      match matchField (location x) (key x) (value x) with
      | Some found => Some found
      | None => firstMatch rest
      end
  end.

(** The order the specification words puts the own keys of a value before
    anything nested in it: this is the first own key of [obj] that yields
    a currency. *)
Definition ownKeyMatch (obj : JSValue) (path : string) : option CurrencyInfo :=
  match obj with
  | JObj fields => firstMatch (List.map (fun kv => mkVisit 0 path (fst kv) (snd kv)) fields)
  | _ => None
  end.

End Currency.

(** ** [src/utils/apiUrlBuilder.ts] *)

Module Builder.
Import JS Web.

Inductive TimeInterval : Type := Daily | Weekly | Monthly | Custom.

(** [URLSearchParams] on the list of its entries: [has], [get] (with
    [None] for [null]) and [set], which overwrites the first entry of the
    name and removes the others, or appends a new entry. *)
Definition has (name : string) (params : list (string * string)) : bool :=
  existsb (fun kv => String.eqb (fst kv) name) params.

Fixpoint get (name : string) (params : list (string * string)) : option string :=
  match params with
  | [] => None
  | (k, v) :: rest => if String.eqb k name then Some v else get name rest
  end.

Definition remove (name : string) (params : list (string * string))
  : list (string * string) :=
  List.filter (fun kv => negb (String.eqb (fst kv) name)) params.

Fixpoint set (name value : string) (params : list (string * string))
  : list (string * string) :=
  match params with
  | [] => [(name, value)]
  | (k, v) :: rest =>
      if String.eqb k name then (name, value) :: remove name rest
      else (k, v) :: set name value rest
  end.

Definition resolutionMap (t : TimeInterval) : string :=
  match t with Daily => "D" | Weekly => "W" | Monthly => "M" | Custom => "D" end.

Definition intervalMap (t : TimeInterval) : string :=
  match t with
  | Daily => "daily" | Weekly => "weekly" | Monthly => "monthly" | Custom => "daily"
  end.

Definition periodMap (t : TimeInterval) : string :=
  match t with Daily => "1d" | Weekly => "1w" | Monthly => "1m" | Custom => "1d" end.

(** The [switch] of lines 81-91, with its initial value for the case it
    leaves out. *)
Definition daysBack (t : TimeInterval) : Z :=
  match t with Daily => 30 | Weekly => 90 | Monthly => 365 | Custom => 30 end.

(** Lines 61-136: what becomes of the search parameters, for a lower-cased
    [hostname], at the instant [now]. *)
Definition intervalParams (now : Z) (hostname : string) (t : TimeInterval)
    (params : list (string * string)) : list (string * string) :=
  if includes "finnhub.io" hostname then
    let params :=
      if truthyStr (resolutionMap t) then set "resolution" (resolutionMap t) params
      else params in
    if negb (has "from" params) || negb (has "to" params) then
      let seconds := now / 1000 in
      let from := seconds - daysBack t * 24 * 60 * 60 in
      set "to" (showZ seconds) (set "from" (showZ from) params)
    else params
  else if includes "alphavantage.co" hostname then
    if truthyStr (intervalMap t) then set "interval" (intervalMap t) params else params
  else
    let params :=
      if negb (has "interval" params) then set "interval" (intervalMap t) params
      else params in
    if negb (has "period" params) then set "period" (periodMap t) params else params.

(** The names and values the two readers of [extractTimeIntervalFromUrl]
    know. *)
Definition resolutionNames : list (string * TimeInterval) :=
  [("D", Daily); ("W", Weekly); ("M", Monthly)].

Definition intervalNames : list (string * TimeInterval) :=
  [("daily", Daily); ("weekly", Weekly); ("monthly", Monthly)].

Fixpoint named (name : string) (table : list (string * TimeInterval))
  : option TimeInterval :=
  match table with
  | [] => None
  | (k, t) :: rest => if String.eqb name k then Some t else named name rest
  end.

Section Platform.

Variable parseURL : string -> option URL.
(** [new URL(url).hostname], and [urlObj.toString()] for the object of
    [url] once its search parameters are [params]. *)
Variable hostname : string -> string.
Variable href : string -> list (string * string) -> string.

Definition addTimeIntervalToUrl (now : Z) (url : string) (timeInterval : TimeInterval)
  : string :=
  if negb (truthyStr url)
     || match timeInterval with Custom => true | _ => false end
  then url
  else
    match parseURL url with
    | Some urlObj =>
        href url (intervalParams now (toLowerCase (hostname url)) timeInterval
                                 (searchParams urlObj))
    | None => url          (* new URL threw *)
    end.

Definition extractTimeIntervalFromUrl (url : string) : option TimeInterval :=
  match parseURL url with
  | Some urlObj =>
      let params := searchParams urlObj in
      if includes "finnhub.io" (toLowerCase (hostname url)) then
        match get "resolution" params with
        | Some resolution =>
            if truthyStr resolution then named (toUpperCase resolution) resolutionNames
            else None
        | None => None
        end
      else
        (* the Alpha Vantage branch and the generic one read alike *)
        match get "interval" params with
        | Some interval =>
            if truthyStr interval then named (toLowerCase interval) intervalNames
            else None
        | None => None
        end
  | None => None
  end.

End Platform.

(** The parameters [addTimeIntervalToUrl] may write. *)
Definition intervalParameter (name : string) : bool :=
  String.eqb name "resolution" || String.eqb name "from" || String.eqb name "to"
  || String.eqb name "interval" || String.eqb name "period".

End Builder.

(** ** [src/hooks/useWidgetData.ts]: the [fetchData] callback *)

Module Hook.
Import JS Web Api Currency Builder.

Inductive DisplayMode : Type := Card | Table | Chart.

(** The members of [WidgetConfig] the hook reads. *)
Record WidgetConfig : Type := mkWidget {
  apiUrl : string;
  apiKey : option string;
  apiKeyHeader : option string;
  refreshInterval : Z;
  cacheTTL : option Z;
  displayMode : DisplayMode;
  timeInterval : option TimeInterval
}.

(** The state variables of the hook; [None] is [null]. *)
Record HookState : Type := mkState {
  data : option ApiResponse;
  loading : bool;
  error : option string;
  isRateLimited : bool;
  rateLimitResetTime : option jsnum;
  fromCache : bool;
  cacheAge : option Z;
  detectedCurrency : option CurrencyInfo
}.

Definition initialState : HookState :=
  {| data := None; loading := true; error := None; isRateLimited := false;
     rateLimitResetTime := None; fromCache := false; cacheAge := None;
     detectedCurrency := None |}.

Definition pausedMessage (waitSeconds : Z) : string :=
  "Rate limit exceeded. Auto-refresh paused. Please wait " +:+ showZ waitSeconds
  +:+ " seconds.".

(** The regular expression [/(\d+)\s*seconds/]: the leading digits of a
    text and what follows them; a match anchored at the start of the
    text; and the leftmost match, which is what [String.prototype.match]
    reports.  Both quantifiers are greedy, and giving back a digit or a
    space never helps the rest to match, so the first attempt at each
    position decides. *)
Fixpoint spanDigits (s : string) : string * string :=
  match s with
  | String c rest =>
      if isDigit c then let (digits, after) := spanDigits rest in (String c digits, after)
      else (EmptyString, s)
  | EmptyString => (EmptyString, EmptyString)
  end.

Definition matchSecondsHere (s : string) : option string :=
  let (digits, after) := spanDigits s in
  if truthyStr digits && startsWith "seconds" (trimStart after) then Some digits else None.

Fixpoint matchSeconds (s : string) : option string :=
  match matchSecondsHere s with
  | Some digits => Some digits
  | None =>
      match s with
      | String _ rest => matchSeconds rest
      | EmptyString => None
      end
  end.

(** [value?.trim()] as a condition. *)
Definition trimmedTruthy (o : option string) : bool :=
  match o with
  | Some s => truthyStr (trim s)
  | None => false
  end.

(** [number && ...]: [null], [0] and [NaN] are falsy. *)
Definition truthyInstant (o : option jsnum) : bool :=
  match o with
  | Some (Int z) => negb (Z.eqb z 0)
  | _ => false
  end.

Section Platform.

Variable parseURL : string -> option URL.
Variable localeCompare : string -> string -> Z.
Variable network : Z -> list Event -> Request -> NetResult.
Variable typeErrorMessage : Fault -> string.
Variable hostname : string -> string.
Variable href : string -> list (string * string) -> string.

Section Widget.

Variable widget : WidgetConfig.

(** Lines 55-59. *)
Definition requestUrl (now : Z) : string :=
  match displayMode widget, timeInterval widget with
  | Chart, Some interval => addTimeIntervalToUrl parseURL hostname href now (apiUrl widget) interval
  | _, _ => apiUrl widget
  end.

(** Lines 63-76. *)
Definition headerAuth (url : string) : bool :=
  negb (includes "token=" url || includes "apikey=" url
        || includes "api_key=" url || includes "key=" url)
  && trimmedTruthy (apiKey widget) && trimmedTruthy (apiKeyHeader widget).

Definition keyToUse (url : string) : option string :=
  if headerAuth url then option_map trim (apiKey widget) else None.

Definition headerToUse (url : string) : option string :=
  if headerAuth url then option_map trim (apiKeyHeader widget) else None.

(** Lines 94-131: what the state becomes once [fetchApiData] has
    returned [response], at the instant [now]. *)
Definition settle (response : ApiResponse) (now : Z) (st : HookState) : HookState :=
  if truthyOpt (Api.error response) then
    let message := default "" (Api.error response) in
    let limited := includes "Rate limit" message || includes "rate limit" message in
    {| data := None;
       loading := false;
       error := Some message;
       isRateLimited := if limited then true else isRateLimited st;
       rateLimitResetTime :=
         if limited then
           match matchSeconds message with
           | Some digits =>
               match parseInt digits with
               | Int waitSeconds => Some (Int (now + waitSeconds * 1000))
               | NaN => Some NaN
               end
           | None => Some (Int (now + 60000))
           end
         else rateLimitResetTime st;
       fromCache := fromCache st;
       cacheAge := cacheAge st;
       detectedCurrency := detectedCurrency st |}
  else
    {| data := Some response;
       loading := false;
       error := error st;
       isRateLimited := false;
       rateLimitResetTime := None;
       fromCache := default false (Api.fromCache response);
       cacheAge :=
         match Api.cacheAge response with
         | Some age => if Z.eqb age 0 then None else Some age
         | None => None
         end;
       detectedCurrency :=
         if truthy (Api.data response) then detectCurrency (Api.data response) else None |}.

(** [fetchData(bypassCache)], run to the end of its [await]; [None] only
    when [fetchApiData] runs out of fuel. *)
Definition fetchData (bypassCache : bool) (st : HookState) (w : World)
  : option (HookState * World) :=
  let paused :=
    if isRateLimited st && truthyInstant (rateLimitResetTime st) then
      match rateLimitResetTime st with
      | Some (Int reset) => Z.ltb (clock w) reset
      | _ => false
      end
    else false in
  if paused then
    let reset := match rateLimitResetTime st with Some (Int r) => r | _ => 0 end in
    Some ({| data := data st; loading := loading st;
             error := Some (pausedMessage (ceilSeconds (reset - clock w)));
             isRateLimited := isRateLimited st;
             rateLimitResetTime := rateLimitResetTime st;
             fromCache := fromCache st; cacheAge := cacheAge st;
             detectedCurrency := detectedCurrency st |}, w)
  else
    let lifted := isRateLimited st && truthyInstant (rateLimitResetTime st) in
    let st1 :=
      {| data := data st; loading := true; error := None;
         isRateLimited := if lifted then false else isRateLimited st;
         rateLimitResetTime := if lifted then None else rateLimitResetTime st;
         fromCache := false; cacheAge := None;
         detectedCurrency := detectedCurrency st |} in
    let url := requestUrl (clock w) in
    match fetchApiData parseURL localeCompare network typeErrorMessage
            url (keyToUse url) (headerToUse url) 0 3 false
            (Some (default 30 (cacheTTL widget))) bypassCache w with
    | Some (response, w') => Some (settle response (clock w') st1, w')
    | None => None
    end.

End Widget.

End Platform.

End Hook.

(** ** Concrete stand-ins for the platform, used by the examples *)

Module Sample.
Import JS Web Api.

(** The text before and after the first occurrence of [sep]. *)
Fixpoint breakOn (sep s : string) : option (string * string) :=
  if startsWith sep s
  then Some (EmptyString, String.substring (String.length sep) (String.length s) s)
  else match s with
       | EmptyString => None
       | String c rest =>
           match breakOn sep rest with
           | Some (before, after) => Some (String c before, after)
           | None => None
           end
       end.

Definition parseParam (piece : string) : string * string :=
  match breakOn "=" piece with
  | Some (k, v) => (k, v)
  | None => (piece, EmptyString)
  end.

Definition parseQuery (q : string) : list (string * string) :=
  List.map parseParam
    (List.filter (fun piece => truthyStr piece) (split "&"%char q)).

(** [new URL] on plain [scheme://host/path?query] addresses without
    escapes or fragments; anything without [://] does not parse. *)
Definition parseSimpleURL (url : string) : option URL :=
  match breakOn "://" url with
  | Some (scheme, rest) =>
      let (beforeQuery, query) :=
        match breakOn "?" rest with
        | Some (b, q) => (b, q)
        | None => (rest, EmptyString)
        end in
      let (host, path) :=
        match breakOn "/" beforeQuery with
        | Some (h, p) => (h, "/" +:+ p)
        | None => (beforeQuery, "/")
        end in
      if truthyStr scheme && truthyStr host
      then Some {| origin := scheme +:+ "://" +:+ host;
                   pathname := path;
                   searchParams := parseQuery query |}
      else None
  | None => None
  end.

(** Comparison by character codes, which is how [localeCompare] orders
    lower-case ASCII words. *)
Definition compareCodeUnits (a b : string) : Z :=
  match String_as_OT.compare a b with
  | Lt => -1
  | Eq => 0
  | Gt => 1
  end.

(** A network that answers the n-th request with the n-th entry of a
    script, and refuses connections once the script is used up. *)
Definition scripted (script : list NetResult) : Z -> list Event -> Request -> NetResult :=
  fun _ tr _ =>
    nth (List.length (requests tr)) script
        (NetError (mkExn true "Failed to fetch") 0).

(** The texts V8 gives its [TypeError]s. *)
Definition v8Message (f : Fault) : string :=
  match f with
  | InvalidURL => "Failed to construct 'URL': Invalid URL"
  | ReadOfNull p => "Cannot read properties of null (reading '" +:+ p +:+ "')"
  | NotAFunction c => c +:+ " is not a function"
  | InOnPrimitive k => "Cannot use 'in' operator to search for '" +:+ k +:+ "'"
  end.

Definition emptyWorld : World :=
  {| responseCache := ∅; rateLimitCache := ∅; clock := 0; trace := [] |}.

Definition jsonResponse (st : Z) (v : JSValue) : Response :=
  {| status := st; statusText := EmptyString; retryAfter := None; body := BodyJson v |}.

(** [fetchApiData] on the stand-in platform with a scripted network. *)
Definition run (script : list NetResult) :=
  fetchApiData parseSimpleURL compareCodeUnits (scripted script) v8Message.

Definition resultOf (o : option (ApiResponse * World)) : ApiResponse :=
  match o with
  | Some (r, _) => r
  | None => failed EmptyString 0
  end.

Definition worldOf (o : option (ApiResponse * World)) : World :=
  match o with
  | Some (_, w) => w
  | None => emptyWorld
  end.

(** A server that answers every request with the same status. *)
Definition alwaysStatus (st : Z) : Z -> list Event -> Request -> NetResult :=
  fun _ _ _ => NetResponse (jsonResponse st JNull) 0.

Definition quoteUrl : string := "https://api.example.com/quote?symbol=AAPL".
Definition newsUrl : string := "https://api.example.com/news?symbol=AAPL".
Definition quoteBody : JSValue := JObj [("price", JNum 5)].

Definition tooManyRequests (retry : string) : Response :=
  {| status := 429; statusText := "Too Many Requests"; retryAfter := Some retry;
     body := BodyJson (JObj [("error", JStr "slow down")]) |}.

(** One origin, two endpoints: the quote is fetched and cached for five
    minutes, then the news endpoint is told to back off for two minutes,
    then the quote is refreshed by hand. *)
Definition outage : list NetResult :=
  [ NetResponse (jsonResponse 200 quoteBody) 10;
    NetResponse (tooManyRequests "120") 10 ].

Definition populated : option (ApiResponse * World) :=
  run outage quoteUrl None None 0 3 false (Some 300) false emptyWorld.

Definition throttled : option (ApiResponse * World) :=
  run outage newsUrl None None 0 0 false (Some 300) false (worldOf populated).

Definition refreshed : option (ApiResponse * World) :=
  run outage quoteUrl None None 0 3 false (Some 300) true (worldOf throttled).

(** The quote is fetched and cached, then the server breaks. *)
Definition breakdown : list NetResult :=
  [ NetResponse (jsonResponse 200 quoteBody) 10;
    NetResponse (jsonResponse 500 (JObj [("error", JStr "boom")])) 10 ].

Definition beforeBreakdown : option (ApiResponse * World) :=
  run breakdown quoteUrl None None 0 3 false (Some 300) false emptyWorld.

Definition afterBreakdown : option (ApiResponse * World) :=
  run breakdown quoteUrl None None 0 0 false (Some 300) true (worldOf beforeBreakdown).



(** Two different parameters, in the two possible orders. *)
Definition fromTo : string := "https://api.example.com/convert?from=USD&to=EUR".
Definition toFrom : string := "https://api.example.com/convert?to=EUR&from=USD".

(** The same parameter name twice, in the two possible orders. *)
Definition tagsAB : string := "https://api.example.com/search?tag=a&tag=b".
Definition tagsBA : string := "https://api.example.com/search?tag=b&tag=a".

(** An Alpha Vantage endpoint and the notice it sends, with status 200,
    to callers that ask too often. *)
Definition alphaUrl : string :=
  "https://www.alphavantage.co/query?function=GLOBAL_QUOTE&symbol=IBM".

Definition alphaNote : string :=
  "Thank you for using Alpha Vantage! Please retry in a minute.".

Definition alphaThrottled : list NetResult :=
  [ NetResponse (jsonResponse 200 (JObj [("Note", JStr alphaNote)])) 10 ].

(** The proxy's envelope around a payload that is falsy. *)
Definition zeroEnvelope : JSValue := JObj [("data", JNum 0)].

(** A server that asks for two minutes of quiet, and one that asks for
    one second and then answers. *)
Definition longBlock : list NetResult := [ NetResponse (tooManyRequests "120") 10 ].

Definition shortBlock : list NetResult :=
  [ NetResponse (tooManyRequests "1") 10;
    NetResponse (jsonResponse 200 quoteBody) 10 ].

(** A server that sends [Retry-After] in its date form with the 429, and
    delivers when asked again. *)
Definition httpDate : string := "Wed, 21 Oct 2015 07:28:00 GMT".

Definition dateBlock : list NetResult :=
  [ NetResponse (tooManyRequests httpDate) 10;
    NetResponse (jsonResponse 200 quoteBody) 10 ].

Definition dated : option (ApiResponse * World) :=
  run dateBlock quoteUrl None None 0 3 false None false emptyWorld.

Definition afterDated : option (ApiResponse * World) :=
  run dateBlock quoteUrl None None 0 3 false None false (worldOf dated).

(** A call late in a long retry budget against a server that is down. *)
Definition lateRetry (retryCount : Z) : option (ApiResponse * World) :=
  fetchApiData parseSimpleURL compareCodeUnits (alwaysStatus 503) v8Message
               quoteUrl None None retryCount (retryCount + 1) false None false emptyWorld.

(** A credential whose header name is [__proto__]. *)
Definition protoKeyed : option (ApiResponse * World) :=
  run [NetResponse (jsonResponse 200 quoteBody) 10]
      quoteUrl (Some "secret") (Some "__proto__") 0 3 false None false emptyWorld.

(** The same call with an ordinary header name. *)
Definition tokenKeyed : option (ApiResponse * World) :=
  run [NetResponse (jsonResponse 200 quoteBody) 10]
      quoteUrl (Some "secret") (Some "X-Token") 0 3 false None false emptyWorld.

(** A browser that refuses every direct request, and a proxy that answers
    every request with the envelope of a falsy payload. *)
Definition proxyOnly : Z -> list Event -> Request -> NetResult :=
  fun _ _ sent =>
    match target sent with
    | Direct _ => NetError (mkExn true "Failed to fetch") 5
    | ViaProxy _ _ => NetResponse (jsonResponse 200 (JObj [("data", JNum 0)])) 7
    end.

(** Two api keys that agree on their first eight characters. *)
Definition keyOne : string := "abcdefgh-one".
Definition keyTwo : string := "abcdefgh-two".

(** Host name and serialisation for the addresses [parseSimpleURL]
    reads (no port, no escapes). *)
Definition simpleHostname (url : string) : string :=
  match parseSimpleURL url with
  | Some u =>
      match breakOn "://" (origin u) with
      | Some (_, host) => host
      | None => EmptyString
      end
  | None => EmptyString
  end.

Definition simpleHref (url : string) (params : list (string * string)) : string :=
  match parseSimpleURL url with
  | Some u =>
      origin u +:+ pathname u
      +:+ match params with
          | [] => EmptyString
          | _ => "?" +:+ join "&" (List.map (fun kv => fst kv +:+ "=" +:+ snd kv) params)
          end
  | None => url
  end.

Definition candleUrl : string :=
  "https://finnhub.io/api/v1/stock/candle?symbol=AAPL".

(** A card widget for the quote endpoint, refreshed every ten seconds. *)
Definition quoteWidget : Hook.WidgetConfig :=
  {| Hook.apiUrl := quoteUrl; Hook.apiKey := None; Hook.apiKeyHeader := None;
     Hook.refreshInterval := 10; Hook.cacheTTL := None;
     Hook.displayMode := Hook.Card; Hook.timeInterval := None |}.

Definition fetchQuote (net : Z -> list Event -> Request -> NetResult) :=
  Hook.fetchData parseSimpleURL compareCodeUnits net v8Message simpleHostname simpleHref
                 quoteWidget.

(** Payloads of the examples. *)
Definition nestedPayload : JSValue :=
  JObj [("a", JObj [("b", JArr [JObj [("c", JNum 5)]])])].

Definition quotePayload : JSValue :=
  JObj [("quote", JObj [("currency", JStr "USD"); ("price", JNum 100)])].

(** A nested object that comes before a matching own key. *)
Definition shadowedPayload : JSValue :=
  JObj [("a", JObj [("currency", JStr "EUR")]); ("currency", JStr "USD")].

(** A currency that sits in an array stored under a key. *)
Definition listedPayload : JSValue :=
  JObj [("items", JArr [JObj [("currency", JStr "EUR")]])].

End Sample.

(** * Properties *)

(** ** The string primitives *)

Module TextFacts.
Import JS.
Local Open Scope list_scope.

Lemma startsWith_refl s : startsWith s s = true.
Proof. induction s as [|a s IH]; simpl; [reflexivity|]. now rewrite Ascii.eqb_refl. Qed.

Lemma includes_refl s : includes s s = true.
Proof. destruct s; simpl; [reflexivity|]. now rewrite Ascii.eqb_refl, startsWith_refl. Qed.

Lemma includes_empty s : includes EmptyString s = true.
Proof. destruct s; reflexivity. Qed.

Lemma append_cons a s t : String a s +:+ t = String a (s +:+ t).
Proof. reflexivity. Qed.

Lemma append_nil_l t : EmptyString +:+ t = t.
Proof. reflexivity. Qed.

Lemma append_nil_r s : s +:+ EmptyString = s.
Proof.
  induction s as [|a s IH]; [reflexivity|]. rewrite append_cons. now rewrite IH.
Qed.

Lemma append_assoc a b c : (a +:+ b) +:+ c = a +:+ (b +:+ c).
Proof.
  induction a as [|x a IH]; [reflexivity|]. rewrite !append_cons. now rewrite IH.
Qed.

Lemma split_nonempty c s : split c s <> [].
Proof.
  destruct s as [|a s]; cbn [split]; [discriminate|].
  destruct (Ascii.eqb a c); [discriminate|]. destruct (split c s); discriminate.
Qed.

(** Splitting at [c] a text that has [c] at a known place. *)
Lemma split_app c a b : split c (a +:+ String c b) = split c a ++ split c b.
Proof.
  induction a as [|x a IH].
  - rewrite append_nil_l. cbn [split]. now rewrite Ascii.eqb_refl.
  - rewrite append_cons. cbn [split]. destruct (Ascii.eqb x c); [now rewrite IH|].
    rewrite IH. destruct (split c a) as [|piece pieces] eqn:Hs; [|reflexivity].
    now destruct (split_nonempty c a).
Qed.

Lemma includes_char c x s :
  includes (String c EmptyString) (String x s)
  = Ascii.eqb c x || includes (String c EmptyString) s.
Proof. cbn [includes startsWith]. now rewrite andb_true_r. Qed.

Lemma includes_char_app c a b :
  includes (String c EmptyString) (a +:+ b)
  = includes (String c EmptyString) a || includes (String c EmptyString) b.
Proof.
  induction a as [|x a IH].
  - rewrite append_nil_l. reflexivity.
  - rewrite append_cons, !includes_char, IH. now rewrite orb_assoc.
Qed.

(** A text without [c] is one piece. *)
Lemma split_plain c s : includes (String c EmptyString) s = false -> split c s = [s].
Proof.
  induction s as [|x s IH]; [reflexivity|].
  rewrite includes_char. intros [Hx Hs]%orb_false_iff. cbn [split].
  rewrite Ascii.eqb_sym, Hx, (IH Hs). reflexivity.
Qed.

End TextFacts.

(** ** The TTL cache *)

Module CacheFacts.
Import JS Web Cache.

Lemma get_hit now key c e c' :
  getCachedData now key c = (Some e, c') ->
  c !! key = Some e /\ now < expiresAt e /\ c' = c.
Proof.
  unfold getCachedData. destruct (c !! key) as [entry|] eqn:Hlook; [|discriminate].
  destruct (Z.geb_spec now (expiresAt entry)); intros [= <- <-].
  repeat split; trivial.
Qed.

Lemma get_fresh now key c e :
  c !! key = Some e -> now < expiresAt e -> getCachedData now key c = (Some e, c).
Proof.
  intros Hlook Hlt. unfold getCachedData. rewrite Hlook.
  destruct (Z.geb_spec now (expiresAt e)); [lia | reflexivity].
Qed.

Lemma get_expired now key c e :
  c !! key = Some e -> expiresAt e <= now -> getCachedData now key c = (None, delete key c).
Proof.
  intros Hlook Hge. unfold getCachedData. rewrite Hlook.
  destruct (Z.geb_spec now (expiresAt e)); [reflexivity | lia].
Qed.

Lemma get_absent now key c : c !! key = None -> getCachedData now key c = (None, c).
Proof. intros Hlook. unfold getCachedData. now rewrite Hlook. Qed.

Lemma set_lookup now key d ttl u c :
  setCachedData now key d ttl u c !! key
  = Some {| data := d; timestamp := now; expiresAt := now + ttl * 1000; url := u |}.
Proof. unfold setCachedData. apply lookup_insert_eq. Qed.

Lemma reachable_stamped c :
  reachable c -> forall key e, c !! key = Some e -> stamped e.
Proof.
  induction 1 as [|now k c Hc IH|now k d ttl u c Hc IH|k c Hc IH|c Hc IH|p c Hc IH|now c Hc IH];
    intros key e Hlook.
  - rewrite lookup_empty in Hlook. discriminate.
  - unfold getCachedData in Hlook. destruct (c !! k) as [entry|] eqn:Hk; simpl in Hlook.
    + destruct (now >=? expiresAt entry); simpl in Hlook; [|eauto].
      destruct (decide (k = key)) as [->|Hne].
      * rewrite lookup_delete_eq in Hlook. discriminate.
      * rewrite lookup_delete_ne in Hlook by assumption. eauto.
    + eauto.
  - unfold setCachedData in Hlook. destruct (decide (k = key)) as [->|Hne].
    + rewrite lookup_insert_eq in Hlook. injection Hlook as <-. now exists ttl.
    + rewrite lookup_insert_ne in Hlook by assumption. eauto.
  - unfold invalidateCache in Hlook. destruct (decide (k = key)) as [->|Hne].
    + rewrite lookup_delete_eq in Hlook. discriminate.
    + rewrite lookup_delete_ne in Hlook by assumption. eauto.
  - unfold clearCache in Hlook. rewrite lookup_empty in Hlook. discriminate.
  - unfold clearCacheByUrlPattern in Hlook.
    apply map_lookup_filter_Some in Hlook as [Hlook _]. eauto.
  - unfold cleanupExpiredCache in Hlook.
    apply map_lookup_filter_Some in Hlook as [Hlook _]. eauto.
Qed.

(** C5.  An entry stored at [t0] with [ttlSeconds = T > 0] is a hit at
    every instant before [t0 + T] seconds (at [t0] itself in particular),
    and from [t0 + T] seconds on the lookup misses and removes the entry;
    whatever a lookup returns has not expired.  With [T = 5] the entry is
    a hit four seconds after it was stored and a miss six seconds after. *)
Theorem ttl_window (t0 T : Z) (key : string) (d : JSValue) (u : string) (c : Store) :
  0 < T ->
  let c1 := setCachedData t0 key d T u c in
  let entry := {| data := d; timestamp := t0; expiresAt := t0 + T * 1000; url := u |} in
  getCachedData t0 key c1 = (Some entry, c1)
  /\ (forall now, now < t0 + T * 1000 -> getCachedData now key c1 = (Some entry, c1))
  /\ (forall now, t0 + T * 1000 <= now ->
        getCachedData now key c1 = (None, delete key c1)
        /\ delete key c1 !! key = None)
  /\ (forall now e c2, getCachedData now key c1 = (Some e, c2) -> now < expiresAt e)
  /\ (T = 5 ->
        getCachedData (t0 + 4000) key c1 = (Some entry, c1)
        /\ fst (getCachedData (t0 + 6000) key c1) = None).
Proof.
  intros HT c1 entry.
  assert (Hlook : c1 !! key = Some entry) by apply set_lookup.
  split; [apply get_fresh with (e := entry); simpl; [assumption | lia]|].
  split; [intros now Hnow; apply get_fresh with (e := entry); simpl; [assumption | lia]|].
  split.
  { intros now Hnow. split; [|apply lookup_delete_eq].
    apply get_expired with (e := entry); simpl; [assumption | lia]. }
  split.
  { intros now e c2 Hget. apply get_hit in Hget. tauto. }
  intros ->. split.
  - apply get_fresh with (e := entry); simpl; [assumption | lia].
  - rewrite (get_expired (t0 + 6000) key c1 entry); simpl; [reflexivity | assumption | lia].
Qed.

Lemma ttl_window_witness :
  0 < 5 /\
  getCachedData 1004000 "k" (setCachedData 1000000 "k" (JNum 7) 5 "https://h/p" ∅)
  = (Some {| data := JNum 7; timestamp := 1000000; expiresAt := 1005000;
             url := "https://h/p" |},
     setCachedData 1000000 "k" (JNum 7) 5 "https://h/p" ∅).
Proof.
  split; [lia|].
  apply (ttl_window 1000000 5 "k" (JNum 7) "https://h/p" ∅); lia.
Defined.

(** C10.  Whatever [getCachedData] returns as a hit is unexpired, and in a
    store built by the exported operations its expiry is its timestamp
    plus a TTL in seconds.  [setCachedData] with [ttlSeconds <= 0] does
    insert an entry, but one that is expired from the start: every later
    lookup of its key misses and removes it, and its age is not
    reported. *)
Theorem hit_is_fresh (c : Store) (now : Z) (key : string) (e : CacheEntry) (c' : Store)
    (c0 : Store) (t0 ttl now' : Z) (key0 : string) (d : JSValue) (u : string) :
  (reachable c -> getCachedData now key c = (Some e, c') ->
     now < expiresAt e
     /\ exists ttlSeconds, expiresAt e = timestamp e + ttlSeconds * 1000)
  /\ (ttl <= 0 -> t0 <= now' ->
      let c1 := setCachedData t0 key0 d ttl u c0 in
      is_Some (c1 !! key0)
      /\ (forall e1, c1 !! key0 = Some e1 -> expiresAt e1 <= t0)
      /\ getCachedData now' key0 c1 = (None, delete key0 c1)
      /\ delete key0 c1 !! key0 = None
      /\ getCacheAge now' key0 c1 = None).
Proof.
  split.
  - intros Hreach Hget. apply get_hit in Hget as (Hlook & Hlt & _).
    split; [assumption|]. exact (reachable_stamped c Hreach key e Hlook).
  - intros Httl Hnow c1.
    pose proof (set_lookup t0 key0 d ttl u c0) as Hlook. fold c1 in Hlook.
    split; [rewrite Hlook; eauto|].
    split; [intros e1 He1; rewrite Hlook in He1; injection He1 as <-; simpl; nia|].
    split; [apply get_expired with (1 := Hlook); simpl; nia|].
    split; [apply lookup_delete_eq|].
    unfold getCacheAge. rewrite Hlook. simpl.
    destruct (Z.geb_spec now' (t0 + ttl * 1000)); [reflexivity | nia].
Qed.

Lemma hit_is_fresh_witness :
  (reachable (setCachedData 1000 "k" (JNum 1) 30 "u" ∅)
   /\ getCachedData 2000 "k" (setCachedData 1000 "k" (JNum 1) 30 "u" ∅)
      = (Some {| data := JNum 1; timestamp := 1000; expiresAt := 31000; url := "u" |},
         setCachedData 1000 "k" (JNum 1) 30 "u" ∅)
   /\ 2000 < 31000)
  /\ (0 <= 0 /\ 1000 <= 1000
      /\ getCachedData 1000 "k" (setCachedData 1000 "k" (JNum 1) 0 "u" ∅)
         = (None, delete "k" (setCachedData 1000 "k" (JNum 1) 0 "u" ∅))).
Proof.
  pose (c := setCachedData 1000 "k" (JNum 1) 30 "u" ∅).
  pose (e := {| data := JNum 1; timestamp := 1000; expiresAt := 31000; url := "u" |}).
  assert (Hreach : reachable c) by (apply reach_set, reach_empty).
  assert (Hget : getCachedData 2000 "k" c = (Some e, c)).
  { apply get_fresh; [apply set_lookup | simpl; lia]. }
  destruct (hit_is_fresh c 2000 "k" e c ∅ 1000 0 1000 "k" (JNum 1) "u") as [Hhit Hzero].
  split.
  - split; [exact Hreach|]. split; [exact Hget|].
    exact (proj1 (Hhit Hreach Hget)).
  - split; [lia|]. split; [lia|].
    exact (proj1 (proj2 (proj2 (Hzero ltac:(lia) ltac:(lia))))).
Defined.

End CacheFacts.

(** ** Cache keys and the order of query parameters *)

Module KeyFacts.
Import JS Web Cache.
Local Open Scope list_scope.
Local Open Scope Z_scope.

Section Sorting.

Context {A : Type}.
Variable cmp : A -> A -> Z.
Hypothesis cmp_total : forall a b, cmp a b <= 0 \/ cmp b a <= 0.
Hypothesis cmp_trans : forall a b c, cmp a b <= 0 -> cmp b c <= 0 -> cmp a c <= 0.

Local Abbreviation le := (fun a b => cmp a b <= 0).

Lemma insertBy_permutation x l : Permutation (insertBy cmp x l) (x :: l).
Proof.
  induction l as [|y l IH]; simpl; [reflexivity|].
  destruct (cmp x y <=? 0); [reflexivity|].
  rewrite IH. apply perm_swap.
Qed.

Lemma sortBy_permutation l : Permutation (sortBy cmp l) l.
Proof.
  induction l as [|x l IH]; simpl; [reflexivity|].
  rewrite insertBy_permutation. now constructor.
Qed.

Lemma insertBy_sorted x l :
  StronglySorted le l -> StronglySorted le (insertBy cmp x l).
Proof.
  induction 1 as [|y l Hsorted IH Hall]; simpl.
  - repeat constructor.
  - destruct (Z.leb_spec (cmp x y) 0) as [Hle|Hgt].
    + constructor; [now constructor|]. constructor; [assumption|].
      eapply List.Forall_impl; [|exact Hall]. intros z Hyz. now apply cmp_trans with y.
    + constructor; [assumption|].
      assert (Hyx : cmp y x <= 0) by (destruct (cmp_total x y); [lia | assumption]).
      rewrite List.Forall_forall. intros z Hz.
      apply (Permutation_in _ (insertBy_permutation x l)) in Hz as [<-|Hz]; [assumption|].
      rewrite List.Forall_forall in Hall. now apply Hall.
Qed.

Lemma sortBy_sorted l : StronglySorted le (sortBy cmp l).
Proof.
  induction l as [|x l IH]; simpl; [constructor | now apply insertBy_sorted].
Qed.

(** Two sorted arrangements of the same elements coincide, when the
    comparator ranks no two different elements equal. *)
Lemma sorted_unique l1 : forall l2,
  StronglySorted le l1 -> StronglySorted le l2 -> Permutation l1 l2 ->
  (forall a b, In a l1 -> In b l1 -> cmp a b <= 0 -> cmp b a <= 0 -> a = b) ->
  l1 = l2.
Proof.
  induction l1 as [|x l1 IH]; intros l2 Hs1 Hs2 Hperm Hanti.
  - apply Permutation_nil in Hperm. now subst.
  - destruct l2 as [|y l2]; [apply Permutation_sym, Permutation_nil in Hperm; discriminate|].
    apply StronglySorted_inv in Hs1 as [Hs1 Hx]. apply StronglySorted_inv in Hs2 as [Hs2 Hy].
    rewrite List.Forall_forall in Hx, Hy.
    assert (Hxy : x = y).
    { assert (Hyin : In y (x :: l1)).
      { apply (Permutation_in _ (Permutation_sym Hperm)). now left. }
      assert (Hxin : In x (y :: l2)).
      { apply (Permutation_in _ Hperm). now left. }
      destruct Hyin as [Heq|Hyin]; [assumption|].
      destruct Hxin as [Heq|Hxin]; [now symmetry|].
      apply Hanti; [now left | now right | now apply Hx | now apply Hy]. }
    subst y. f_equal. apply IH; trivial.
    + now apply Permutation_cons_inv with x.
    + intros a b Ha Hb. apply Hanti; now right.
Qed.

Lemma sortBy_order_independent l1 l2 :
  Permutation l1 l2 ->
  (forall a b, In a l1 -> In b l1 -> cmp a b <= 0 -> cmp b a <= 0 -> a = b) ->
  sortBy cmp l1 = sortBy cmp l2.
Proof.
  intros Hperm Hanti. apply sorted_unique; try apply sortBy_sorted.
  - rewrite !sortBy_permutation. assumption.
  - intros a b Ha Hb. apply Hanti; eapply Permutation_in; try apply sortBy_permutation; eassumption.
Qed.

End Sorting.

(** Reordering the query parameters does not change the cache key, when
    the comparator ranks no two of their names equal. *)
Lemma generateCacheKey_order parseURL localeCompare url1 url2 u1 u2 apiKey apiKeyHeader :
  consistentComparator localeCompare ->
  parseURL url1 = Some u1 -> parseURL url2 = Some u2 ->
  origin u2 = origin u1 -> pathname u2 = pathname u1 ->
  Permutation (searchParams u1) (searchParams u2) ->
  distinctNames localeCompare (searchParams u1) ->
  generateCacheKey parseURL localeCompare url2 apiKey apiKeyHeader
  = generateCacheKey parseURL localeCompare url1 apiKey apiKeyHeader.
Proof.
  intros [Htotal Htrans] H1 H2 Ho Hp Hperm Hdistinct.
  unfold generateCacheKey, sortedParams. rewrite H1, H2, Ho, Hp.
  rewrite (sortBy_order_independent (compareEntries localeCompare)
             (fun a b => Htotal (fst a) (fst b))
             (fun a b c => Htrans (fst a) (fst b) (fst c))
             _ _ Hperm Hdistinct).
  reflexivity.
Qed.

Lemma compareCodeUnits_consistent : consistentComparator Sample.compareCodeUnits.
Proof.
  assert (Hgt : forall a b, String_as_OT.compare a b = Gt -> String_as_OT.compare b a = Lt).
  { intros a b H. destruct (String_as_OT.compare_spec a b); try discriminate. assumption. }
  assert (Heq : forall a b, String_as_OT.compare a b = Eq -> a = b).
  { intros a b H. destruct (String_as_OT.compare_spec a b); try discriminate. assumption. }
  assert (Hrefl : forall a, String_as_OT.compare a a = Eq).
  { intros a. destruct (String_as_OT.compare_spec a a) as [_|H|H]; trivial;
      destruct (StrictOrder_Irreflexive (R := String_as_OT.lt) a H). }
  unfold Sample.compareCodeUnits. split.
  - intros a b. destruct (String_as_OT.compare a b) eqn:Hab; try (left; lia).
    right. rewrite (Hgt _ _ Hab). lia.
  - intros a b c Hab Hbc.
    destruct (String_as_OT.compare a b) eqn:Eab; try lia;
      destruct (String_as_OT.compare b c) eqn:Ebc; try lia.
    + apply Heq in Eab, Ebc. subst. rewrite Hrefl. lia.
    + apply Heq in Eab. subst. rewrite Ebc. lia.
    + apply Heq in Ebc. subst. rewrite Eab. lia.
    + pose proof (StrictOrder_Transitive (R := String_as_OT.lt) _ _ _ Eab Ebc) as Hac.
      unfold String_as_OT.lt in Hac. rewrite Hac. lia.
Qed.

End KeyFacts.

(** ** The path resolver *)

Module PathFacts.
Import JS Web Api Sample.

Lemma includes_bracket_split key :
  includes "[" key = true ->
  exists arrayKey indexStr more, split "["%char key = arrayKey :: indexStr :: more.
Proof.
  induction key as [|c rest IH]; cbn [includes startsWith split].
  - discriminate.
  - rewrite andb_true_r, (Ascii.eqb_sym "["%char c).
    destruct (Ascii.eqb c "["%char) eqn:Hc.
    + intros _. destruct (split "["%char rest) as [|p ps] eqn:Hs.
      * destruct rest; cbn [split] in Hs; [discriminate|].
        destruct (Ascii.eqb a "["%char); [discriminate|].
        destruct (split "["%char rest); discriminate.
      * eauto.
    + rewrite orb_false_l. intros Hincl.
      destruct (IH Hincl) as (a & b & more & ->). eauto.
Qed.

(** The guard keeps the fallible operations away from what they fail
    on: a lookup never throws, and gives the member or nothing. *)
Lemma lookup_member key current : lookup key current = inr (memberOf key current).
Proof.
  destruct current as [v|p|holder name]; [|reflexivity..].
  unfold lookup, present, hasProperty, readProperty, memberOf.
  destruct v as [| |b|n|s|items|fields]; cbn [truthy typeofObject andb];
    rewrite ?andb_false_r; try reflexivity.
  - destruct (member key (JArr items)) as [x|] eqn:Hm.
    + rewrite bool_decide_eq_true_2 by eauto. reflexivity.
    + rewrite bool_decide_eq_false_2 by (intros [x Hx]; discriminate). reflexivity.
  - destruct (member key (JObj fields)) as [x|] eqn:Hm.
    + rewrite bool_decide_eq_true_2 by eauto. reflexivity.
    + rewrite bool_decide_eq_false_2 by (intros [x Hx]; discriminate). reflexivity.
Qed.

Lemma memberOf_object name current x : memberOf name current = Some x -> isObject current = true.
Proof.
  destruct current as [v|p|holder m]; [|reflexivity|discriminate].
  destruct v; try reflexivity; discriminate.
Qed.

Lemma resolve_total keys : forall current, exists v, resolve keys current = inr v.
Proof.
  induction keys as [|key rest IH]; intros current; simpl; [eauto|].
  destruct (includes "[" key) eqn:Hb.
  - destruct (includes_bracket_split key Hb) as (arrayKey & indexStr & more & ->).
    rewrite lookup_member. destruct (memberOf arrayKey current) as [next|]; [|eauto].
    destruct (element _ next); eauto.
  - rewrite lookup_member. destruct (memberOf key current) as [next|]; eauto.
Qed.

Lemma resolve_undefined keys : resolve keys (Data JUndefined) = inr (Data JUndefined).
Proof.
  destruct keys as [|key rest]; simpl; [reflexivity|].
  destruct (includes "[" key) eqn:Hb; [|reflexivity].
  destruct (includes_bracket_split key Hb) as (a & b & more & ->). reflexivity.
Qed.

Lemma resolve_app before : forall after root current,
  resolve before root = inr current ->
  resolve (before ++ after) root = resolve after current.
Proof.
  induction before as [|key rest IH]; intros after root current; simpl.
  - now intros [= ->].
  - destruct (includes "[" key) eqn:Hb.
    + destruct (includes_bracket_split key Hb) as (arrayKey & indexStr & more & ->).
      rewrite lookup_member. destruct (memberOf arrayKey root) as [next|].
      * destruct (element _ next);
          try (intros [= <-]; symmetry; apply resolve_undefined); apply IH.
      * intros [= <-]. symmetry. apply resolve_undefined.
    + rewrite lookup_member. destruct (memberOf key root) as [next|]; [apply IH|].
      intros [= <-]. symmetry. apply resolve_undefined.
Qed.

Lemma getIndex_outOfBounds index items :
  outOfBounds index items -> getIndex index items = JUndefined.
Proof.
  destruct index as [|i]; simpl; [reflexivity|].
  intros [Hneg|Hbig].
  - destruct (Z.ltb_spec i 0); [reflexivity | lia].
  - destruct (Z.ltb_spec i 0); [reflexivity|].
    rewrite (proj2 (nth_error_None items (Z.to_nat i))); [reflexivity | lia].
Qed.

(** A segment that names no member of [current] ends the walk with
    [undefined]. *)
Lemma step_absent key rest current :
  memberOf (segmentName key) current = None ->
  resolve (key :: rest) current = inr (Data JUndefined).
Proof.
  unfold segmentName. simpl. destruct (includes "[" key) eqn:Hb.
  - destruct (includes_bracket_split key Hb) as (arrayKey & indexStr & more & ->). simpl.
    intros Hnone. now rewrite lookup_member, Hnone.
  - intros Hnone. now rewrite lookup_member, Hnone.
Qed.

Lemma memberOf_no_object name current : isObject current = false -> memberOf name current = None.
Proof.
  destruct (memberOf name current) as [x|] eqn:Hm; [|reflexivity].
  rewrite (memberOf_object _ _ _ Hm). discriminate.
Qed.

Lemma step_outOfBounds key rest current items index :
  memberOf (segmentName key) current = Some (Data (JArr items)) ->
  segmentIndex key = Some index ->
  outOfBounds index items ->
  resolve (key :: rest) current = inr (Data JUndefined).
Proof.
  unfold segmentName, segmentIndex. simpl. destruct (includes "[" key) eqn:Hb; [|discriminate].
  destruct (includes_bracket_split key Hb) as (arrayKey & indexStr & more & ->). simpl.
  intros Hown [= <-] Hout. rewrite lookup_member, Hown. cbn [element].
  now rewrite (getIndex_outOfBounds _ _ Hout).
Qed.

(** A bracketed segment whose name leads to something that is not an
    array of the data gives [undefined]. *)
Lemma step_not_array key rest current next :
  includes "[" key = true ->
  memberOf (segmentName key) current = Some next ->
  (forall items, next <> Data (JArr items)) ->
  resolve (key :: rest) current = inr (Data JUndefined).
Proof.
  unfold segmentName. simpl. intros Hb. rewrite Hb.
  destruct (includes_bracket_split key Hb) as (arrayKey & indexStr & more & ->). simpl.
  intros Hown Hnot. rewrite lookup_member, Hown.
  destruct next as [[| | | | |items|]| |]; try reflexivity. now destruct (Hnot items).
Qed.

Lemma memberOf_data_object name fields :
  memberOf name (Data (JObj fields)) = None
  <-> assoc name fields = None /\ name <> "__proto__"
      /\ among name objectPrototypeMethods = false.
Proof.
  cbn [memberOf]. unfold member, inherited. cbn [ownProperty prototypeOf prototypeMember].
  destruct (assoc name fields) as [x|]; [split; [discriminate | intros [[=] _]]|].
  destruct (String.eqb_spec name "__proto__") as [->|Hne].
  - split; [discriminate | intros (_ & Hn & _); now destruct Hn].
  - destruct (among name objectPrototypeMethods); split; try discriminate; auto.
    intros (_ & _ & [=]).
Qed.

(** C6.  The data [{a: 1}] has no segment [toString], [valueOf] or
    [__proto__], and the array [[10, 20]] no segment [map]; the walk
    finds them all the same, behind the data, and returns functions where
    the path does not exist. *)
Theorem inherited_member_found :
  ownProperty "toString" (JObj [("a", JNum 1)]) = None
  /\ getNestedValue (JObj [("a", JNum 1)]) "toString"
     = inr (Method ObjectPrototype "toString")
  /\ ownProperty "__proto__" (JObj [("a", JNum 1)]) = None
  /\ getNestedValue (JObj [("a", JNum 1)]) "__proto__.valueOf"
     = inr (Method ObjectPrototype "valueOf")
  /\ ownProperty "map" (JArr [JNum 10; JNum 20]) = None
  /\ getNestedValue (JArr [JNum 10; JNum 20]) "map" = inr (Method ArrayPrototype "map").
Proof. repeat split; reflexivity. Qed.

(** X27.  What [getNestedValue] does find and does not.  The two worked
    examples, a root-level array and a root-level scalar resolve as
    shown; no root and no path make it throw; a key the object owns is
    followed to its value; and once the segments before [key] have led to
    [current], the result is [undefined] as soon as [current] is no
    object, or has no member under the name of [key], own or inherited,
    or has one that is no array of the data while [key] carries an index,
    or has an array there that the index does not reach.  For an object
    of the data, having no member means that the object does not own the
    name and that the name is none of those of [Object.prototype]. *)
Theorem getNestedValue_not_found :
  getNestedValue nestedPayload "a.b[0].c" = inr (Data (JNum 5))
  /\ getNestedValue (JObj [("a", JNum 1)]) "a.b" = inr (Data JUndefined)
  /\ getNestedValue (JArr [JNum 10; JNum 20]) "[1]" = inr (Data JUndefined)
  /\ getNestedValue (JNum 7) "a" = inr (Data JUndefined)
  /\ (forall root path, exists v, getNestedValue root path = inr v)
  /\ (forall fields key x rest,
        includes "[" key = false -> assoc key fields = Some x ->
        resolve (key :: rest) (JObj fields) = resolve rest x)
  /\ (forall root path before key after current,
        split "."%char path = (before ++ key :: after)%list ->
        resolve before root = inr current ->
        (isObject current = false
         \/ memberOf (segmentName key) current = None
         \/ (exists next,
               includes "[" key = true
               /\ memberOf (segmentName key) current = Some next
               /\ forall items, next <> Data (JArr items))
         \/ exists items index,
              memberOf (segmentName key) current = Some (Data (JArr items))
              /\ segmentIndex key = Some index
              /\ outOfBounds index items) ->
        getNestedValue root path = inr (Data JUndefined))
  /\ (forall name fields,
        memberOf name (Data (JObj fields)) = None
        <-> assoc name fields = None /\ name <> "__proto__"
            /\ among name objectPrototypeMethods = false).
Proof.
  do 4 (split; [reflexivity|]).
  split; [intros root path; apply resolve_total|].
  split.
  { intros fields key x rest Hb Hassoc. cbn [resolve]. rewrite Hb, lookup_member.
    cbn [memberOf]. unfold member. cbn [ownProperty]. now rewrite Hassoc. }
  split; [|intros name fields; apply memberOf_data_object].
  intros root path before key after current Hsplit Hbefore Hfail.
  unfold getNestedValue. rewrite Hsplit, (resolve_app _ _ _ _ Hbefore).
  destruct Hfail as [Hprim|[Habsent|[(next & Hb & Hown & Hnot)
                                    |(items & index & Hown & Hidx & Hout)]]].
  - apply step_absent, memberOf_no_object, Hprim.
  - apply step_absent, Habsent.
  - eapply step_not_array; eassumption.
  - eapply step_outOfBounds; eassumption.
Qed.

Lemma getNestedValue_not_found_witness :
  (split "."%char "a.b[3].c" = (["a"] ++ "b[3]" :: ["c"])%list
   /\ resolve ["a"] nestedPayload = inr (Data (JObj [("b", JArr [JObj [("c", JNum 5)]])]))
   /\ outOfBounds (Int 3) [JObj [("c", JNum 5)]])
  /\ getNestedValue nestedPayload "a.b[3].c" = inr (Data JUndefined).
Proof.
  assert (H1 : split "."%char "a.b[3].c" = (["a"] ++ "b[3]" :: ["c"])%list) by reflexivity.
  assert (H2 : resolve ["a"] nestedPayload
               = inr (Data (JObj [("b", JArr [JObj [("c", JNum 5)]])])))
    by reflexivity.
  assert (H3 : outOfBounds (Int 3) [JObj [("c", JNum 5)]]) by (simpl; lia).
  split; [auto|].
  destruct getNestedValue_not_found as (_ & _ & _ & _ & _ & _ & Hnot & _).
  apply (Hnot nestedPayload "a.b[3].c" ["a"] "b[3]" ["c"] _ H1 H2).
  right. right. right. exists [JObj [("c", JNum 5)]], (Int 3). auto.
Defined.

End PathFacts.

(** ** The currency scan *)

Module CurrencyFacts.
Import JS Currency Sample.

(** Induction on values that reaches into arrays and objects. *)
Lemma JSValue_nested_ind (P : JSValue -> Prop) :
  P JUndefined -> P JNull ->
  (forall b, P (JBool b)) -> (forall n, P (JNum n)) -> (forall s, P (JStr s)) ->
  (forall items, Forall P items -> P (JArr items)) ->
  (forall fields, Forall (fun kv => P (snd kv)) fields -> P (JObj fields)) ->
  forall v, P v.
Proof.
  intros Hundef Hnull Hbool Hnum Hstr Harr Hobj. fix IH 1.
  intros [| |b|n|s|items|fields];
    [exact Hundef | exact Hnull | apply Hbool | apply Hnum | apply Hstr | |].
  - apply Harr. revert items. fix IHitems 1.
    intros [|x xs]; constructor; [apply IH | apply IHitems].
  - apply Hobj. revert fields. fix IHfields 1.
    intros [|[k x] xs]; constructor; [apply IH | apply IHfields].
Qed.

Lemma firstMatch_app l1 l2 :
  firstMatch (l1 ++ l2)
  = match firstMatch l1 with Some found => Some found | None => firstMatch l2 end.
Proof.
  induction l1 as [|x l1 IH]; simpl; [reflexivity|].
  destruct (matchField _ _ _); [reflexivity | exact IH].
Qed.

Lemma visits_object_cons k v rest path maxDepth d :
  d <= maxDepth ->
  visits (JObj ((k, v) :: rest)) path maxDepth d
  = (mkVisit d path k v
     :: match v with
        | JObj _ => visits v (childPath path k) maxDepth (d + 1)
        | _ => []
        end
     ++ visits (JObj rest) path maxDepth d)%list.
Proof.
  intros Hd. cbn [visits]. destruct (Z.gtb_spec d maxDepth); [lia | reflexivity].
Qed.

Lemma find_object_cons k v rest path maxDepth d :
  d <= maxDepth ->
  findCurrencyInObject (JObj ((k, v) :: rest)) path maxDepth d
  = match matchField path k v with
    | Some found => Some found
    | None =>
        match match v with
              | JObj _ => findCurrencyInObject v (childPath path k) maxDepth (d + 1)
              | _ => None
              end with
        | Some found => Some found
        | None => findCurrencyInObject (JObj rest) path maxDepth d
        end
    end.
Proof.
  intros Hd. cbn [findCurrencyInObject]. destruct (Z.gtb_spec d maxDepth); [lia|].
  destruct (matchField path k v); [reflexivity|]. destruct v; reflexivity.
Qed.

Lemma beyond_depth obj path maxDepth d :
  maxDepth < d ->
  findCurrencyInObject obj path maxDepth d = None /\ visits obj path maxDepth d = [].
Proof.
  intros Hd. destruct obj; cbn [findCurrencyInObject visits];
    destruct (Z.gtb_spec d maxDepth); (lia || auto).
Qed.

(** The early-return recursion of the source finds exactly the first
    match of its own visiting order. *)
Lemma find_is_first_visit maxDepth obj :
  forall path d,
    findCurrencyInObject obj path maxDepth d = firstMatch (visits obj path maxDepth d).
Proof.
  induction obj as [| | b | n | s | items IH | fields IH] using JSValue_nested_ind;
    intros path d;
    (destruct (Z.le_gt_cases d maxDepth) as [Hd|Hd];
     [|match goal with
       | |- findCurrencyInObject ?o _ _ _ = _ =>
           destruct (beyond_depth o path maxDepth d ltac:(lia)) as [-> ->]
       end; reflexivity]);
    try (cbn [findCurrencyInObject visits]; destruct (d >? maxDepth); reflexivity).
  - destruct IH as [|first rest Hfirst _];
      cbn [findCurrencyInObject visits]; destruct (d >? maxDepth); try reflexivity.
    apply Hfirst.
  - induction IH as [|[k v] rest Hv _ IHrest].
    + cbn [findCurrencyInObject visits]. destruct (d >? maxDepth); reflexivity.
    + rewrite find_object_cons, visits_object_cons by assumption.
      cbn [firstMatch location key value snd] in *.
      destruct (matchField path k v); [reflexivity|].
      rewrite firstMatch_app, IHrest.
      destruct v; try reflexivity. now rewrite Hv.
Qed.

Lemma visits_depth maxDepth obj :
  forall path d x, In x (visits obj path maxDepth d) -> d <= depth x <= maxDepth.
Proof.
  induction obj as [| | b | n | s | items IH | fields IH] using JSValue_nested_ind;
    intros path d x;
    (destruct (Z.le_gt_cases d maxDepth) as [Hd|Hd];
     [|match goal with
       | |- In _ (visits ?o _ _ _) -> _ =>
           destruct (beyond_depth o path maxDepth d ltac:(lia)) as [_ ->]
       end; intros []]);
    try (cbn [visits]; destruct (d >? maxDepth); intros []).
  - destruct IH as [|first rest Hfirst _];
      cbn [visits]; destruct (d >? maxDepth); try (intros []).
    intros Hin. apply Hfirst in Hin. lia.
  - induction IH as [|[k v] rest Hv _ IHrest].
    + cbn [visits]. destruct (d >? maxDepth); intros [].
    + rewrite visits_object_cons by assumption. cbn [snd] in Hv.
      intros [<-|Hin]; [simpl; lia|].
      apply in_app_or in Hin as [Hin|Hin]; [|exact (IHrest Hin)].
      destruct v; try destruct Hin. apply Hv in Hin. lia.
Qed.

(** C7, as the code has it.  The worked example holds.  The scan inspects
    keys of objects at depths 0 to 5 only, and returns the first match in
    its visiting order, which is depth-first in key order: a key itself,
    then at once the object nested under it, then the later keys; an array
    is entered through its first element, and only when the scanned value
    itself is the array.  When the root scan finds nothing, the scan is
    retried at the [data] sub-property and then at the first element of a
    root-level array, and only then is the result [null]. *)
Theorem detectCurrency_depth_first :
  detectCurrency quotePayload
  = Some {| code := "USD"; symbol := "$"; path := "quote.currency" |}
  /\ (forall obj path d,
        findCurrencyInObject obj path 5 d = firstMatch (visits obj path 5 d))
  /\ (forall obj path x, In x (visits obj path 5 0) -> 0 <= depth x <= 5)
  /\ (forall k v rest path d, d <= 5 ->
        visits (JObj ((k, v) :: rest)) path 5 d
        = (mkVisit d path k v
           :: match v with
              | JObj _ => visits v (childPath path k) 5 (d + 1)
              | _ => []
              end
           ++ visits (JObj rest) path 5 d)%list)
  /\ (forall first rest path d, d <= 5 ->
        visits (JArr (first :: rest)) path 5 d = visits first path 5 (d + 1))
  /\ (forall payload,
        isArray payload = true \/ (exists fields, payload = JObj fields) ->
        let inner := getProp "data" payload in
        let nested :=
          if truthy inner && typeofObject inner
          then findCurrencyInObject inner "data" 5 0 else None in
        let element :=
          match payload with
          | JArr (first :: _) => findCurrencyInObject first "[0]" 5 0
          | _ => None
          end in
        (forall r, findCurrencyInObject payload "" 5 0 = Some r ->
                   detectCurrency payload = Some r)
        /\ (findCurrencyInObject payload "" 5 0 = None ->
            (forall r, nested = Some r -> detectCurrency payload = Some r)
            /\ (nested = None -> detectCurrency payload = element))).
Proof.
  split; [reflexivity|].
  split; [intros; apply find_is_first_visit|].
  split; [intros obj path x; apply visits_depth|].
  split; [intros; now apply visits_object_cons|].
  split.
  { intros first rest path d Hd. cbn [visits].
    destruct (Z.gtb_spec d 5); [lia | reflexivity]. }
  intros payload Hshape inner nested element.
  assert (Hgate : negb (truthy payload) || negb (typeofObject payload) = false).
  { destruct Hshape as [Harr|[fields ->]]; [destruct payload; try discriminate|]; reflexivity. }
  unfold detectCurrency. rewrite Hgate. fold inner. fold nested. fold element.
  split.
  - intros r ->. reflexivity.
  - intros ->. split.
    + intros r ->. reflexivity.
    + intros ->. reflexivity.
Qed.

Lemma detectCurrency_depth_first_witness :
  In (mkVisit 1 "quote" "currency" (JStr "USD")) (visits quotePayload "" 5 0)
  /\ 0 <= 1 <= 5.
Proof.
  assert (Hin : In (mkVisit 1 "quote" "currency" (JStr "USD")) (visits quotePayload "" 5 0)).
  { simpl. right. left. reflexivity. }
  split; [exact Hin|].
  exact (proj1 (proj2 (proj2 detectCurrency_depth_first)) quotePayload "" _ Hin).
Defined.

(** C7 as the specification words it fails: a matching own key of the root
    loses to a match nested under an earlier key, and a currency inside an
    array stored under a key is not found at all. *)
Lemma own_key_does_not_win :
  ownKeyMatch shadowedPayload ""
  = Some {| code := "USD"; symbol := "$"; path := "currency" |}
  /\ detectCurrency shadowedPayload
     = Some {| code := "EUR"; symbol := "€"; path := "a.currency" |}
  /\ detectCurrency listedPayload = None.
Proof. repeat split; reflexivity. Qed.

End CurrencyFacts.

(** ** The fetch orchestrator *)

Module FetchFacts.
Import JS Web Api.
Local Open Scope list_scope.
Local Open Scope Z_scope.

Ltac break_match :=
  match goal with
  | |- context [match ?x with _ => _ end] =>
      lazymatch x with
      | context [match _ with _ => _ end] => fail
      | _ => destruct x eqn:?
      end
  end.

Ltac break_in H :=
  match type of H with
  | context [match ?x with _ => _ end] =>
      lazymatch x with
      | context [match _ with _ => _ end] => fail
      | _ => destruct x eqn:?
      end
  end.

Ltac bools :=
  repeat match goal with
         | H : (_ && _)%bool = true |- _ => apply andb_true_iff in H as [? ?]
         | H : (_ <? _)%Z = true |- _ => apply Z.ltb_lt in H
         | H : (_ <? _)%Z = false |- _ => apply Z.ltb_ge in H
         | H : (_ <=? _)%Z = true |- _ => apply Z.leb_le in H
         | H : (_ <=? _)%Z = false |- _ => apply Z.leb_gt in H
         | H : (_ =? _)%Z = true |- _ => apply Z.eqb_eq in H
         | H : (_ =? _)%Z = false |- _ => apply Z.eqb_neq in H
         | H : negb _ = true |- _ => apply negb_true_iff in H
         | H : negb _ = false |- _ => apply negb_false_iff in H
         end.

Section Calls.

Variable parseURL : string -> option URL.
Variable localeCompare : string -> string -> Z.
Variable network : Z -> list Event -> Request -> NetResult.
Variable typeErrorMessage : Fault -> string.
Variable url : string.
Variables apiKey apiKeyHeader : option string.
Variable maxRetries : Z.
Variable useProxy : bool.
Variable cacheTTL : option Z.
Variable bypassCache : bool.

Local Abbreviation key := (cacheKey parseURL localeCompare url apiKey apiKeyHeader).
Local Abbreviation req := (request url apiKey apiKeyHeader useProxy).
Local Abbreviation fallback := (fallbackRequest url apiKey apiKeyHeader).
Local Abbreviation check_cache :=
  (checkCache parseURL localeCompare url apiKey apiKeyHeader cacheTTL bypassCache).
Local Abbreviation check_limit := (checkRateLimit parseURL typeErrorMessage url).
Local Abbreviation not_ok := (onNotOk parseURL typeErrorMessage url maxRetries).
Local Abbreviation limited := (onRateLimited parseURL typeErrorMessage url maxRetries).
Local Abbreviation on_ok :=
  (onOk parseURL localeCompare typeErrorMessage url apiKey apiKeyHeader useProxy cacheTTL).
Local Abbreviation try_once :=
  (attempt parseURL localeCompare network typeErrorMessage url apiKey apiKeyHeader
           maxRetries useProxy cacheTTL bypassCache).
Local Abbreviation via_proxy :=
  (proxyFallback parseURL localeCompare network typeErrorMessage url apiKey apiKeyHeader
                 cacheTTL).
Local Abbreviation on_error :=
  (handleError parseURL localeCompare network typeErrorMessage url apiKey apiKeyHeader
               useProxy cacheTTL).
Local Abbreviation run_fuel :=
  (fetchApiData_fuel parseURL localeCompare network typeErrorMessage url apiKey
                     apiKeyHeader maxRetries useProxy cacheTTL bypassCache).
Local Abbreviation reaches :=
  (reachesNetwork parseURL localeCompare typeErrorMessage url apiKey apiKeyHeader
                  cacheTTL bypassCache).
Local Abbreviation run :=
  (fetchApiData parseURL localeCompare network typeErrorMessage url apiKey apiKeyHeader).
Local Abbreviation keep := (store parseURL localeCompare url apiKey apiKeyHeader cacheTTL).
Local Abbreviation drop := (invalidate parseURL localeCompare url apiKey apiKeyHeader cacheTTL).

(** The response of a cache hit. *)
Lemma checkCache_inv w res w1 :
  check_cache w = (res, w1) ->
  trace w1 = trace w /\ clock w1 = clock w /\ rateLimitCache w1 = rateLimitCache w
  /\ ((exists entry,
         res = inr (Some {| data := Cache.data entry; error := None;
                            timestamp := Cache.timestamp entry;
                            fromCache := Some true;
                            cacheAge := Some ((clock w - Cache.timestamp entry) / 1000) |})
         /\ w1 = w /\ bypassCache = false /\ caching cacheTTL = true
         /\ responseCache w !! key = Some entry /\ clock w < Cache.expiresAt entry)
      \/ (res = inr None
          /\ (bypassCache = true \/ caching cacheTTL = false -> w1 = w)
          /\ (bypassCache = false -> caching cacheTTL = true ->
              responseCache w1 !! key = None))).
Proof.
  unfold checkCache.
  destruct (negb bypassCache && caching cacheTTL) eqn:Hon.
  - apply andb_true_iff in Hon as [Hb%negb_true_iff Hc].
    unfold bind, getCachedData, getCacheAge, ret, Cache.getCachedData, Cache.getCacheAge.
    destruct (responseCache w !! key) as [entry|] eqn:Hlook; simpl.
    + destruct (Z.geb_spec (clock w) (Cache.expiresAt entry)); simpl.
      * intros [= <- <-]. do 3 (split; [reflexivity|]). right.
        split; [reflexivity|]. split; [intros [?|?]; congruence|].
        intros _ _. apply lookup_delete_eq.
      * rewrite Hlook. destruct (Z.geb_spec (clock w) (Cache.expiresAt entry)); [lia|].
        intros [= <- <-]. do 3 (split; [reflexivity|]). left. exists entry.
        destruct w; simpl in *. repeat split; trivial.
    + intros [= <- <-]. do 3 (split; [reflexivity|]). right.
      split; [reflexivity|]. split; [intros _; destruct w; reflexivity|].
      intros _ _. assumption.
  - intros [= <- <-]. do 3 (split; [reflexivity|]). right.
    split; [reflexivity|]. split; [reflexivity|].
    apply andb_false_iff in Hon as [Hb%negb_false_iff|Hc]; intros; congruence.
Qed.

Lemma checkRateLimit_inv w1 res w2 :
  check_limit w1 = (res, w2) ->
  trace w2 = trace w1 /\ clock w2 = clock w1 /\ responseCache w2 = responseCache w1
  /\ ((parseURL url = None /\ res = inl (mkExn true (typeErrorMessage InvalidURL)) /\ w2 = w1)
      \/ (exists u c reset,
            parseURL url = Some u
            /\ rateLimitCache w1 !! origin u = Some (mkLimit c (Int reset))
            /\ clock w1 < reset /\ res = inr (Some reset) /\ w2 = w1)
      \/ (exists u,
            parseURL url = Some u /\ res = inr None
            /\ ((exists c reset,
                   rateLimitCache w1 !! origin u = Some (mkLimit c (Int reset))
                   /\ reset <= clock w1
                   /\ w2 = setRateLimitCache (delete (origin u) (rateLimitCache w1)) w1)
                \/ (w2 = w1
                    /\ (rateLimitCache w1 !! origin u = None
                        \/ exists c, rateLimitCache w1 !! origin u = Some (mkLimit c NaN)))))).
Proof.
  unfold checkRateLimit.
  destruct (parseURL url) as [u|] eqn:Hu.
  - destruct (rateLimitCache w1 !! origin u) as [[c [|reset]]|] eqn:Hlook; simpl.
    + intros [= <- <-]. do 3 (split; [reflexivity|]). right. right. exists u. eauto 10.
    + destruct (Z.ltb_spec (clock w1) reset); intros [= <- <-];
        do 3 (split; [reflexivity|]); right.
      * left. exists u, c, reset. auto.
      * right. exists u. split; [reflexivity|]. split; [reflexivity|]. left. eauto.
    + intros [= <- <-]. do 3 (split; [reflexivity|]). right. right. exists u. eauto 10.
  - intros [= <- <-]. do 3 (split; [reflexivity|]). left. auto.
Qed.

Lemma fetch_inv r w res w' :
  fetch network r w = (res, w') ->
  exists latency,
    w' = arrived r latency w
    /\ ((exists e, res = inl e /\ network (clock w) (trace w) r = NetError e latency)
        \/ (exists response,
              res = inr response
              /\ network (clock w) (trace w) r = NetResponse response latency)).
Proof.
  unfold fetch. destruct (network (clock w) (trace w) r) as [e lat|response lat];
    intros [= <- <-]; exists lat; eauto 10.
Qed.

Lemma timerDelay_nonneg ms : 0 <= timerDelay ms.
Proof. unfold timerDelay. lia. Qed.

(** A delay that fits 31 bits is waited for in full; a negative one that
    fits is not waited for at all. *)
Lemma timerDelay_small ms : 0 <= ms < 2147483648 -> timerDelay ms = ms.
Proof. intros H. unfold timerDelay. rewrite Z.mod_small by lia. lia. Qed.

Lemma timerDelay_negative ms : -2147483648 <= ms <= 0 -> timerDelay ms = 0.
Proof. intros H. unfold timerDelay. rewrite Z.mod_small by lia. lia. Qed.

(** A response that is not [ok] either makes the call retry, after one
    timer wait and with budget left, or throws; the response cache is not
    touched. *)
Lemma onNotOk_inv rc response w res w' :
  not_ok rc response w = (res, w') ->
  responseCache w' = responseCache w
  /\ ((res = inr Retry /\ rc < maxRetries
       /\ exists ms, trace w' = (trace w ++ [EvSleep ms])%list /\ clock w' = clock w + timerDelay ms)
      \/ (exists e, res = inl e /\ trace w' = trace w /\ clock w' = clock w)).
Proof.
  unfold onNotOk, onRateLimited, bind, now, recordRateLimit, sleep, throwError, throw, ret.
  repeat break_match; intros [= <- <-]; subst; simpl; bools;
    (split; [reflexivity|]); try (right; eexists; split; [reflexivity|]; split; reflexivity);
    left; (split; [reflexivity|]); (split; [assumption|]); eexists; split; reflexivity.
Qed.

Lemma keep_world d w :
  keep d w
  = (inr tt,
     if caching cacheTTL
     then setResponseCache
            (Cache.setCachedData (clock w) key d (default 0 cacheTTL) url (responseCache w)) w
     else w).
Proof. unfold store, when, setCachedData, ret. now destruct (caching cacheTTL). Qed.

Lemma drop_world w :
  drop w
  = (inr tt,
     if caching cacheTTL
     then setResponseCache (delete key (responseCache w)) w
     else w).
Proof. unfold invalidate, when, invalidateCache, ret. now destruct (caching cacheTTL). Qed.

Lemma success_run d w :
  success parseURL localeCompare url apiKey apiKeyHeader cacheTTL d w
  = (inr (Done (fresh d (clock w))), snd (keep d w)).
Proof.
  unfold success, bind, now, ret. rewrite keep_world. reflexivity.
Qed.

Lemma keep_frame d w :
  trace (snd (keep d w)) = trace w /\ clock (snd (keep d w)) = clock w
  /\ rateLimitCache (snd (keep d w)) = rateLimitCache w.
Proof. rewrite keep_world. simpl. now destruct (caching cacheTTL). Qed.

Lemma drop_frame w :
  trace (snd (drop w)) = trace w /\ clock (snd (drop w)) = clock w
  /\ rateLimitCache (snd (drop w)) = rateLimitCache w.
Proof. rewrite drop_world. simpl. now destruct (caching cacheTTL). Qed.

(** An [ok] response ends the call: with a fresh result that has been
    stored, or with a throw, before which at most the entry of this call
    was dropped. *)
Lemma onOk_inv response w res w' :
  on_ok response w = (res, w') ->
  trace w' = trace w /\ clock w' = clock w /\ rateLimitCache w' = rateLimitCache w
  /\ ((exists d, res = inr (Done (fresh d (clock w))) /\ w' = snd (keep d w))
      \/ (exists e, res = inl e /\ (w' = w \/ w' = snd (drop w)))).
Proof.
  intros H.
  unfold onOk, onSoftError, bind, throwError, throwTypeError, throw in H.
  repeat first [ rewrite success_run in H
               | rewrite drop_world in H
               | progress cbn beta iota in H
               | break_in H ].
  all: injection H as <- <-.
  all: try match goal with
           | |- context [keep ?d ?w0] => destruct (keep_frame d w0) as (-> & -> & ->)
           end.
  all: rewrite ?drop_world; cbn [snd];
       try match goal with Hc : caching cacheTTL = _ |- _ => rewrite Hc end.
  all: do 3 (split; [reflexivity|]).
  all: first [ left; eexists; split; reflexivity
             | right; eexists; split; [reflexivity|]; auto ].
Qed.

(** The ways one run of the [try] block can go. *)
Lemma attempt_inv rc w res w' :
  try_once rc w = (res, w') ->
  (exists r, check_cache w = (inr (Some r), w') /\ res = inr (Done r))
  \/ (exists w1 e,
        check_cache w = (inr None, w1) /\ check_limit w1 = (inl e, w') /\ res = inl e)
  \/ (exists w1 reset,
        check_cache w = (inr None, w1) /\ check_limit w1 = (inr (Some reset), w')
        /\ res = inr (Done (failed (rateLimitedMessage (ceilSeconds (reset - clock w')))
                                   (clock w'))))
  \/ (exists w2 e latency,
        reaches w w2 /\ network (clock w2) (trace w2) req = NetError e latency
        /\ res = inl e /\ w' = arrived req latency w2)
  \/ (exists w2 response latency,
        reaches w w2 /\ network (clock w2) (trace w2) req = NetResponse response latency
        /\ (if negb (ok response) then not_ok rc response else on_ok response)
             (arrived req latency w2) = (res, w')).
Proof.
  intros H. unfold attempt, bind in H. cbn beta in H.
  destruct (check_cache w) as [[e|[r|]] w1] eqn:Hcache.
  - apply checkCache_inv in Hcache as (_ & _ & _ & [(? & ? & _)|(? & _)]); discriminate.
  - injection H as <- <-. left. eauto.
  - destruct (check_limit w1) as [[e|[reset|]] w2] eqn:Hlimit.
    + injection H as <- <-. right. left. eauto.
    + unfold now, ret in H. injection H as <- <-. right. right. left. eauto.
    + assert (Hreach : reaches w w2) by (exists w1; auto).
      unfold fetch in H.
      destruct (network (clock w2) (trace w2) req) as [e lat|response lat] eqn:Hnet.
      * injection H as <- <-. do 3 right. left. eauto 10.
      * do 4 right. eauto 10.
Qed.

Lemma proxyFallback_inv w res w' :
  via_proxy w = (res, w') ->
  exists latency,
    let w1 := arrived fallback latency w in
    trace w' = trace w1 /\ clock w' = clock w1 /\ rateLimitCache w' = rateLimitCache w
    /\ match delivered (network (clock w) (trace w) fallback) with
       | Some d => res = inr (fresh d (clock w1)) /\ w' = snd (keep d w1)
       | None => exists e, res = inl e /\ (w' = w1 \/ w' = snd (drop w1))
       end.
Proof.
  intros H. unfold proxyFallback, bind, fetch, json, throwError, throwTypeError, throw, now, ret in H.
  cbn beta in H. unfold delivered.
  destruct (network (clock w) (trace w) fallback) as [e lat|response lat] eqn:Hnet;
    exists lat; cbn zeta.
  - injection H as <- <-. do 3 (split; [reflexivity|]). eauto.
  - destruct (ok response) eqn:Hok; cbn [negb] in H.
    all: repeat first [ rewrite keep_world in H
                 | rewrite drop_world in H
                 | progress cbn beta iota in H
                 | break_in H ].
    all: injection H as <- <-.
    all: try match goal with
             | |- context [keep ?d ?w0] => destruct (keep_frame d w0) as (-> & -> & ->)
             end.
    all: rewrite ?drop_world, ?keep_world; cbn [snd negb];
         try match goal with Hc : caching cacheTTL = _ |- _ => rewrite Hc end.
    all: do 3 (split; [reflexivity|]).
    all: eauto.
    all: split; [reflexivity|]; rewrite keep_world; cbn [snd];
         try match goal with Hc : caching cacheTTL = _ |- _ => rewrite Hc end; reflexivity.
Qed.

Lemma reaches_frame w w2 :
  reaches w w2 -> trace w2 = trace w /\ clock w2 = clock w.
Proof.
  intros (w1 & Hc & Hl).
  apply checkCache_inv in Hc as (Ht1 & Hc1 & _).
  apply checkRateLimit_inv in Hl as (Ht2 & Hc2 & _).
  split; congruence.
Qed.

Lemma keep_lookup d w ttl :
  cacheTTL = Some ttl -> 0 < ttl ->
  responseCache (snd (keep d w)) !! key
  = Some {| Cache.data := d; Cache.timestamp := clock w;
            Cache.expiresAt := clock w + ttl * 1000; Cache.url := url |}.
Proof.
  intros Hsome Httl. rewrite keep_world. unfold caching. rewrite Hsome.
  destruct (Z.ltb_spec 0 ttl); [|lia]. simpl. apply lookup_insert_eq.
Qed.

Lemma drop_lookup w :
  caching cacheTTL = true -> responseCache (snd (drop w)) !! key = None.
Proof. intros Hc. rewrite drop_world, Hc. simpl. apply lookup_delete_eq. Qed.

Lemma attempt_Done rc w r w' :
  try_once rc w = (inr (Done r), w') ->
  check_cache w = (inr (Some r), w')
  \/ (exists w1 reset,
        check_cache w = (inr None, w1) /\ check_limit w1 = (inr (Some reset), w')
        /\ r = failed (rateLimitedMessage (ceilSeconds (reset - clock w'))) (clock w'))
  \/ (exists d w2 latency,
        reaches w w2 /\ r = fresh d (clock w')
        /\ w' = snd (keep d (arrived req latency w2))).
Proof.
  intros H. apply attempt_inv in H
    as [(r0 & Hc & [= <-])|[(w1 & e & _ & _ & [=])|[(w1 & reset & Hc & Hl & [= ->])
       |[(w2 & e & lat & _ & _ & [=] & _)|(w2 & response & lat & Hreach & Hnet & H)]]]].
  - left. assumption.
  - right. left. eauto.
  - right. right. destruct (negb (ok response)).
    + apply onNotOk_inv in H as (_ & [([=] & _)|(e & [=] & _)]).
    + apply onOk_inv in H as (_ & Hclock & _ & [(d & [= ->] & ->)|(e & [=] & _)]).
      exists d, w2, lat. rewrite <- Hclock at 1. auto.
Qed.

Lemma attempt_Retry rc w w1 :
  try_once rc w = (inr Retry, w1) ->
  rc < maxRetries
  /\ exists w2 ms,
       reaches w w2
       /\ trace w1 = (trace w ++ [EvFetch req; EvSleep ms])%list
       /\ clock w <= clock w1
       /\ responseCache w1 = responseCache w2.
Proof.
  intros H. apply attempt_inv in H
    as [(r0 & _ & [=])|[(w0 & e & _ & _ & [=])|[(w0 & reset & _ & _ & [=])
       |[(w2 & e & lat & _ & _ & [=] & _)|(w2 & response & lat & Hreach & Hnet & H)]]]].
  destruct (reaches_frame _ _ Hreach) as [Ht Hc].
  destruct (negb (ok response)).
  - apply onNotOk_inv in H as (Hcache & [(_ & Hlt & ms & Htr & Hcl)|(e & [=] & _)]).
    split; [assumption|]. exists w2, ms. split; [assumption|].
    pose proof (timerDelay_nonneg ms) as Hdelay.
    simpl in *. rewrite Htr, Hcl, Ht, Hc, <- app_assoc. simpl.
    repeat split; trivial; lia.
  - apply onOk_inv in H as (_ & _ & _ & [(d & [=] & _)|(e & [=] & _)]).
Qed.

Lemma attempt_throw rc w e w1 :
  try_once rc w = (inl e, w1) ->
  (exists w0, check_cache w = (inr None, w0) /\ check_limit w0 = (inl e, w1))
  \/ (trace w1 = (trace w ++ [EvFetch req])%list /\ clock w <= clock w1
      /\ exists w2, reaches w w2).
Proof.
  intros H. apply attempt_inv in H
    as [(r0 & _ & [=])|[(w0 & e0 & Hc & Hl & [= <-])|[(w0 & reset & _ & _ & [=])
       |[(w2 & e0 & lat & Hreach & _ & _ & ->)|(w2 & response & lat & Hreach & Hnet & H)]]]].
  - left. eauto.
  - destruct (reaches_frame _ _ Hreach) as [Ht Hc]. right. simpl. rewrite Ht, Hc.
    split; [reflexivity|]. split; [lia | eauto].
  - destruct (reaches_frame _ _ Hreach) as [Ht Hc]. right.
    assert (Hframe : trace w1 = trace (arrived req lat w2)
                     /\ clock w1 = clock (arrived req lat w2)).
    { destruct (negb (ok response)).
      - apply onNotOk_inv in H as (_ & [([=] & _)|(e1 & _ & ? & ?)]). auto.
      - apply onOk_inv in H as (? & ? & _). auto. }
    destruct Hframe as [-> ->]. simpl. rewrite Ht, Hc.
    split; [reflexivity|]. split; [lia | eauto].
Qed.

Lemma reaches_functional w w2 o w1 :
  reaches w w2 -> check_cache w = (inr o, w1) ->
  o = None /\ check_limit w1 = (inr None, w2).
Proof. intros (w0 & Hc & Hl) Hc'. rewrite Hc in Hc'. injection Hc' as <- <-. auto. Qed.

(** What the [catch] block does with a thrown error. *)
Lemma handleError_inv e w r w' :
  on_error e w = (r, w') ->
  (isTypeError e && includes "fetch" (message e) && negb useProxy = true
   /\ exists latency,
        let w1 := arrived fallback latency w in
        trace w' = trace w1 /\ clock w' = clock w1
        /\ match delivered (network (clock w) (trace w) fallback) with
           | Some d => r = fresh d (clock w') /\ w' = snd (keep d w1)
           | None => r = failed corsMessage (clock w') /\ (w' = w1 \/ w' = snd (drop w1))
           end)
  \/ (isTypeError e && includes "fetch" (message e) && negb useProxy = false
      /\ r = failed (message e) (clock w) /\ w' = snd (drop w)).
Proof.
  unfold handleError.
  destruct (isTypeError e && includes "fetch" (message e) && negb useProxy).
  - intros H. left. split; [reflexivity|].
    destruct (via_proxy w) as [res wp] eqn:Hp.
    apply proxyFallback_inv in Hp as (lat & Ht & Hc & _ & Hd). exists lat. cbn zeta in *.
    destruct (delivered _) as [d|].
    + destruct Hd as [-> ->]. injection H as <- <-.
      destruct (keep_frame d (arrived fallback lat w)) as (Hkt & Hkc & _).
      rewrite Hkc. auto.
    + destruct Hd as (e0 & -> & Hw). unfold failure in H. injection H as <- <-. auto.
  - intros H. right. split; [reflexivity|]. unfold failure in H.
    injection H as <- <-. destruct (drop_frame w) as (_ & -> & _). auto.
Qed.

Lemma run_fuel_ind (P : Z -> World -> ApiResponse -> World -> Prop) :
  (forall rc w r w', try_once rc w = (inr (Done r), w') -> P rc w r w') ->
  (forall rc w e w1 r w',
      try_once rc w = (inl e, w1) -> on_error e w1 = (r, w') -> P rc w r w') ->
  (forall rc w w1 r w',
      try_once rc w = (inr Retry, w1) -> P (rc + 1) w1 r w' -> P rc w r w') ->
  forall fuel rc w r w', run_fuel fuel rc w = Some (r, w') -> P rc w r w'.
Proof.
  intros Hdone Hthrow Hretry. induction fuel as [|fuel IH]; intros rc w r w'; simpl.
  - discriminate.
  - destruct (try_once rc w) as [[e|[r0|]] w1] eqn:Htry.
    + destruct (on_error e w1) as [r1 w2] eqn:Herr. intros [= <- <-]. eauto.
    + intros [= <- <-]. eauto.
    + intros Hrec. eauto.
Qed.

(** Enough fuel always gives a result, and more fuel the same one. *)
Lemma fuel_enough fuel : forall rc w,
  (Z.to_nat (maxRetries - rc) < fuel)%nat -> is_Some (run_fuel fuel rc w).
Proof.
  induction fuel as [|fuel IH]; intros rc w Hfuel; [lia|]. simpl.
  destruct (try_once rc w) as [[e|[r0|]] w1] eqn:Htry; eauto.
  apply attempt_Retry in Htry as [Hlt _]. apply IH. lia.
Qed.

Lemma fuel_more fuel : forall extra rc w r w',
  run_fuel fuel rc w = Some (r, w') -> run_fuel (fuel + extra) rc w = Some (r, w').
Proof.
  induction fuel as [|fuel IH]; intros extra rc w r w'; simpl; [discriminate|].
  destruct (try_once rc w) as [[e|[r0|]] w1]; auto.
Qed.

Lemma sleeps_app a b : sleeps (a ++ b) = (sleeps a ++ sleeps b)%list.
Proof. unfold sleeps. apply omap_app. Qed.

(** What a call adds to the trace: only its own events, starting with its
    request when it gets as far as the network, with at most as many
    timer waits as its retry budget; and the clock does not go back. *)
Lemma call_trace fuel rc w r w' :
  run_fuel fuel rc w = Some (r, w') ->
  exists new,
    trace w' = (trace w ++ new)%list
    /\ Forall (ownEvent url apiKey apiKeyHeader useProxy) new
    /\ (List.length (sleeps new) <= Z.to_nat (maxRetries - rc))%nat
    /\ clock w <= clock w'
    /\ (forall w2, reaches w w2 -> exists rest, new = EvFetch req :: rest).
Proof.
  revert fuel rc w r w'. apply run_fuel_ind.
  - intros rc w r w' H. apply attempt_Done in H
      as [Hc|[(w1 & reset & Hc & Hl & _)|(d & w2 & lat & Hreach & _ & ->)]].
    + exists []. apply checkCache_inv in Hc as Hinv.
      destruct Hinv as (-> & -> & _). rewrite app_nil_r.
      repeat split; try constructor; try (simpl; lia).
      intros w2 Hreach. destruct (reaches_functional _ _ _ _ Hreach Hc) as [[=] _].
    + exists []. apply checkCache_inv in Hc as Hinv. destruct Hinv as (Ht1 & Hc1 & _).
      apply checkRateLimit_inv in Hl as Hinv. destruct Hinv as (Ht2 & Hc2 & _).
      rewrite app_nil_r. repeat split; try constructor; try congruence; try (simpl; lia).
      intros w2 Hreach. destruct (reaches_functional _ _ _ _ Hreach Hc) as [_ Hl'].
      rewrite Hl in Hl'. discriminate.
    + destruct (reaches_frame _ _ Hreach) as [Ht Hc].
      destruct (keep_frame d (arrived req lat w2)) as (-> & -> & _). simpl.
      rewrite Ht, Hc. exists [EvFetch req].
      repeat split; try (simpl; lia); [|eauto].
      constructor; [left; reflexivity | constructor].
  - intros rc w e w1 r w' Htry Herr.
    assert (Hcatch : exists tail,
               trace w' = (trace w1 ++ tail)%list /\ clock w1 <= clock w'
               /\ (tail = [] \/ tail = [EvFetch fallback])).
    { apply handleError_inv in Herr as [(_ & lat & Ht & Hc & _)|(_ & _ & ->)].
      - cbn zeta in *. rewrite Ht, Hc. simpl. exists [EvFetch fallback].
        repeat split; auto; lia.
      - destruct (drop_frame w1) as (-> & -> & _). exists [].
        rewrite app_nil_r. repeat split; auto; lia. }
    destruct Hcatch as (tail & Ht' & Hc' & Htail).
    assert (Hown : Forall (ownEvent url apiKey apiKeyHeader useProxy) tail).
    { destruct Htail as [->| ->];
        [constructor | constructor; [right; reflexivity | constructor]]. }
    assert (Hsleeps : sleeps tail = []) by (destruct Htail as [->| ->]; reflexivity).
    apply attempt_throw in Htry as [(w0 & Hc & Hl)|(Ht & Hcl & w2 & Hreach)].
    + apply checkCache_inv in Hc as Hinv. destruct Hinv as (Ht1 & Hc1 & _).
      apply checkRateLimit_inv in Hl as Hinv. destruct Hinv as (Ht2 & Hc2 & _).
      exists tail. rewrite Ht', Hsleeps.
      repeat split; auto; try congruence; try (simpl; lia).
      intros w2 Hreach. destruct (reaches_functional _ _ _ _ Hreach Hc) as [_ Hl'].
      rewrite Hl in Hl'. discriminate.
    + exists (EvFetch req :: tail). rewrite Ht', Ht, <- app_assoc. simpl.
      rewrite Hsleeps. repeat split; auto; try (simpl; lia); [|eauto].
      constructor; [left; reflexivity | assumption].
  - intros rc w w1 r w' Htry (new & Ht & Hown & Hsl & Hcl & _).
    apply attempt_Retry in Htry as (Hlt & w2 & ms & Hreach & Ht1 & Hcl1 & _).
    exists (EvFetch req :: EvSleep ms :: new). rewrite Ht, Ht1, <- app_assoc. simpl.
    repeat split; try lia; [|eauto].
    constructor; [left; reflexivity|]. constructor; [exact I | assumption].
Qed.

Lemma truthyStr_true s : truthyStr s = true <-> s <> EmptyString.
Proof.
  unfold truthyStr. destruct (String.eqb_spec s EmptyString); simpl; split; congruence.
Qed.

Lemma truthyStr_false s : truthyStr s = false <-> s = EmptyString.
Proof.
  unfold truthyStr. destruct (String.eqb_spec s EmptyString); simpl; split; congruence.
Qed.

Lemma not_blank_not_empty s : trim s <> EmptyString -> truthyStr s = true.
Proof. intros H. apply truthyStr_true. intros ->. apply H. reflexivity. Qed.

(** The headers of the direct request. *)
Lemma direct_headers :
  useProxy = false ->
  target req = Direct url
  /\ (forall k h, credentialSupplied url apiKey apiKeyHeader k h ->
                  headers req = if String.eqb h "__proto__" then None else Some [(h, k)])
  /\ (forall hs, headers req = Some hs ->
        exists k h, credentialSupplied url apiKey apiKeyHeader k h
                    /\ h <> "__proto__" /\ hs = [(h, k)]).
Proof.
  intros Hdirect. unfold request, requestHeaders, urlHasAuth, credentialSupplied, assignHeader.
  rewrite Hdirect. simpl. split; [reflexivity|]. split.
  - intros k h (-> & -> & Hk & Hh & -> & -> & -> & ->). simpl.
    rewrite (not_blank_not_empty _ Hk), (not_blank_not_empty _ Hh).
    rewrite (proj2 (truthyStr_true _) Hk), (proj2 (truthyStr_true _) Hh). simpl.
    now destruct (String.eqb h "__proto__").
  - intros hs Hhs.
    destruct apiKey as [k|], apiKeyHeader as [h|]; simpl in *;
      rewrite ?andb_false_r in Hhs; try discriminate.
    destruct (truthyStr k && truthyStr h && truthyStr (trim k) && truthyStr (trim h)
              && negb (includes "token=" url || includes "apikey=" url
                       || includes "api_key=" url || includes "key=" url)) eqn:Hcond;
      [|discriminate].
    repeat (apply andb_true_iff in Hcond as [Hcond ?]).
    match goal with Hn : negb _ = true |- _ =>
      apply negb_true_iff in Hn; repeat (apply orb_false_iff in Hn as [Hn ?]) end.
    destruct (String.eqb_spec h "__proto__") as [->|Hne]; [discriminate|].
    injection Hhs as <-. exists k, h.
    repeat split; trivial; now apply truthyStr_true.
Qed.

(** X29.  A direct call that gets as far as the network sends its first
    request to the url itself, and with it the credential as a header,
    the header name paired with the key, when both are supplied and not
    blank, the url has no [token=], [apikey=], [api_key=] or [key=] in
    it, and the header name is not [__proto__]; in every other case the
    request carries no header at all.  Whatever the call sends after that
    is the same request again or a request to the proxy, which carries
    none. *)
Theorem credential_header (rc : Z) (w w2 : World) :
  useProxy = false ->
  reaches w w2 ->
  exists r w' rest,
    run rc maxRetries useProxy cacheTTL bypassCache w = Some (r, w')
    /\ trace w' = (trace w ++ EvFetch req :: rest)%list
    /\ target req = Direct url
    /\ (forall k h, credentialSupplied url apiKey apiKeyHeader k h -> h <> "__proto__" ->
                    headers req = Some [(h, k)])
    /\ ((includes "token=" url = true \/ includes "apikey=" url = true
         \/ includes "api_key=" url = true \/ includes "key=" url = true
         \/ trim (default EmptyString apiKey) = EmptyString
         \/ trim (default EmptyString apiKeyHeader) = EmptyString
         \/ apiKeyHeader = Some "__proto__") ->
        headers req = None)
    /\ (forall sent, In (EvFetch sent) rest ->
          sent = req \/ ((exists c, target sent = ViaProxy url c) /\ headers sent = None)).
Proof.
  intros Hdirect Hreach.
  destruct (fuel_enough (retryBudget rc maxRetries) rc w) as [[r w'] Hrun];
    [unfold retryBudget; lia|].
  apply call_trace in Hrun as Htrace. destruct Htrace as (new & Ht & Hown & _ & _ & Hfirst).
  destruct (Hfirst _ Hreach) as [rest ->].
  exists r, w', rest. split; [exact Hrun|]. split; [exact Ht|].
  destruct (direct_headers Hdirect) as (Htarget & Hif & Honly).
  split; [exact Htarget|]. split; [|split].
  - intros k h Hc Hne. rewrite (Hif k h Hc).
    now destruct (String.eqb_spec h "__proto__").
  - intros Hnot. destruct (headers req) as [hs|] eqn:Hhs; [|reflexivity].
    destruct (Honly hs eq_refl) as (k & h & (-> & -> & Hk & Hh & H1 & H2 & H3 & H4) & Hne & _).
    simpl in Hnot. intuition congruence.
  - intros sent Hin. rewrite List.Forall_forall in Hown.
    specialize (Hown (EvFetch sent) (or_intror Hin)). simpl in Hown.
    destruct Hown as [-> | ->]; [now left | right; split; [eexists|]; reflexivity].
Qed.

Lemma run_fuel_S fuel rc w :
  run_fuel (S fuel) rc w
  = match try_once rc w with
    | (inr (Done r), w') => Some (r, w')
    | (inr Retry, w') => run_fuel fuel (rc + 1) w'
    | (inl e, w') => Some (on_error e w')
    end.
Proof. reflexivity. Qed.

Lemma fuel_independent fuel rc w r w' :
  run_fuel fuel rc w = Some (r, w') ->
  run rc maxRetries useProxy cacheTTL bypassCache w = Some (r, w').
Proof.
  intros H. unfold fetchApiData.
  destruct (Nat.le_gt_cases fuel (retryBudget rc maxRetries)) as [Hle|Hgt].
  - replace (retryBudget rc maxRetries)
      with (fuel + (retryBudget rc maxRetries - fuel))%nat by lia.
    now apply fuel_more.
  - destruct (fuel_enough (retryBudget rc maxRetries) rc w) as [[r0 w0] H0].
    { unfold retryBudget. lia. }
    rewrite H0. apply (fuel_more _ (fuel - retryBudget rc maxRetries)) in H0.
    replace (retryBudget rc maxRetries + (fuel - retryBudget rc maxRetries))%nat
      with fuel in H0 by lia.
    congruence.
Qed.

Lemma attempt_response rc w w2 response latency :
  reaches w w2 ->
  network (clock w2) (trace w2) req = NetResponse response latency ->
  try_once rc w
  = (if negb (ok response) then not_ok rc response else on_ok response)
      (arrived req latency w2).
Proof.
  intros (w1 & Hc & Hl) Hnet. unfold attempt, bind. rewrite Hc. cbn beta iota.
  rewrite Hl. cbn beta iota. unfold fetch. rewrite Hnet. reflexivity.
Qed.

Lemma attempt_network_error rc w w2 e latency :
  reaches w w2 ->
  network (clock w2) (trace w2) req = NetError e latency ->
  try_once rc w = (inl e, arrived req latency w2).
Proof.
  intros (w1 & Hc & Hl) Hnet. unfold attempt, bind. rewrite Hc. cbn beta iota.
  rewrite Hl. cbn beta iota. unfold fetch. rewrite Hnet. reflexivity.
Qed.

Lemma server_error_not_ok response : 500 <= status response -> ok response = false.
Proof.
  intros H. unfold ok. destruct (Z.leb_spec (status response) 299); [lia|].
  apply andb_false_r.
Qed.

Lemma onNotOk_server_error rc response w :
  500 <= status response ->
  not_ok rc response w
  = if rc <? maxRetries then (inr Retry, slept (backoffDelay rc) w)
    else (inl (mkExn false (toStr (errorMessageOf response))), w).
Proof.
  intros H. unfold onNotOk.
  destruct (Z.eqb_spec (status response) 429); [lia|].
  destruct (Z.eqb_spec (status response) 401); [lia|].
  destruct (Z.eqb_spec (status response) 403); [lia|].
  destruct (Z.eqb_spec (status response) 400); [lia|].
  destruct (Z.leb_spec 500 (status response)); [|lia]. simpl.
  destruct (rc <? maxRetries); reflexivity.
Qed.

(** Once the checks have let a call through, they let it through again as
    long as the two maps stay as they are. *)
Lemma reaches_stable w w2 w3 :
  reaches w w2 ->
  responseCache w3 = responseCache w2 -> rateLimitCache w3 = rateLimitCache w2 ->
  reaches w3 w3.
Proof.
  intros (w1 & Hc & Hl) Hcache Hlimit. exists w3.
  apply checkCache_inv in Hc as Hcinv.
  destruct Hcinv as (_ & Hcl1 & Hrl1 & [(entry & [=] & _)|(_ & Hsame & Hgone)]).
  apply checkRateLimit_inv in Hl as Hlinv.
  destruct Hlinv as (_ & _ & Hrc2 & [(_ & [=] & _)|[(u & c & reset & _ & _ & _ & [=] & _)
                     |(u & Hu & _ & Hrec)]]).
  split.
  - unfold checkCache. destruct (negb bypassCache && caching cacheTTL) eqn:Hon; [|reflexivity].
    apply andb_true_iff in Hon as [Hb%negb_true_iff Hca].
    unfold bind, getCachedData, Cache.getCachedData.
    rewrite Hcache, Hrc2, (Hgone Hb Hca). simpl. unfold ret.
    rewrite <- Hrc2, <- Hcache. destruct w3; reflexivity.
  - unfold checkRateLimit. rewrite Hu, Hlimit.
    destruct Hrec as [(c & reset & _ & _ & ->)|(-> & [Hnone|(c & Hnan)])].
    + simpl. rewrite lookup_delete_eq. reflexivity.
    + rewrite Hnone. reflexivity.
    + rewrite Hnan. reflexivity.
Qed.

Lemma requests_app a b : requests (a ++ b) = (requests a ++ requests b)%list.
Proof. unfold requests. apply omap_app. Qed.

(** X28.  [fetchApiData] returns for every input, and whatever fuel bounds
    the recursion gives the same result.  A 5xx response with
    [retryCount < maxRetries] makes the call set a timer for
    [2^retryCount] seconds and call itself with [retryCount + 1] when the
    timer fires, which for a [retryCount] from 0 to 21 is that many
    seconds later; no call waits more often than
    [maxRetries - retryCount] times; and with
    [maxRetries = 2] a server that keeps answering 5xx is asked three
    times, with waits of one and two seconds, before the failure is
    returned at least three seconds after the start. *)
Theorem retry_backoff (rc : Z) (w w2 : World) :
  is_Some (run rc maxRetries useProxy cacheTTL bypassCache w)
  /\ (forall fuel r w',
        run_fuel fuel rc w = Some (r, w') ->
        run rc maxRetries useProxy cacheTTL bypassCache w = Some (r, w'))
  /\ (forall response latency fuel,
        reaches w w2 ->
        network (clock w2) (trace w2) req = NetResponse response latency ->
        500 <= status response -> rc < maxRetries ->
        exists w4,
          run_fuel (S fuel) rc w = run_fuel fuel (rc + 1) w4
          /\ trace w4 = (trace w ++ [EvFetch req; EvSleep (backoffDelay rc)])%list
          /\ responseCache w4 = responseCache w2
          /\ rateLimitCache w4 = rateLimitCache w2
          /\ (0 <= rc -> backoffDelay rc = 2 ^ rc * 1000)
          /\ (0 <= rc <= 21 ->
              clock w4 = clock w + Z.of_N latency + 2 ^ rc * 1000))
  /\ (forall r w',
        run rc maxRetries useProxy cacheTTL bypassCache w = Some (r, w') ->
        exists new,
          trace w' = (trace w ++ new)%list
          /\ (List.length (sleeps new) <= Z.to_nat (maxRetries - rc))%nat)
  /\ (rc = 0 -> maxRetries = 2 -> reaches w w2 ->
      (forall t tr sent, exists response latency,
          network t tr sent = NetResponse response latency /\ 500 <= status response) ->
      exists r w' new,
        run rc maxRetries useProxy cacheTTL bypassCache w = Some (r, w')
        /\ isFailure r
        /\ trace w' = (trace w ++ new)%list
        /\ sleeps new = [1000; 2000]
        /\ List.length (requests new) = 3%nat
        /\ clock w + 3000 <= clock w').
Proof.
  split; [apply fuel_enough; unfold retryBudget; lia|].
  split; [intros fuel r w'; apply fuel_independent|].
  split.
  { intros response lat fuel Hreach Hnet Hst Hlt.
    destruct (reaches_frame _ _ Hreach) as [Ht2 Hc2].
    exists (slept (backoffDelay rc) (arrived req lat w2)). split.
    { rewrite run_fuel_S, (attempt_response rc _ _ _ _ Hreach Hnet).
      rewrite (server_error_not_ok _ Hst). cbn [negb].
      rewrite (onNotOk_server_error _ _ _ Hst).
      destruct (Z.ltb_spec rc maxRetries); [reflexivity | lia]. }
    assert (Hdelay : 0 <= rc -> backoffDelay rc = 2 ^ rc * 1000).
    { intros Hrc. unfold backoffDelay. destruct (Z.leb_spec 0 rc); [reflexivity | lia]. }
    cbn [slept arrived trace clock responseCache rateLimitCache].
    split; [now rewrite Ht2, <- app_assoc|].
    do 2 (split; [reflexivity|]). split; [exact Hdelay|].
    intros Hrc. rewrite (Hdelay (proj1 Hrc)), Hc2.
    assert (Hpow : 1 <= 2 ^ rc <= 2 ^ 21).
    { split; [apply (Z.pow_le_mono_r 2 0 rc); lia | apply Z.pow_le_mono_r; lia]. }
    rewrite timerDelay_small; [reflexivity|].
    change (2 ^ 21) with 2097152 in Hpow. lia. }
  split.
  { intros r w' Hrun. unfold fetchApiData in Hrun.
    apply call_trace in Hrun as (new & Ht & _ & Hsl & _). eauto. }
  intros Hrc Hmax Hreach Hnet.
  destruct (reaches_frame _ _ Hreach) as [Ht2 Hc2].
  destruct (Hnet (clock w2) (trace w2) req) as (resp1 & lat1 & Hn1 & Hs1).
  set (w3 := slept (backoffDelay rc) (arrived req lat1 w2)).
  assert (Hreach3 : reaches w3 w3) by (apply (reaches_stable w w2); trivial).
  destruct (Hnet (clock w3) (trace w3) req) as (resp2 & lat2 & Hn2 & Hs2).
  set (w5 := slept (backoffDelay (rc + 1)) (arrived req lat2 w3)).
  assert (Hreach5 : reaches w5 w5) by (apply (reaches_stable w3 w3); trivial).
  destruct (Hnet (clock w5) (trace w5) req) as (resp3 & lat3 & Hn3 & Hs3).
  set (w6 := arrived req lat3 w5).
  exists (failed (toStr (errorMessageOf resp3)) (clock w6)), (snd (drop w6)),
         [EvFetch req; EvSleep 1000; EvFetch req; EvSleep 2000; EvFetch req].
  split.
  { apply (fuel_independent 3).
    rewrite run_fuel_S, (attempt_response rc _ _ _ _ Hreach Hn1).
    rewrite (server_error_not_ok _ Hs1). cbn [negb].
    rewrite (onNotOk_server_error _ _ _ Hs1).
    destruct (Z.ltb_spec rc maxRetries); [|lia]. fold w3.
    rewrite run_fuel_S, (attempt_response (rc + 1) _ _ _ _ Hreach3 Hn2).
    rewrite (server_error_not_ok _ Hs2). cbn [negb].
    rewrite (onNotOk_server_error _ _ _ Hs2).
    destruct (Z.ltb_spec (rc + 1) maxRetries); [|lia]. fold w5.
    rewrite run_fuel_S, (attempt_response (rc + 1 + 1) _ _ _ _ Hreach5 Hn3).
    rewrite (server_error_not_ok _ Hs3). cbn [negb].
    rewrite (onNotOk_server_error _ _ _ Hs3).
    destruct (Z.ltb_spec (rc + 1 + 1) maxRetries); [lia|]. fold w6.
    unfold handleError. cbn [isTypeError andb]. unfold failure.
    destruct (drop_frame w6) as (_ & -> & _). reflexivity. }
  split; [split; [eexists|]; reflexivity|].
  destruct (drop_frame w6) as (-> & -> & _).
  subst w6 w5 w3. rewrite Hrc. simpl. rewrite Ht2, Hc2, <- !app_assoc. simpl.
  change (backoffDelay 0) with 1000. change (backoffDelay (0 + 1)) with 2000.
  rewrite !timerDelay_small by lia.
  repeat split; trivial. lia.
Qed.

(** A rejection that looks like CORS: the direct call goes on to the
    proxy, once; the call through the proxy fails. *)
Lemma cors_fallback_run (rc : Z) (w w2 : World) (e : Exn) (latency : N) :
  reaches w w2 ->
  network (clock w2) (trace w2) req = NetError e latency ->
  isTypeError e = true -> includes "fetch" (message e) = true ->
  let w3 := arrived req latency w2 in
  (useProxy = false ->
   exists r w',
     run rc maxRetries useProxy cacheTTL bypassCache w = Some (r, w')
     /\ trace w' = trace w ++ [EvFetch req; EvFetch fallback]
     /\ target req = Direct url
     /\ fallback = {| target := ViaProxy url (proxyCredentials apiKey apiKeyHeader);
                      headers := None |}
     /\ match delivered (network (clock w3) (trace w3) fallback) with
        | Some d =>
            r = fresh d (clock w')
            /\ (forall ttl, cacheTTL = Some ttl -> 0 < ttl ->
                  responseCache w' !! key
                  = Some {| Cache.data := d; Cache.timestamp := clock w';
                            Cache.expiresAt := clock w' + ttl * 1000;
                            Cache.url := url |})
        | None => r = failed corsMessage (clock w')
        end)
  /\ (useProxy = true ->
      run rc maxRetries useProxy cacheTTL bypassCache w
      = Some (failed (message e) (clock w3), snd (drop w3))
      /\ trace (snd (drop w3)) = trace w ++ [EvFetch req]).
Proof.
  intros Hreach Hnet Htype Hmsg w3.
  destruct (reaches_frame _ _ Hreach) as [Ht2 Hc2].
  pose proof (attempt_network_error rc _ _ _ _ Hreach Hnet) as Htry. fold w3 in Htry.
  split; intros Hproxy.
  - destruct (on_error e w3) as [r w'] eqn:Herr. exists r, w'.
    split; [apply (fuel_independent 1); rewrite run_fuel_S, Htry, Herr; reflexivity|].
    apply handleError_inv in Herr as [(_ & lat & Ht & Hc & Hd)|(Hcond & _)];
      [|rewrite Htype, Hmsg, Hproxy in Hcond; discriminate].
    cbn zeta in *. split.
    { rewrite Ht. subst w3. simpl. rewrite Ht2, <- app_assoc. reflexivity. }
    split; [unfold request; rewrite Hproxy; reflexivity|].
    split; [reflexivity|].
    destruct (delivered _) as [d|]; [|tauto].
    destruct Hd as [-> ->]. split; [reflexivity|]. intros ttl Hsome Httl.
    rewrite (keep_lookup _ _ _ Hsome Httl).
    destruct (keep_frame d (arrived fallback lat w3)) as (_ & -> & _). reflexivity.
  - split.
    + apply (fuel_independent 1). rewrite run_fuel_S, Htry. unfold handleError.
      rewrite Hproxy, andb_false_r. unfold failure.
      destruct (drop_frame w3) as (_ & -> & _). reflexivity.
    + destruct (drop_frame w3) as (-> & _). subst w3. simpl. now rewrite Ht2.
Qed.

(** What a proxy attempt has to be to deliver. *)
Lemma delivered_inv res payload :
  delivered res = Some payload
  <-> exists answer lat d,
        res = NetResponse answer lat /\ ok answer = true /\ body answer = BodyJson d
        /\ d <> JNull /\ d <> JUndefined /\ payload = getProp "data" d.
Proof.
  unfold delivered. split.
  - destruct res as [e lat|answer lat]; [discriminate|].
    destruct (ok answer) eqn:Hok; [|discriminate].
    destruct (body answer) as [d|t] eqn:Hbody; [|discriminate].
    destruct d; try discriminate; intros [= <-];
      exists answer, lat; eexists; repeat split; try eassumption; discriminate.
  - intros (answer & lat & d & -> & -> & -> & Hnull & Hundef & ->).
    destruct d; try reflexivity; contradiction.
Qed.



Lemma parseInt_digits h s : parseInt h = Int s -> truthyStr h = true.
Proof. destruct h; [discriminate | reflexivity]. Qed.

(** The 429 branch, once the instant the block lifts is known. *)
Lemma onRateLimited_run rc response w u until :
  parseURL url = Some u ->
  (exists h s, retryAfter response = Some h /\ parseInt h = Int s
               /\ until = clock w + s * 1000)
  \/ (retryAfter response = None /\ until = clock w + 60000) ->
  let w4 := setRateLimitCache
              (<[origin u := mkLimit 1 (Int until)]> (rateLimitCache w)) w in
  limited rc response w
  = if (rc <? maxRetries) && negb (until =? 0)
    then (inr Retry, slept (Z.min (until - clock w) 60000) w4)
    else (inl (mkExn false (rateLimitExhaustedMessage
                              (if until =? 0 then 60 else ceilSeconds (until - clock w)))),
          w4).
Proof.
  intros Hu Huntil w4. unfold onRateLimited, bind, now, recordRateLimit. cbn beta iota.
  rewrite Hu.
  assert (Hreset : match retryAfter response with
                   | Some h =>
                       if truthyStr h
                       then match parseInt h with
                            | Int s => Int (clock w + s * 1000)
                            | NaN => NaN
                            end
                       else Int (clock w + 60000)
                   | None => Int (clock w + 60000)
                   end = Int until).
  { destruct Huntil as [(h & s & -> & Hs & ->)|[-> ->]]; [|reflexivity].
    rewrite (parseInt_digits _ _ Hs), Hs. reflexivity. }
  rewrite Hreset. cbn beta iota. fold w4.
  destruct ((rc <? maxRetries) && negb (until =? 0)); reflexivity.
Qed.

Lemma attempt_blocked rc w w1 w2 reset :
  check_cache w = (inr None, w1) ->
  check_limit w1 = (inr (Some reset), w2) ->
  try_once rc w
  = (inr (Done (failed (rateLimitedMessage (ceilSeconds (reset - clock w2))) (clock w2))),
     w2).
Proof.
  intros Hc Hl. unfold attempt, bind. rewrite Hc. cbn beta iota.
  rewrite Hl. reflexivity.
Qed.

Lemma checkRateLimit_record w u c until :
  parseURL url = Some u ->
  rateLimitCache w !! origin u = Some (mkLimit c (Int until)) ->
  check_limit w
  = if clock w <? until then (inr (Some until), w)
    else (inr None, setRateLimitCache (delete (origin u) (rateLimitCache w)) w).
Proof. intros Hu Hrec. unfold checkRateLimit. rewrite Hu, Hrec. reflexivity. Qed.

Lemma ceilSeconds_bounds x : x <= ceilSeconds x * 1000 < x + 1000.
Proof.
  unfold ceilSeconds.
  pose proof (Z.div_mod (- x) 1000 ltac:(lia)).
  pose proof (Z.mod_pos_bound (- x) 1000 ltac:(lia)). lia.
Qed.

(** X30.  A 429 response whose [Retry-After] header starts with a whole
    number, or that has none, records the origin as blocked until the
    instant of the response plus that many seconds, or plus sixty
    seconds.  With retries left the call then sets a timer for the rest
    of the block, a minute at most, and calls itself; otherwise it fails
    with the wait in its message.  While a record is in force, a call
    for any url of that origin that gets no cache hit fails with the
    rate-limit message, naming the remaining wait in seconds rounded up,
    and adds nothing to the trace.  At or after that instant the check
    deletes the record and the call sends its request. *)
Theorem rate_limit_window (rc : Z) (w w1 w2 : World) (u : URL) (until : Z) :
  parseURL url = Some u ->
  (forall response latency,
      reaches w w2 ->
      network (clock w2) (trace w2) req = NetResponse response latency ->
      status response = 429 ->
      let w3 := arrived req latency w2 in
      ((exists h s, retryAfter response = Some h /\ parseInt h = Int s
                    /\ until = clock w3 + s * 1000)
       \/ (retryAfter response = None /\ until = clock w3 + 60000)) ->
      forall fuel,
        (rc < maxRetries -> until <> 0 ->
         exists w5,
           run_fuel (S fuel) rc w = run_fuel fuel (rc + 1) w5
           /\ rateLimitCache w5 = <[origin u := mkLimit 1 (Int until)]> (rateLimitCache w2)
           /\ responseCache w5 = responseCache w2
           /\ trace w5
              = trace w ++ [EvFetch req; EvSleep (Z.min (until - clock w3) 60000)]
           /\ clock w3 <= clock w5
           /\ (clock w3 <= until -> clock w5 = Z.min until (clock w3 + 60000)))
        /\ (maxRetries <= rc \/ until = 0 ->
            exists r w',
              run_fuel (S fuel) rc w = Some (r, w')
              /\ data r = JNull
              /\ error r
                 = Some ("API rate limit exceeded. Please wait "
                         +:+ showZ (if until =? 0 then 60
                                    else ceilSeconds (until - clock w3))
                         +:+ " seconds before trying again.")
              /\ timestamp r = clock w3
              /\ rateLimitCache w'
                 = <[origin u := mkLimit 1 (Int until)]> (rateLimitCache w2)
              /\ trace w' = trace w ++ [EvFetch req]))
  /\ (forall x, x <= ceilSeconds x * 1000 < x + 1000)
  /\ (forall c,
        check_cache w = (inr None, w1) ->
        rateLimitCache w !! origin u = Some (mkLimit c (Int until)) ->
        clock w < until ->
        exists r,
          run rc maxRetries useProxy cacheTTL bypassCache w = Some (r, w1)
          /\ data r = JNull
          /\ error r
             = Some ("Rate limit exceeded. Please wait "
                     +:+ showZ (ceilSeconds (until - clock w))
                     +:+ " seconds before trying again.")
          /\ timestamp r = clock w
          /\ trace w1 = trace w
          /\ rateLimitCache w1 !! origin u = Some (mkLimit c (Int until)))
  /\ (forall c,
        check_cache w = (inr None, w1) ->
        rateLimitCache w !! origin u = Some (mkLimit c (Int until)) ->
        until <= clock w ->
        check_limit w1
        = (inr None, setRateLimitCache (delete (origin u) (rateLimitCache w1)) w1)
        /\ delete (origin u) (rateLimitCache w1) !! origin u = None
        /\ exists r w' rest,
             run rc maxRetries useProxy cacheTTL bypassCache w = Some (r, w')
             /\ trace w' = trace w ++ EvFetch req :: rest).
Proof.
  intros Hu. split; [|split; [exact ceilSeconds_bounds|split]].
  - intros response lat Hreach Hnet Hst w3 Huntil fuel.
    destruct (reaches_frame _ _ Hreach) as [Ht2 Hc2].
    assert (Hstep : run_fuel (S fuel) rc w
                    = match limited rc response w3 with
                      | (inr (Done r), w') => Some (r, w')
                      | (inr Retry, w') => run_fuel fuel (rc + 1) w'
                      | (inl e, w') => Some (on_error e w')
                      end).
    { rewrite run_fuel_S, (attempt_response rc _ _ _ _ Hreach Hnet).
      assert (Hok : ok response = false) by (unfold ok; rewrite Hst; reflexivity).
      rewrite Hok. cbn [negb]. unfold onNotOk. rewrite Hst. cbn [Z.eqb Pos.eqb].
      fold w3. reflexivity. }
    rewrite (onRateLimited_run rc response w3 u until Hu Huntil) in Hstep.
    set (w4 := setRateLimitCache
                 (<[origin u := mkLimit 1 (Int until)]> (rateLimitCache w3)) w3) in *.
    split.
    + intros Hlt Hnz. exists (slept (Z.min (until - clock w3) 60000) w4).
      destruct (Z.ltb_spec rc maxRetries); [|lia].
      destruct (Z.eqb_spec until 0); [contradiction|]. cbn [andb negb] in Hstep.
      split; [exact Hstep|].
      pose proof (timerDelay_nonneg (Z.min (until - clock w3) 60000)) as Hdelay.
      subst w4 w3. cbn [slept arrived setRateLimitCache rateLimitCache responseCache
                        trace clock] in *.
      split; [reflexivity|]. split; [reflexivity|].
      split; [now rewrite Ht2, <- app_assoc|]. split; [lia|].
      intros Hfuture. rewrite timerDelay_small by lia. lia.
    + intros Hlast.
      assert (Hcond : (rc <? maxRetries) && negb (until =? 0) = false).
      { destruct Hlast as [Hge| ->]; [|now rewrite andb_false_r].
        destruct (Z.ltb_spec rc maxRetries); [lia | reflexivity]. }
      rewrite Hcond in Hstep. unfold handleError in Hstep.
      cbn [isTypeError andb] in Hstep. unfold failure in Hstep.
      destruct (drop_frame w4) as (Htr & Hcl & Hrl).
      eexists. eexists. split; [exact Hstep|].
      cbn [failed data error timestamp]. split; [reflexivity|].
      split; [reflexivity|]. rewrite Hcl, Hrl, Htr. subst w4 w3.
      cbn [arrived setRateLimitCache rateLimitCache trace clock].
      split; [reflexivity|]. split; [reflexivity|]. now rewrite Ht2.
  - intros c Hcache Hrec Hlt.
    apply checkCache_inv in Hcache as Hinv. destruct Hinv as (Ht1 & Hc1 & Hr1 & _).
    assert (Hlimit : check_limit w1 = (inr (Some until), w1)).
    { rewrite (checkRateLimit_record w1 u c until) by congruence.
      rewrite Hc1. destruct (Z.ltb_spec (clock w) until); [reflexivity | lia]. }
    eexists. split.
    { apply (fuel_independent 1).
      rewrite run_fuel_S, (attempt_blocked rc _ _ _ _ Hcache Hlimit), Hc1. reflexivity. }
    cbn [failed data error timestamp]. do 3 (split; [reflexivity|]).
    split; [assumption | now rewrite Hr1].
  - intros c Hcache Hrec Hge.
    apply checkCache_inv in Hcache as Hinv. destruct Hinv as (Ht1 & Hc1 & Hr1 & _).
    assert (Hlimit : check_limit w1
                     = (inr None, setRateLimitCache (delete (origin u) (rateLimitCache w1)) w1)).
    { rewrite (checkRateLimit_record w1 u c until) by congruence.
      rewrite Hc1. destruct (Z.ltb_spec (clock w) until); [lia | reflexivity]. }
    split; [assumption|]. split; [apply lookup_delete_eq|].
    destruct (fuel_enough (retryBudget rc maxRetries) rc w) as [[r w'] Hrun].
    { unfold retryBudget. lia. }
    apply call_trace in Hrun as Htrace. destruct Htrace as (new & Ht & _ & _ & _ & Hfirst).
    destruct (Hfirst _ (ex_intro _ w1 (conj Hcache Hlimit))) as [rest ->].
    exists r, w', rest. auto.
Qed.

(** C2, as the code has it.  With caching on, a call that fails with any
    message other than the rate-limit notice of the short-circuit and the
    CORS explanation leaves no entry under its key: the next lookup is a
    miss. *)
Theorem failure_invalidates (rc : Z) (w : World) (r : ApiResponse) (w' : World)
    (ttl : Z) (msg : string) :
  cacheTTL = Some ttl -> 0 < ttl ->
  run rc maxRetries useProxy cacheTTL bypassCache w = Some (r, w') ->
  data r = JNull -> error r = Some msg ->
  msg <> corsMessage -> (forall n, msg <> rateLimitedMessage n) ->
  responseCache w' !! key = None
  /\ forall t, Cache.getCachedData t key (responseCache w') = (None, responseCache w').
Proof.
  intros Hsome Httl Hrun _ Herror Hcors Hnotice.
  assert (Hcaching : caching cacheTTL = true).
  { unfold caching. rewrite Hsome. now apply Z.ltb_lt. }
  assert (Hgone : responseCache w' !! key = None).
  { unfold fetchApiData in Hrun. revert msg Herror Hcors Hnotice.
    revert Hrun. generalize (retryBudget rc maxRetries). intros fuel. revert fuel rc w r w'.
    apply (run_fuel_ind (fun _ _ r w' =>
             forall msg, error r = Some msg -> msg <> corsMessage ->
                         (forall n, msg <> rateLimitedMessage n) ->
                         responseCache w' !! key = None)).
    - intros rc w r w' H msg Herror Hcors Hnotice.
      apply attempt_Done in H
        as [Hc|[(w1 & reset & _ & _ & ->)|(d & w2 & lat & _ & -> & _)]].
      + apply checkCache_inv in Hc as (_ & _ & _ & [(entry & [= ->] & _)|([=] & _)]).
        discriminate.
      + injection Herror as <-. now destruct (Hnotice (ceilSeconds (reset - clock w'))).
      + discriminate.
    - intros rc w e w1 r w' _ Herr msg Herror Hcors Hnotice.
      apply handleError_inv in Herr as [(_ & lat & _ & _ & Hd)|(_ & -> & ->)].
      + cbn zeta in Hd. destruct (delivered _) as [d|].
        * destruct Hd as [-> _]. discriminate.
        * destruct Hd as [-> _]. injection Herror as <-. now destruct Hcors.
      + now apply drop_lookup.
    - intros rc w w1 r w' _ IH. exact IH. }
  split; [assumption|]. intros t. unfold Cache.getCachedData. now rewrite Hgone.
Qed.

(** A result that came from the network and carries no error has been
    stored under the key of the call. *)
Lemma success_stored fuel rc w r w' ttl :
  run_fuel fuel rc w = Some (r, w') ->
  cacheTTL = Some ttl -> 0 < ttl ->
  error r = None -> fromCache r = None ->
  timestamp r = clock w'
  /\ responseCache w' !! key
     = Some {| Cache.data := data r; Cache.timestamp := timestamp r;
               Cache.expiresAt := timestamp r + ttl * 1000; Cache.url := url |}.
Proof.
  intros Hrun Hsome Httl. revert fuel rc w r w' Hrun.
  apply (run_fuel_ind (fun _ _ r w' =>
           error r = None -> fromCache r = None ->
           timestamp r = clock w'
           /\ responseCache w' !! key
              = Some {| Cache.data := data r; Cache.timestamp := timestamp r;
                        Cache.expiresAt := timestamp r + ttl * 1000; Cache.url := url |})).
  - intros rc w r w' H Herror Hfresh.
    apply attempt_Done in H
      as [Hc|[(w1 & reset & _ & _ & ->)|(d & w2 & lat & _ & -> & ->)]].
    + apply checkCache_inv in Hc as (_ & _ & _ & [(entry & [= ->] & _)|([=] & _)]).
      discriminate.
    + discriminate.
    + split; [reflexivity|]. rewrite (keep_lookup _ _ _ Hsome Httl).
      destruct (keep_frame d (arrived req lat w2)) as (_ & -> & _). reflexivity.
  - intros rc w e w1 r w' _ Herr Herror Hfresh.
    apply handleError_inv in Herr as [(_ & lat & _ & _ & Hd)|(_ & -> & _)]; [|discriminate].
    cbn zeta in Hd. destruct (delivered _) as [d|]; destruct Hd as [-> Hw]; [|discriminate].
    subst w'. split; [reflexivity|]. rewrite (keep_lookup _ _ _ Hsome Httl).
    destruct (keep_frame d (arrived fallback lat w1)) as (_ & -> & _). reflexivity.
  - intros rc w w1 r w' _ IH. exact IH.
Qed.

(** With [bypassCache] no result comes from the cache. *)
Lemma bypass_not_cached fuel rc w r w' :
  bypassCache = true -> run_fuel fuel rc w = Some (r, w') -> fromCache r = None.
Proof.
  intros Hbypass. revert fuel rc w r w'.
  apply (run_fuel_ind (fun _ _ r _ => fromCache r = None)).
  - intros rc w r w' H.
    apply attempt_Done in H
      as [Hc|[(w1 & reset & _ & _ & ->)|(d & w2 & lat & _ & -> & _)]]; try reflexivity.
    apply checkCache_inv in Hc as (_ & _ & _ & [(entry & _ & _ & Hb & _)|([=] & _)]).
    congruence.
  - intros rc w e w1 r w' _ Herr.
    apply handleError_inv in Herr as [(_ & lat & _ & _ & Hd)|(_ & -> & _)]; [|reflexivity].
    cbn zeta in Hd. destruct (delivered _) as [d|]; destruct Hd as [-> _]; reflexivity.
  - intros rc w w1 r w' _ IH. exact IH.
Qed.

Lemma bypass_skips_cache w : bypassCache = true -> check_cache w = (inr None, w).
Proof. intros Hb. unfold checkCache. rewrite Hb. reflexivity. Qed.

(** An unexpired entry under the key answers the call, and nothing else
    happens. *)
Lemma cache_hit rc w entry :
  bypassCache = false -> caching cacheTTL = true ->
  responseCache w !! key = Some entry -> clock w < Cache.expiresAt entry ->
  run rc maxRetries useProxy cacheTTL bypassCache w
  = Some ({| data := Cache.data entry; error := None;
             timestamp := Cache.timestamp entry; fromCache := Some true;
             cacheAge := Some ((clock w - Cache.timestamp entry) / 1000) |}, w).
Proof.
  intros Hb Hc Hlook Hfresh. apply (fuel_independent 1).
  rewrite run_fuel_S. unfold attempt, bind, checkCache. rewrite Hb, Hc. cbn [negb andb].
  unfold bind, getCachedData, getCacheAge, Cache.getCachedData, Cache.getCacheAge.
  rewrite Hlook. destruct (Z.geb_spec (clock w) (Cache.expiresAt entry)); [lia|].
  cbn [fst snd]. replace (setResponseCache (responseCache w) w) with w by now destruct w.
  rewrite Hlook. destruct (Z.geb_spec (clock w) (Cache.expiresAt entry)); [lia|].
  reflexivity.
Qed.

(** *** Further properties of [fetchApiData] *)

Lemma reaches_cache_frame w w2 :
  caching cacheTTL = false -> reaches w w2 -> responseCache w2 = responseCache w.
Proof.
  intros Hoff (w1 & Hc & Hl).
  apply checkCache_inv in Hc as (_ & _ & _ & [(entry & _ & _ & _ & Hon & _)|(_ & Hsame & _)]);
    [congruence|].
  apply checkRateLimit_inv in Hl as (_ & _ & -> & _). now rewrite Hsame by auto.
Qed.

Lemma keep_off d w : caching cacheTTL = false -> snd (keep d w) = w.
Proof. intros Hoff. now rewrite keep_world, Hoff. Qed.

Lemma drop_off w : caching cacheTTL = false -> snd (drop w) = w.
Proof. intros Hoff. now rewrite drop_world, Hoff. Qed.

Lemma attempt_cache_frame rc w res w' :
  caching cacheTTL = false -> try_once rc w = (res, w') ->
  responseCache w' = responseCache w.
Proof.
  intros Hoff H. apply attempt_inv in H
    as [(r0 & Hc & _)|[(w1 & e & Hc & Hl & _)|[(w1 & reset & Hc & Hl & _)
       |[(w2 & e & lat & Hreach & _ & _ & ->)|(w2 & response & lat & Hreach & _ & H)]]]].
  - apply checkCache_inv in Hc as (_ & _ & _ & [(entry & _ & _ & _ & Hon & _)|([=] & _)]).
    congruence.
  - apply checkCache_inv in Hc as Hinv.
    destruct Hinv as (_ & _ & _ & [(entry & [=] & _)|(_ & Hsame & _)]).
    apply checkRateLimit_inv in Hl as (_ & _ & -> & _). now rewrite Hsame by auto.
  - apply checkCache_inv in Hc as Hinv.
    destruct Hinv as (_ & _ & _ & [(entry & [=] & _)|(_ & Hsame & _)]).
    apply checkRateLimit_inv in Hl as (_ & _ & -> & _). now rewrite Hsame by auto.
  - simpl. now apply reaches_cache_frame.
  - rewrite <- (reaches_cache_frame w w2 Hoff Hreach).
    destruct (negb (ok response)).
    + now apply onNotOk_inv in H as (-> & _).
    + apply onOk_inv in H as (_ & _ & _ & [(d & _ & ->)|(e & _ & [->| ->])]);
        rewrite ?keep_off, ?drop_off by assumption; reflexivity.
Qed.

Lemma handleError_cache_frame e w r w' :
  caching cacheTTL = false -> on_error e w = (r, w') ->
  responseCache w' = responseCache w.
Proof.
  intros Hoff H. apply handleError_inv in H as [(_ & lat & _ & _ & Hd)|(_ & _ & ->)].
  - cbn zeta in Hd. destruct (delivered _) as [d|].
    + destruct Hd as [_ ->]. now rewrite keep_off.
    + destruct Hd as [_ [->| ->]]; rewrite ?drop_off by assumption; reflexivity.
  - now rewrite drop_off.
Qed.

(** X5.  Without a positive [cacheTTL] a call never reads or writes the
    response cache: whatever happens, the cache is afterwards what it was
    before, and the result is not marked as cached. *)
Theorem no_ttl_no_cache (rc : Z) (w : World) (r : ApiResponse) (w' : World) :
  (forall ttl, cacheTTL = Some ttl -> ttl <= 0) ->
  run rc maxRetries useProxy cacheTTL bypassCache w = Some (r, w') ->
  responseCache w' = responseCache w /\ fromCache r = None /\ cacheAge r = None.
Proof.
  intros Httl Hrun.
  assert (Hoff : caching cacheTTL = false).
  { unfold caching. destruct cacheTTL as [ttl|]; [|reflexivity].
    apply Z.ltb_ge. now apply Httl. }
  unfold fetchApiData in Hrun. revert Hrun. generalize (retryBudget rc maxRetries).
  intros fuel. revert fuel rc w r w'.
  apply (run_fuel_ind (fun _ w r w' =>
           responseCache w' = responseCache w /\ fromCache r = None /\ cacheAge r = None)).
  - intros rc w r w' H. split; [now apply (attempt_cache_frame rc w _ _ Hoff H)|].
    apply attempt_Done in H
      as [Hc|[(w1 & reset & _ & _ & ->)|(d & w2 & lat & _ & -> & _)]]; auto.
    apply checkCache_inv in Hc as (_ & _ & _ & [(entry & _ & _ & _ & Hon & _)|([=] & _)]).
    congruence.
  - intros rc w e w1 r w' Htry Herr. split.
    + rewrite (handleError_cache_frame _ _ _ _ Hoff Herr).
      now apply (attempt_cache_frame rc w _ _ Hoff Htry).
    + apply handleError_inv in Herr as [(_ & lat & _ & _ & Hd)|(_ & -> & _)]; [|auto].
      cbn zeta in Hd. destruct (delivered _) as [d|]; destruct Hd as [-> _]; auto.
  - intros rc w w1 r w' Htry (Hcache & Hfresh). split; [|assumption].
    rewrite Hcache. now apply (attempt_cache_frame rc w _ _ Hoff Htry).
Qed.




Lemma onSoftError_throws errorMsg w :
  includes "fetch" (typeErrorMessage (NotAFunction "errorMsg.includes")) = false ->
  exists e,
    onSoftError typeErrorMessage url errorMsg w = (inl e, w)
    /\ isTypeError e && includes "fetch" (message e) = false
    /\ (forall s, errorMsg = JStr s ->
          message e
          = if includes "alphavantage.co" url
            then "Alpha Vantage API Error: " +:+ s
                 +:+ (if includes "Invalid API call" s then invalidApiCallHelp
                      else if includes "Thank you for using Alpha Vantage" s
                           then thankYouHelp
                           else EmptyString)
            else s).
Proof.
  intros Hquiet. unfold onSoftError, throwError, throwTypeError, throw.
  destruct (includes "alphavantage.co" url);
    [|eexists; split; [reflexivity|]; split; [reflexivity|]; intros s ->; reflexivity].
  destruct errorMsg as [| |b|n|s0|items|fields]; cbn [includesOf].
  1-4, 7: eexists; (split; [reflexivity|]); split;
    [cbn [isTypeError message andb]; exact Hquiet | intros s [=]].
  - destruct (includes "Invalid API call" s0) eqn:Hcall;
      [|destruct (includes "Thank you for using Alpha Vantage" s0) eqn:Hthank];
      eexists; (split; [reflexivity|]); (split; [reflexivity|]);
      intros s [= <-]; cbn [message toStr];
      rewrite ?Hcall, ?Hthank, ?TextFacts.append_assoc, ?TextFacts.append_nil_r;
      reflexivity.
  - repeat match goal with
           | |- context [if ?c then _ else _] => destruct c
           end;
      eexists; (split; [reflexivity|]); (split; [reflexivity|]); intros s [=].
Qed.

(** X7.  An [ok] response whose body carries [error], [Error Message] or
    [Note] is a failure: nothing is returned as data, nothing is stored,
    and the entry under the key is dropped.  For a string marker the
    message is the marker itself, or for Alpha Vantage urls the marker
    behind a fixed heading and followed by the help text that fits it. *)
Theorem soft_error_fails (rc : Z) (w w2 : World) (response : Response) (latency : N)
    (d : JSValue) :
  useProxy = false ->
  reaches w w2 ->
  network (clock w2) (trace w2) req = NetResponse response latency ->
  ok response = true ->
  body response = BodyJson d ->
  let errorMsg :=
    orElse (getProp "error" d) (orElse (getProp "Error Message" d) (getProp "Note" d)) in
  truthy errorMsg = true ->
  includes "fetch" (typeErrorMessage (NotAFunction "errorMsg.includes")) = false ->
  let w3 := arrived req latency w2 in
  exists msg,
    run rc maxRetries useProxy cacheTTL bypassCache w
    = Some (failed msg (clock w3), snd (drop w3))
    /\ trace (snd (drop w3)) = trace w ++ [EvFetch req]
    /\ (caching cacheTTL = true -> responseCache (snd (drop w3)) !! key = None)
    /\ (forall s, errorMsg = JStr s ->
          msg = if includes "alphavantage.co" url
                then "Alpha Vantage API Error: " +:+ s
                     +:+ (if includes "Invalid API call" s then invalidApiCallHelp
                          else if includes "Thank you for using Alpha Vantage" s
                               then thankYouHelp
                               else EmptyString)
                else s).
Proof.
  intros Hdirect Hreach Hnet Hok Hbody errorMsg Htruthy Hquiet w3.
  destruct (onSoftError_throws errorMsg w3 Hquiet) as (e & Hsoft & Hplain & Hmsg).
  assert (Hthrow : on_ok response w3 = (inl e, w3)).
  { rewrite <- Hsoft. unfold onOk. rewrite Hbody, Hdirect.
    destruct d as [| |db|dn|ds|ditems|dfields]; try discriminate Htruthy;
      fold errorMsg; rewrite Htruthy; reflexivity. }
  exists (message e). split; [|split; [|split; [|exact Hmsg]]].
  - apply (fuel_independent 1).
    rewrite run_fuel_S, (attempt_response rc _ _ _ _ Hreach Hnet), Hok. cbn [negb].
    fold w3. rewrite Hthrow. unfold handleError. rewrite Hplain. cbn [andb]. unfold failure.
    destruct (drop_frame w3) as (_ & -> & _). reflexivity.
  - destruct (drop_frame w3) as (-> & _). destruct (reaches_frame _ _ Hreach) as [Ht _].
    subst w3. simpl. now rewrite Ht.
  - apply drop_lookup.
Qed.

Lemma checkCache_miss_again w w1 w3 :
  check_cache w = (inr None, w1) -> responseCache w3 = responseCache w1 ->
  check_cache w3 = (inr None, w3).
Proof.
  intros Hc Hcache.
  apply checkCache_inv in Hc as (_ & _ & _ & [(entry & [=] & _)|(_ & _ & Hgone)]).
  unfold checkCache. destruct (negb bypassCache && caching cacheTTL) eqn:Hon; [|reflexivity].
  apply andb_true_iff in Hon as [Hb%negb_true_iff Hca].
  unfold bind, getCachedData, Cache.getCachedData.
  rewrite Hcache, (Hgone Hb Hca). simpl. unfold ret.
  rewrite <- Hcache. destruct w3; reflexivity.
Qed.

Lemma too_many_not_ok response : status response = 429 -> ok response = false.
Proof. intros H. unfold ok. rewrite H. reflexivity. Qed.

Lemma ceilSeconds_whole k : ceilSeconds (k * 1000) = k.
Proof.
  unfold ceilSeconds. replace (- (k * 1000)) with (- k * 1000) by lia.
  rewrite Z.div_mul by lia. lia.
Qed.

(** The first step of a call that is answered with a 429 while retries
    are left: the origin is recorded as blocked until [until], and the
    call waits for the block to lift, but no longer than a minute, before
    it calls itself. *)
Lemma too_many_step rc w w2 u response latency until fuel :
  parseURL url = Some u ->
  reaches w w2 ->
  network (clock w2) (trace w2) req = NetResponse response latency ->
  status response = 429 ->
  let w3 := arrived req latency w2 in
  (exists h s, retryAfter response = Some h /\ parseInt h = Int s
               /\ until = clock w3 + s * 1000)
  \/ (retryAfter response = None /\ until = clock w3 + 60000) ->
  until <> 0 -> rc < maxRetries ->
  let w4 := setRateLimitCache
              (<[origin u := mkLimit 1 (Int until)]> (rateLimitCache w3)) w3 in
  let w5 := slept (Z.min (until - clock w3) 60000) w4 in
  run_fuel (S fuel) rc w = run_fuel fuel (rc + 1) w5
  /\ check_cache w5 = (inr None, w5)
  /\ check_limit w5
     = if clock w5 <? until then (inr (Some until), w5)
       else (inr None, setRateLimitCache (delete (origin u) (rateLimitCache w5)) w5).
Proof.
  intros Hu Hreach Hnet Hst w3 Huntil Hnz Hlt w4 w5. split; [|split].
  - rewrite run_fuel_S, (attempt_response rc _ _ _ _ Hreach Hnet).
    rewrite (too_many_not_ok _ Hst). cbn [negb]. unfold onNotOk. rewrite Hst.
    cbn [Z.eqb Pos.eqb]. fold w3.
    rewrite (onRateLimited_run rc response w3 u until Hu Huntil). fold w4.
    destruct (Z.ltb_spec rc maxRetries); [|lia].
    destruct (Z.eqb_spec until 0); [contradiction|]. reflexivity.
  - destruct Hreach as (w1 & Hc & Hl).
    apply (checkCache_miss_again w w1 w5 Hc).
    apply checkRateLimit_inv in Hl as (_ & _ & Hsame & _). now rewrite <- Hsame.
  - apply (checkRateLimit_record w5 u 1 until Hu). apply lookup_insert_eq.
Qed.

(** X8.  A 429 whose [Retry-After] exceeds a minute, with retries left: the
    call waits sixty seconds, calls itself, and is then stopped by the
    record it has just made.  It returns the rate-limit notice with the
    rest of the wait, after one request, and the origin stays blocked. *)
Theorem long_block_single_request (rc : Z) (w w2 : World) (u : URL)
    (response : Response) (latency : N) (h : string) (s : Z) :
  parseURL url = Some u ->
  reaches w w2 ->
  network (clock w2) (trace w2) req = NetResponse response latency ->
  status response = 429 ->
  retryAfter response = Some h -> parseInt h = Int s -> 60 < s ->
  rc < maxRetries -> 0 <= clock w ->
  let w3 := arrived req latency w2 in
  exists w',
    run rc maxRetries useProxy cacheTTL bypassCache w
    = Some (failed (rateLimitedMessage (s - 60)) (clock w3 + 60000), w')
    /\ trace w' = trace w ++ [EvFetch req; EvSleep 60000]
    /\ rateLimitCache w' !! origin u = Some (mkLimit 1 (Int (clock w3 + s * 1000))).
Proof.
  intros Hu Hreach Hnet Hst Hh Hs Hlong Hlt Hclock w3.
  destruct (reaches_frame _ _ Hreach) as [Ht2 Hc2].
  assert (Hc3 : clock w3 = clock w + Z.of_N latency) by (subst w3; simpl; lia).
  set (until := clock w3 + s * 1000).
  assert (Hnz : until <> 0) by (subst until; lia).
  destruct (too_many_step rc w w2 u response latency until 1 Hu Hreach Hnet Hst)
    as (Hstep & Hcache & Hlimit); [left; exists h, s; auto | assumption | assumption |].
  fold w3 in Hstep, Hcache, Hlimit.
  replace (Z.min (until - clock w3) 60000) with 60000 in * by (subst until; lia).
  set (w4 := setRateLimitCache
               (<[origin u := mkLimit 1 (Int until)]> (rateLimitCache w3)) w3) in *.
  set (w5 := slept 60000 w4) in *.
  assert (Hc5 : clock w5 = clock w3 + 60000) by reflexivity.
  destruct (Z.ltb_spec (clock w5) until) as [_|Hge]; [|subst until; lia].
  exists w5. split; [|split].
  - apply (fuel_independent 2). rewrite Hstep, run_fuel_S.
    rewrite (attempt_blocked (rc + 1) _ _ _ _ Hcache Hlimit), Hc5.
    replace (until - (clock w3 + 60000)) with ((s - 60) * 1000) by (subst until; lia).
    now rewrite ceilSeconds_whole.
  - subst w5 w4 w3. simpl. now rewrite Ht2, <- app_assoc.
  - subst w5 w4. simpl. apply lookup_insert_eq.
Qed.

(** X9.  A 429 that asks for a wait of at most a minute, or names none (the
    default of sixty seconds), with retries left: the call waits until
    the block lifts, calls itself, finds the record expired and sends its
    request again. *)
Theorem short_block_retries (rc : Z) (w w2 : World) (u : URL)
    (response : Response) (latency : N) (until : Z) :
  parseURL url = Some u ->
  reaches w w2 ->
  network (clock w2) (trace w2) req = NetResponse response latency ->
  status response = 429 ->
  let w3 := arrived req latency w2 in
  (exists h s, retryAfter response = Some h /\ parseInt h = Int s /\ s <= 60
               /\ until = clock w3 + s * 1000)
  \/ (retryAfter response = None /\ until = clock w3 + 60000) ->
  until <> 0 -> rc < maxRetries ->
  exists r w' rest,
    run rc maxRetries useProxy cacheTTL bypassCache w = Some (r, w')
    /\ trace w'
       = trace w ++ EvFetch req :: EvSleep (until - clock w3) :: EvFetch req :: rest.
Proof.
  intros Hu Hreach Hnet Hst w3 Huntil Hnz Hlt.
  destruct (reaches_frame _ _ Hreach) as [Ht2 Hc2].
  assert (Hshort : until - clock w3 <= 60000).
  { destruct Huntil as [(h & s & _ & _ & Hs & ->)|[_ ->]]; lia. }
  destruct (too_many_step rc w w2 u response latency until
              (retryBudget (rc + 1) maxRetries) Hu Hreach Hnet Hst)
    as (Hstep & Hcache & Hlimit); [|assumption|assumption|].
  { destruct Huntil as [(h & s & Hh & Hs & _ & Hu')|Hnone]; [left; eauto | now right]. }
  fold w3 in Hstep, Hcache, Hlimit.
  replace (Z.min (until - clock w3) 60000) with (until - clock w3) in * by lia.
  set (w4 := setRateLimitCache
               (<[origin u := mkLimit 1 (Int until)]> (rateLimitCache w3)) w3) in *.
  set (w5 := slept (until - clock w3) w4) in *.
  assert (Hc5 : until <= clock w5).
  { pose proof (timerDelay_nonneg (until - clock w3)) as Hdelay.
    subst w5 w4. cbn [slept setRateLimitCache clock].
    destruct (Z.le_gt_cases 0 (until - clock w3)); [rewrite timerDelay_small|]; lia. }
  destruct (Z.ltb_spec (clock w5) until) as [Hearly|_]; [lia|].
  destruct (fuel_enough (retryBudget (rc + 1) maxRetries) (rc + 1) w5) as [[r w'] Hrun];
    [unfold retryBudget; lia|].
  apply call_trace in Hrun as Htrace. destruct Htrace as (new & Ht & _ & _ & _ & Hfirst).
  destruct (Hfirst _ (ex_intro _ w5 (conj Hcache Hlimit))) as [rest ->].
  exists r, w', rest. split.
  - apply (fuel_independent (S (retryBudget (rc + 1) maxRetries))). now rewrite Hstep.
  - rewrite Ht. subst w5 w4 w3. simpl. rewrite Ht2, <- !app_assoc. reflexivity.
Qed.

(** X10.  A url that [new URL] rejects, when the cache has no answer: the
    rate-limit check throws before any request is made, and the call
    fails with the engine's message. *)
Theorem invalid_url_fails (rc : Z) (w w1 : World) :
  parseURL url = None ->
  includes "fetch" (typeErrorMessage InvalidURL) = false ->
  check_cache w = (inr None, w1) ->
  run rc maxRetries useProxy cacheTTL bypassCache w
  = Some (failed (typeErrorMessage InvalidURL) (clock w), snd (drop w1))
  /\ trace (snd (drop w1)) = trace w.
Proof.
  intros Hu Hquiet Hc.
  apply checkCache_inv in Hc as Hinv. destruct Hinv as (Ht1 & Hc1 & _).
  split.
  - apply (fuel_independent 1). rewrite run_fuel_S. unfold attempt, bind. rewrite Hc.
    cbn beta iota. unfold checkRateLimit. rewrite Hu. unfold handleError.
    cbn [isTypeError message]. rewrite Hquiet. cbn [andb]. unfold failure.
    destruct (drop_frame w1) as (_ & -> & _). now rewrite Hc1.
  - destruct (drop_frame w1) as (-> & _). exact Ht1.
Qed.

(** X11.  Every request but the last two of a call is followed by a timer wait:
    a call sends at most [maxRetries - retryCount + 2] requests, and at
    most one more than it waits when it runs through the proxy. *)
Theorem request_budget (rc : Z) (w : World) (r : ApiResponse) (w' : World) :
  run rc maxRetries useProxy cacheTTL bypassCache w = Some (r, w') ->
  exists new,
    trace w' = trace w ++ new
    /\ (List.length (requests new) <= List.length (sleeps new) + 2)%nat
    /\ (List.length (sleeps new) <= Z.to_nat (maxRetries - rc))%nat
    /\ (useProxy = true ->
        List.length (requests new) <= List.length (sleeps new) + 1)%nat.
Proof.
  unfold fetchApiData. generalize (retryBudget rc maxRetries). intros fuel.
  revert fuel rc w r w'.
  apply (run_fuel_ind (fun rc w _ w' =>
    exists new,
      trace w' = trace w ++ new
      /\ (List.length (requests new) <= List.length (sleeps new) + 2)%nat
      /\ (List.length (sleeps new) <= Z.to_nat (maxRetries - rc))%nat
      /\ (useProxy = true ->
          List.length (requests new) <= List.length (sleeps new) + 1)%nat)).
  - intros rc w r w' H. apply attempt_Done in H
      as [Hc|[(w1 & reset & Hc & Hl & _)|(d & w2 & lat & Hreach & _ & ->)]].
    + exists []. apply checkCache_inv in Hc as (-> & _). rewrite app_nil_r.
      repeat split; simpl; lia.
    + exists []. apply checkCache_inv in Hc as (Ht1 & _).
      apply checkRateLimit_inv in Hl as (Ht2 & _). rewrite app_nil_r.
      repeat split; simpl; try lia. congruence.
    + destruct (reaches_frame _ _ Hreach) as [Ht _].
      destruct (keep_frame d (arrived req lat w2)) as (-> & _). simpl. rewrite Ht.
      exists [EvFetch req]. repeat split; simpl; lia.
  - intros rc w e w1 r w' Htry Herr.
    assert (Hcatch : exists tail,
               trace w' = trace w1 ++ tail
               /\ (tail = [] \/ (tail = [EvFetch fallback] /\ useProxy = false))).
    { apply handleError_inv in Herr as [(Hcond & lat & Ht & _)|(_ & _ & ->)].
      - cbn zeta in Ht. rewrite Ht. simpl. exists [EvFetch fallback]. split; [reflexivity|].
        right. split; [reflexivity|]. apply andb_true_iff in Hcond as [_ Hp].
        now apply negb_true_iff in Hp.
      - destruct (drop_frame w1) as (-> & _). exists []. rewrite app_nil_r. auto. }
    destruct Hcatch as (tail & Ht' & Htail).
    apply attempt_throw in Htry as [(w0 & Hc & Hl)|(Ht & _)].
    + apply checkCache_inv in Hc as (Ht1 & _).
      apply checkRateLimit_inv in Hl as (Ht2 & _).
      exists tail. rewrite Ht', Ht2, Ht1.
      destruct Htail as [->|[-> Hp]]; repeat split; simpl; try lia; congruence.
    + exists (EvFetch req :: tail). rewrite Ht', Ht, <- app_assoc.
      destruct Htail as [->|[-> Hp]]; repeat split; simpl; try lia; congruence.
  - intros rc w w1 r w' Htry (new & Ht & Hreq & Hsl & Hproxy).
    apply attempt_Retry in Htry as (Hlt & w2 & ms & _ & Ht1 & _).
    exists (EvFetch req :: EvSleep ms :: new). rewrite Ht, Ht1, <- app_assoc.
    repeat split; simpl; try lia. intros Hp. specialize (Hproxy Hp). lia.
Qed.

(** X12.  The shape of every result.  A result with an error has [null] data
    and does not come from the cache.  A result that does not come from
    the cache is stamped with the instant the call returns.  A result
    from the cache is only given when the cache is on and not bypassed,
    carries no error and tells its age.  And the clock never goes back. *)
Theorem response_shape (rc : Z) (w : World) (r : ApiResponse) (w' : World) :
  run rc maxRetries useProxy cacheTTL bypassCache w = Some (r, w') ->
  (forall msg, error r = Some msg -> data r = JNull /\ fromCache r = None)
  /\ (fromCache r = None -> timestamp r = clock w' /\ cacheAge r = None)
  /\ (forall b, fromCache r = Some b ->
        b = true /\ error r = None /\ bypassCache = false /\ caching cacheTTL = true
        /\ exists age, cacheAge r = Some age)
  /\ clock w <= clock w'.
Proof.
  intros Hrun. unfold fetchApiData in Hrun.
  apply call_trace in Hrun as Htrace. destruct Htrace as (_ & _ & _ & _ & Hclock & _).
  enough (Hshape :
    (forall msg, error r = Some msg -> data r = JNull /\ fromCache r = None)
    /\ (fromCache r = None -> timestamp r = clock w' /\ cacheAge r = None)
    /\ (forall b, fromCache r = Some b ->
          b = true /\ error r = None /\ bypassCache = false /\ caching cacheTTL = true
          /\ exists age, cacheAge r = Some age)).
  { destruct Hshape as (H1 & H2 & H3).
    split; [exact H1 | split; [exact H2 | split; [exact H3 | exact Hclock]]]. }
  clear Hclock.
  revert Hrun. generalize (retryBudget rc maxRetries). intros fuel. revert fuel rc w r w'.
  apply (run_fuel_ind (fun _ _ r w' =>
    (forall msg, error r = Some msg -> data r = JNull /\ fromCache r = None)
    /\ (fromCache r = None -> timestamp r = clock w' /\ cacheAge r = None)
    /\ (forall b, fromCache r = Some b ->
          b = true /\ error r = None /\ bypassCache = false /\ caching cacheTTL = true
          /\ exists age, cacheAge r = Some age))).
  - intros rc w r w' H. apply attempt_Done in H
      as [Hc|[(w1 & reset & _ & _ & ->)|(d & w2 & lat & _ & -> & _)]].
    + apply checkCache_inv in Hc
        as (_ & _ & _ & [(entry & [= ->] & _ & Hb & Hon & _)|([=] & _)]).
      cbn [error data fromCache timestamp cacheAge].
      split; [discriminate|]. split; [discriminate|].
      intros b [= <-]. eauto 10.
    + cbn. repeat split; intros; try discriminate; reflexivity.
    + cbn. repeat split; intros; try discriminate; reflexivity.
  - intros rc w e w1 r w' _ Herr.
    apply handleError_inv in Herr as [(_ & lat & _ & _ & Hd)|(_ & -> & ->)].
    + cbn zeta in Hd. destruct (delivered _) as [d|]; destruct Hd as [-> _]; cbn;
        repeat split; intros; try discriminate; reflexivity.
    + destruct (drop_frame w1) as (_ & -> & _). cbn.
      repeat split; intros; try discriminate; reflexivity.
  - intros rc w w1 r w' _ IH. exact IH.
Qed.

(** A call through the proxy that is answered [ok], without an [error]
    member. *)
Lemma proxy_call_run (rc : Z) (w w2 : World) (response : Response) (latency : N)
    (d : JSValue) :
  useProxy = true ->
  reaches w w2 ->
  network (clock w2) (trace w2) req = NetResponse response latency ->
  ok response = true ->
  body response = BodyJson d ->
  d <> JNull -> d <> JUndefined ->
  truthy (getProp "error" d) = false ->
  let w3 := arrived req latency w2 in
  let payload := if truthy (getProp "data" d) then getProp "data" d else d in
  run rc maxRetries useProxy cacheTTL bypassCache w
  = Some (fresh payload (clock w3), snd (keep payload w3)).
Proof.
  intros Hproxy Hreach Hnet Hok Hbody Hnull Hundef Herror w3 payload.
  apply (fuel_independent 1).
  rewrite run_fuel_S, (attempt_response rc _ _ _ _ Hreach Hnet), Hok. cbn [negb].
  fold w3. unfold onOk. rewrite Hbody, Hproxy.
  destruct d as [| |db|dn|ds|ditems|dfields]; try contradiction;
    rewrite Herror; subst payload;
    destruct (truthy (getProp "data" _)); now rewrite success_run.
Qed.

(** A call that the cache does not answer, for an origin on record as
    blocked: the notice, and nothing else. *)
Lemma blocked_run rc w w1 u c until :
  parseURL url = Some u ->
  check_cache w = (inr None, w1) ->
  rateLimitCache w !! origin u = Some (mkLimit c (Int until)) ->
  clock w < until ->
  run rc maxRetries useProxy cacheTTL bypassCache w
  = Some (failed (rateLimitedMessage (ceilSeconds (until - clock w))) (clock w), w1)
  /\ trace w1 = trace w /\ clock w1 = clock w.
Proof.
  intros Hu Hcache Hrec Hlt.
  apply checkCache_inv in Hcache as Hinv. destruct Hinv as (Ht1 & Hc1 & Hr1 & _).
  split; [|auto].
  assert (Hlimit : check_limit w1 = (inr (Some until), w1)).
  { rewrite (checkRateLimit_record w1 u c until) by congruence.
    rewrite Hc1. destruct (Z.ltb_spec (clock w) until); [reflexivity | lia]. }
  apply (fuel_independent 1).
  rewrite run_fuel_S, (attempt_blocked rc _ _ _ _ Hcache Hlimit), Hc1. reflexivity.
Qed.

End Calls.

Section Idempotence.

Variable parseURL : string -> option URL.
Variable localeCompare : string -> string -> Z.
Variable network : Z -> list Event -> Request -> NetResult.
Variable typeErrorMessage : Fault -> string.

Local Abbreviation call := (fetchApiData parseURL localeCompare network typeErrorMessage).
Local Abbreviation keyOf := (Cache.generateCacheKey parseURL localeCompare).

(** C1, as the code has it.  After a call with [cacheTTL > 0] has
    fetched a payload, the payload sits under the call's key, and every
    call with [bypassCache = false] whose key is the same, made while the
    entry is there and unexpired, returns that payload marked [fromCache]
    and leaves the world, its trace included, as it was.  Urls that differ
    only in the order of their query parameters have the same key when
    [localeCompare] is a consistent comparator that ranks no two of the
    parameters' names equal.  A call with [bypassCache = true] never answers
    from the cache; it sends its request whenever the rate-limit check
    lets it through; and when it succeeds the cache holds its payload. *)
Theorem cache_idempotence
    (url : string) (apiKey apiKeyHeader : option string) (rc maxRetries : Z)
    (useProxy bypassCache : bool) (ttl : Z) (w0 w1 : World) (r1 : ApiResponse) :
  0 < ttl ->
  call url apiKey apiKeyHeader rc maxRetries useProxy (Some ttl) bypassCache w0
  = Some (r1, w1) ->
  let stored :=
    {| Cache.data := data r1; Cache.timestamp := timestamp r1;
       Cache.expiresAt := timestamp r1 + ttl * 1000; Cache.url := url |} in
  (error r1 = None -> fromCache r1 = None ->
   responseCache w1 !! keyOf url apiKey apiKeyHeader = Some stored
   /\ forall url2 rc2 maxRetries2 useProxy2 ttl2 w2,
        keyOf url2 apiKey apiKeyHeader = keyOf url apiKey apiKeyHeader ->
        0 < ttl2 ->
        responseCache w2 !! keyOf url apiKey apiKeyHeader = Some stored ->
        clock w2 < timestamp r1 + ttl * 1000 ->
        call url2 apiKey apiKeyHeader rc2 maxRetries2 useProxy2 (Some ttl2) false w2
        = Some ({| data := data r1; error := None; timestamp := timestamp r1;
                   fromCache := Some true;
                   cacheAge := Some ((clock w2 - timestamp r1) / 1000) |}, w2))
  /\ (forall url2 u u2,
        Cache.consistentComparator localeCompare ->
        parseURL url = Some u -> parseURL url2 = Some u2 ->
        origin u2 = origin u -> pathname u2 = pathname u ->
        Permutation (searchParams u) (searchParams u2) ->
        Cache.distinctNames localeCompare (searchParams u) ->
        keyOf url2 apiKey apiKeyHeader = keyOf url apiKey apiKeyHeader)
  /\ (bypassCache = true ->
      fromCache r1 = None
      /\ (forall w2,
            checkRateLimit parseURL typeErrorMessage url w0 = (inr None, w2) ->
            exists rest,
              trace w1 = trace w0 ++ EvFetch (request url apiKey apiKeyHeader useProxy) :: rest)
      /\ (error r1 = None ->
          responseCache w1 !! keyOf url apiKey apiKeyHeader = Some stored)).
Proof.
  intros Httl Hcall stored.
  assert (Hstored : error r1 = None -> fromCache r1 = None ->
                    responseCache w1 !! keyOf url apiKey apiKeyHeader = Some stored).
  { intros Herror Hfresh.
    exact (proj2 (success_stored _ _ _ _ _ _ _ _ _ _ _ _ _ _ _ _ _ Hcall eq_refl Httl Herror Hfresh)). }
  split; [|split].
  - intros Herror Hfresh. split; [auto|].
    intros url2 rc2 maxRetries2 useProxy2 ttl2 w2 Hkey Httl2 Hlook Hlive.
    rewrite (cache_hit parseURL localeCompare network typeErrorMessage url2 apiKey apiKeyHeader
               maxRetries2 useProxy2 (Some ttl2) false rc2 w2 stored); trivial.
    + unfold caching. now apply Z.ltb_lt.
    + unfold cacheKey. now rewrite Hkey.
  - intros url2 u u2 Hcmp Hu Hu2 Ho Hp Hperm Hdistinct.
    now apply (KeyFacts.generateCacheKey_order parseURL localeCompare url url2 u u2).
  - intros Hbypass.
    pose proof (bypass_not_cached _ _ _ _ _ _ _ _ _ _ _ _ _ _ _ _ Hbypass Hcall) as Hfresh.
    split; [assumption|]. split; [|auto].
    intros w2 Hlimit. unfold fetchApiData in Hcall.
    apply call_trace in Hcall as (new & Ht & _ & _ & _ & Hfirst).
    destruct (Hfirst w2) as [rest ->]; [|eauto].
    exists w0. split; [|assumption]. now apply bypass_skips_cache.
Qed.

(** X13.  What a call through the proxy unwraps, and what the fallback of a
    direct call does.  From one and the same [ok] answer of the proxy,
    a JSON body without an [error], the call through the proxy returns
    and stores the [data] member when that is truthy and otherwise the
    whole body, so that a payload that is [0], [false], the empty string
    or [null] comes back inside its envelope; the fallback of a direct
    call returns and stores the [data] member whatever it is. *)
Theorem proxy_envelope (url : string) (apiKey apiKeyHeader : option string)
    (rc maxRetries : Z) (cacheTTL : option Z) (bypassCache : bool) (w w2 : World)
    (answer : Response) (d : JSValue) :
  reachesNetwork parseURL localeCompare typeErrorMessage url apiKey apiKeyHeader
                 cacheTTL bypassCache w w2 ->
  ok answer = true -> body answer = BodyJson d ->
  d <> JNull -> d <> JUndefined ->
  truthy (getProp "error" d) = false ->
  let stores (w' : World) (payload : JSValue) :=
    forall ttl, cacheTTL = Some ttl -> 0 < ttl ->
      exists entry, responseCache w' !! keyOf url apiKey apiKeyHeader = Some entry
                    /\ Cache.data entry = payload in
  (forall latency,
      network (clock w2) (trace w2) (request url apiKey apiKeyHeader true)
      = NetResponse answer latency ->
      exists r w',
        call url apiKey apiKeyHeader rc maxRetries true cacheTTL bypassCache w = Some (r, w')
        /\ data r = (if truthy (getProp "data" d) then getProp "data" d else d)
        /\ error r = None
        /\ stores w' (if truthy (getProp "data" d) then getProp "data" d else d))
  /\ (forall e latency lat2,
        network (clock w2) (trace w2) (request url apiKey apiKeyHeader false)
        = NetError e latency ->
        isTypeError e = true -> includes "fetch" (message e) = true ->
        let w3 := arrived (request url apiKey apiKeyHeader false) latency w2 in
        network (clock w3) (trace w3) (fallbackRequest url apiKey apiKeyHeader)
        = NetResponse answer lat2 ->
        exists r w',
          call url apiKey apiKeyHeader rc maxRetries false cacheTTL bypassCache w
          = Some (r, w')
          /\ data r = getProp "data" d
          /\ error r = None
          /\ stores w' (getProp "data" d)).
Proof.
  intros Hreach Hok Hbody Hnull Hundef Herror stores. split.
  - intros latency Hnet.
    pose proof (proxy_call_run parseURL localeCompare network typeErrorMessage url apiKey
                  apiKeyHeader maxRetries true cacheTTL bypassCache rc w w2 answer latency d
                  eq_refl Hreach Hnet Hok Hbody Hnull Hundef Herror) as Hrun.
    cbn zeta in Hrun. eexists. eexists. split; [exact Hrun|].
    cbn [fresh data error]. do 2 (split; [reflexivity|]).
    intros ttl Hsome Httl. eexists.
    split; [exact (keep_lookup parseURL localeCompare url apiKey apiKeyHeader cacheTTL
                     _ _ ttl Hsome Httl)|].
    reflexivity.
  - intros e latency lat2 Hnet Htype Hmsg w3 Hvia.
    destruct (cors_fallback_run parseURL localeCompare network typeErrorMessage url apiKey
                apiKeyHeader maxRetries false cacheTTL bypassCache rc w w2 e latency
                Hreach Hnet Htype Hmsg) as [Hdirect _].
    destruct (Hdirect eq_refl) as (r & w' & Hrun & _ & _ & _ & Hresult).
    fold w3 in Hresult.
    assert (Hd : delivered (network (clock w3) (trace w3)
                              (fallbackRequest url apiKey apiKeyHeader))
                 = Some (getProp "data" d)).
    { apply (proj2 (delivered_inv _ _)). exists answer, lat2, d. repeat split; trivial. }
    rewrite Hd in Hresult. destruct Hresult as [-> Hstore].
    eexists. eexists. split; [exact Hrun|]. cbn [fresh data error].
    do 2 (split; [reflexivity|]).
    intros ttl Hsome Httl. eexists. split; [apply (Hstore ttl Hsome Httl)|]. reflexivity.
Qed.

(** X14.  The cache key holds only the first eight characters of the api key:
    two keys that agree there share their entries, so what one of them
    fetched is served to the other from the cache.  An empty key counts
    as no key. *)
Theorem key_prefix_shares_cache (url : string) (k1 k2 : string) (header : option string) :
  k1 <> EmptyString -> k2 <> EmptyString -> take 8 k1 = take 8 k2 ->
  keyOf url (Some k2) header = keyOf url (Some k1) header
  /\ (forall rc maxRetries useProxy ttl w entry,
        0 < ttl ->
        responseCache w !! keyOf url (Some k1) header = Some entry ->
        clock w < Cache.expiresAt entry ->
        call url (Some k2) header rc maxRetries useProxy (Some ttl) false w
        = Some ({| data := Cache.data entry; error := None;
                   timestamp := Cache.timestamp entry; fromCache := Some true;
                   cacheAge := Some ((clock w - Cache.timestamp entry) / 1000) |}, w))
  /\ keyOf url (Some EmptyString) header = keyOf url None header.
Proof.
  intros Hk1 Hk2 Hprefix.
  assert (Hkey : keyOf url (Some k2) header = keyOf url (Some k1) header).
  { unfold Cache.generateCacheKey. cbn [truthyOpt default from_option id].
    rewrite (proj2 (truthyStr_true k1) Hk1), (proj2 (truthyStr_true k2) Hk2), Hprefix.
    reflexivity. }
  split; [exact Hkey|]. split; [|reflexivity].
  intros rc maxRetries useProxy ttl w entry Httl Hlook Hlive.
  apply cache_hit; trivial.
  - unfold caching. now apply Z.ltb_lt.
  - unfold cacheKey. now rewrite Hkey.
Qed.

End Idempotence.
(** *** The theorems at work on the sample platform *)

Import Sample.

Lemma reaches_at_start url apiKey apiKeyHeader cacheTTL bypassCache :
  is_Some (parseSimpleURL url) ->
  reachesNetwork parseSimpleURL compareCodeUnits v8Message url apiKey apiKeyHeader
                 cacheTTL bypassCache emptyWorld emptyWorld.
Proof.
  intros [u Hu]. exists emptyWorld. split.
  - unfold checkCache. destruct (negb bypassCache && caching cacheTTL); [|reflexivity].
    unfold bind, getCachedData, Cache.getCachedData. simpl. rewrite lookup_empty.
    reflexivity.
  - unfold checkRateLimit. rewrite Hu. simpl. rewrite lookup_empty. reflexivity.
Qed.

Lemma credential_header_witness :
  reachesNetwork parseSimpleURL compareCodeUnits v8Message quoteUrl (Some "secret")
                 (Some "X-Token") None false emptyWorld emptyWorld
  /\ credentialSupplied quoteUrl (Some "secret") (Some "X-Token") "secret" "X-Token"
  /\ exists r w' sent rest,
       tokenKeyed = Some (r, w')
       /\ trace w' = EvFetch sent :: rest
       /\ target sent = Direct quoteUrl
       /\ headers sent = Some [("X-Token", "secret")].
Proof.
  assert (Hreach : reachesNetwork parseSimpleURL compareCodeUnits v8Message quoteUrl
                     (Some "secret") (Some "X-Token") None false emptyWorld emptyWorld).
  { apply reaches_at_start. vm_compute. eauto. }
  assert (Hsupplied : credentialSupplied quoteUrl (Some "secret") (Some "X-Token")
                        "secret" "X-Token").
  { repeat split; try reflexivity; discriminate. }
  split; [exact Hreach|]. split; [exact Hsupplied|].
  destruct (credential_header parseSimpleURL compareCodeUnits
              (scripted [NetResponse (jsonResponse 200 quoteBody) 10]) v8Message
              quoteUrl (Some "secret") (Some "X-Token") 3 false None false
              0 emptyWorld emptyWorld eq_refl Hreach)
    as (r & w' & rest & Hrun & Ht & Htarget & Hheader & _).
  exists r, w', (request quoteUrl (Some "secret") (Some "X-Token") false), rest.
  split; [exact Hrun|]. split; [exact Ht|]. split; [exact Htarget|].
  apply Hheader; [exact Hsupplied | discriminate].
Defined.

Lemma retry_backoff_witness :
  reachesNetwork parseSimpleURL compareCodeUnits v8Message quoteUrl None None None false
                 emptyWorld emptyWorld
  /\ (exists w4,
        trace w4 = [EvFetch (request quoteUrl None None false); EvSleep 1000]
        /\ clock w4 = 1000)
  /\ exists r w',
       fetchApiData parseSimpleURL compareCodeUnits (alwaysStatus 503) v8Message
                    quoteUrl None None 0 2 false None false emptyWorld = Some (r, w')
       /\ isFailure r /\ clock emptyWorld + 3000 <= clock w'.
Proof.
  assert (Hreach : reachesNetwork parseSimpleURL compareCodeUnits v8Message quoteUrl
                     None None None false emptyWorld emptyWorld).
  { apply reaches_at_start. vm_compute. eauto. }
  split; [exact Hreach|].
  destruct (retry_backoff parseSimpleURL compareCodeUnits (alwaysStatus 503) v8Message
              quoteUrl None None 2 false None false 0 emptyWorld emptyWorld)
    as (_ & _ & Hstep & _ & Hbudget).
  split.
  - destruct (Hstep (jsonResponse 503 JNull) 0%N 0%nat Hreach eq_refl)
      as (w4 & _ & Ht & _ & _ & Hdelay & Hclock); [simpl; lia | lia |].
    exists w4. split.
    + rewrite Ht. reflexivity.
    + rewrite Hclock by lia. reflexivity.
  - destruct (Hbudget eq_refl eq_refl Hreach)
      as (r & w' & new & Hrun & Hfail & _ & _ & _ & Hclock).
    { intros t tr sent. exists (jsonResponse 503 JNull), 0%N.
      split; [reflexivity | simpl; lia]. }
    exists r, w'. auto.
Defined.


Lemma rate_limit_window_witness :
  parseSimpleURL quoteUrl
  = Some {| origin := "https://api.example.com"; pathname := "/quote";
            searchParams := [("symbol", "AAPL")] |}
  /\ (status (tooManyRequests "120") = 429
      /\ parseInt "120" = Int 120
      /\ exists r w',
           throttled = Some (r, w')
           /\ error r
              = Some "API rate limit exceeded. Please wait 120 seconds before trying again."
           /\ rateLimitCache w' !! "https://api.example.com"
              = Some (mkLimit 1 (Int 120020)))
  /\ (clock (worldOf throttled) < 120020
      /\ exists r,
           refreshed = Some (r, worldOf throttled)
           /\ error r
              = Some "Rate limit exceeded. Please wait 120 seconds before trying again.")
  /\ (120020 <= clock (elapse 200000 (worldOf throttled))
      /\ exists r w' rest,
           run outage quoteUrl None None 0 3 false (Some 300) true
               (elapse 200000 (worldOf throttled)) = Some (r, w')
           /\ trace w'
              = trace (elapse 200000 (worldOf throttled))
                ++ EvFetch (request quoteUrl None None false) :: rest).
Proof.
  assert (Hu : parseSimpleURL quoteUrl
               = Some {| origin := "https://api.example.com"; pathname := "/quote";
                         searchParams := [("symbol", "AAPL")] |}) by reflexivity.
  assert (Hnews : parseSimpleURL newsUrl
                  = Some {| origin := "https://api.example.com"; pathname := "/news";
                            searchParams := [("symbol", "AAPL")] |}) by reflexivity.
  assert (Hrec : rateLimitCache (worldOf throttled) !! "https://api.example.com"
                 = Some (mkLimit 1 (Int 120020))) by (vm_compute; reflexivity).
  assert (Hclock : clock (worldOf throttled) < 120020) by (vm_compute; reflexivity).
  assert (Hlate : 120020 <= clock (elapse 200000 (worldOf throttled)))
    by (vm_compute; discriminate).
  split; [exact Hu|]. split; [|split].
  - split; [reflexivity|]. split; [reflexivity|].
    destruct (rate_limit_window parseSimpleURL compareCodeUnits (scripted outage) v8Message
                newsUrl None None 0 false (Some 300) false
                0 (worldOf populated) (worldOf populated) (worldOf populated) _ 120020 Hnews)
      as (Hrecord & _ & _ & _).
    pose proof (fun reach net st rec => Hrecord (tooManyRequests "120") 10%N reach net st rec
                                             0%nat) as Hat.
    destruct Hat as [_ Hlast].
    + exists (worldOf populated). split; vm_compute; reflexivity.
    + vm_compute. reflexivity.
    + reflexivity.
    + left. exists "120", 120. repeat split; vm_compute; reflexivity.
    + destruct (Hlast (or_introl (Z.le_refl 0))) as (r & w' & Hrun & _ & Herror & _ & Hlimit & _).
      exists r, w'. split; [exact Hrun|]. split.
      * rewrite Herror. vm_compute. reflexivity.
      * rewrite Hlimit. apply lookup_insert_eq.
  - split; [exact Hclock|].
    destruct (rate_limit_window parseSimpleURL compareCodeUnits (scripted outage) v8Message
                quoteUrl None None 3 false (Some 300) true
                0 (worldOf throttled) (worldOf throttled) (worldOf throttled) _ 120020 Hu)
      as (_ & _ & Hblocked & _).
    destruct (Hblocked 1 eq_refl Hrec Hclock) as (r & Hrun & _ & Herror & _).
    exists r. split; [exact Hrun|]. rewrite Herror. vm_compute. reflexivity.
  - split; [exact Hlate|].
    destruct (rate_limit_window parseSimpleURL compareCodeUnits (scripted outage) v8Message
                quoteUrl None None 3 false (Some 300) true
                0 (elapse 200000 (worldOf throttled)) (elapse 200000 (worldOf throttled))
                (elapse 200000 (worldOf throttled)) _ 120020 Hu)
      as (_ & _ & _ & Hlifted).
    exact (proj2 (proj2 (Hlifted 1 eq_refl Hrec Hlate))).
Defined.

(** C3.  A 429 response whose [Retry-After] header is a date, the other
    form the header has in HTTP, blocks nothing.  The header is present,
    [parseInt] reads it as [NaN], and [NaN] is what is recorded as the
    reset time: the call fails at once, naming sixty seconds, without
    the retry it would make after a header in seconds or with no header;
    and the next call to the origin, made at the same instant, passes
    the rate-limit check and sends its request. *)
Theorem date_header_not_blocked :
  retryAfter (tooManyRequests httpDate) = Some httpDate
  /\ parseInt httpDate = NaN
  /\ dated
     = Some (failed "API rate limit exceeded. Please wait 60 seconds before trying again." 10,
             worldOf dated)
  /\ trace (worldOf dated) = [EvFetch (request quoteUrl None None false)]
  /\ clock (worldOf dated) = 10
  /\ rateLimitCache (worldOf dated) !! "https://api.example.com" = Some (mkLimit 1 NaN)
  /\ afterDated = Some (fresh quoteBody 20, worldOf afterDated)
  /\ trace (worldOf afterDated)
     = [EvFetch (request quoteUrl None None false);
        EvFetch (request quoteUrl None None false)].
Proof. repeat split; vm_compute; reflexivity. Qed.

(** C8.  The backoff stops growing at [retryCount = 22].  The delay asked
    for is [2^22] seconds, which no longer fits the 32 bits of a timer's
    delay: the timer fires at once and the retry follows the failed
    request without any wait, where at [retryCount = 21] the call still
    waits its [2^21] seconds. *)
Theorem backoff_overflow :
  backoffDelay 22 = 2 ^ 22 * 1000
  /\ timerDelay (backoffDelay 22) = 0
  /\ lateRetry 22 = Some (resultOf (lateRetry 22), worldOf (lateRetry 22))
  /\ isFailure (resultOf (lateRetry 22))
  /\ trace (worldOf (lateRetry 22))
     = [EvFetch (request quoteUrl None None false); EvSleep 4194304000;
        EvFetch (request quoteUrl None None false)]
  /\ clock (worldOf (lateRetry 22)) = 0
  /\ trace (worldOf (lateRetry 21))
     = [EvFetch (request quoteUrl None None false); EvSleep 2097152000;
        EvFetch (request quoteUrl None None false)]
  /\ clock (worldOf (lateRetry 21)) = 2 ^ 21 * 1000.
Proof.
  repeat split; try (vm_compute; reflexivity).
  eexists. vm_compute. reflexivity.
Qed.

(** C9.  A credential whose header name is [__proto__] is not sent.  Key
    and header name are supplied and not blank and the url has no
    auth-shaped parameter, yet the request goes out without any header:
    the assignment of lines 138-140 does not give the [headers] object a
    property of that name.  Under any other name the same call sends the
    header. *)
Theorem proto_header_dropped :
  credentialSupplied quoteUrl (Some "secret") (Some "__proto__") "secret" "__proto__"
  /\ protoKeyed = Some (fresh quoteBody 10, worldOf protoKeyed)
  /\ trace (worldOf protoKeyed)
     = [EvFetch {| target := Direct quoteUrl; headers := None |}]
  /\ trace (worldOf tokenKeyed)
     = [EvFetch {| target := Direct quoteUrl; headers := Some [("X-Token", "secret")] |}].
Proof.
  split; [repeat split; try reflexivity; discriminate|].
  repeat split; vm_compute; reflexivity.
Qed.

Lemma failure_invalidates_witness :
  is_Some (responseCache (worldOf beforeBreakdown)
             !! Cache.generateCacheKey parseSimpleURL compareCodeUnits quoteUrl None None)
  /\ afterBreakdown = Some (resultOf afterBreakdown, worldOf afterBreakdown)
  /\ data (resultOf afterBreakdown) = JNull
  /\ error (resultOf afterBreakdown) = Some "boom"
  /\ responseCache (worldOf afterBreakdown)
       !! Cache.generateCacheKey parseSimpleURL compareCodeUnits quoteUrl None None = None.
Proof.
  assert (Hrun : afterBreakdown = Some (resultOf afterBreakdown, worldOf afterBreakdown))
    by (vm_compute; reflexivity).
  assert (Hdata : data (resultOf afterBreakdown) = JNull) by (vm_compute; reflexivity).
  assert (Herror : error (resultOf afterBreakdown) = Some "boom") by (vm_compute; reflexivity).
  split; [vm_compute; eauto|]. split; [exact Hrun|]. split; [exact Hdata|].
  split; [exact Herror|].
  refine (proj1 (failure_invalidates parseSimpleURL compareCodeUnits (scripted breakdown)
                   v8Message quoteUrl None None 0 false (Some 300) true
                   0 (worldOf beforeBreakdown) _ _ 300 "boom"
                   eq_refl _ Hrun Hdata Herror _ _)).
  - lia.
  - unfold corsMessage. discriminate.
  - intros n. unfold rateLimitedMessage. simpl. discriminate.
Defined.

Lemma distinctNames_fromTo :
  Cache.distinctNames compareCodeUnits [("from", "USD"); ("to", "EUR")].
Proof.
  intros p q [<-|[<-|[]]] [<-|[<-|[]]]; trivial; vm_compute; intros H1 H2;
    exfalso; first [apply H1; reflexivity | apply H2; reflexivity].
Qed.

Lemma cache_idempotence_witness :
  0 < 300
  /\ populated = Some (resultOf populated, worldOf populated)
  /\ error (resultOf populated) = None /\ fromCache (resultOf populated) = None
  /\ clock (elapse 4000 (worldOf populated)) < timestamp (resultOf populated) + 300 * 1000
  /\ fetchApiData parseSimpleURL compareCodeUnits (scripted outage) v8Message
       quoteUrl None None 0 3 false (Some 300) false (elapse 4000 (worldOf populated))
     = Some ({| data := data (resultOf populated); error := None;
                timestamp := timestamp (resultOf populated); fromCache := Some true;
                cacheAge := Some ((clock (elapse 4000 (worldOf populated))
                                   - timestamp (resultOf populated)) / 1000) |},
             elapse 4000 (worldOf populated))
  /\ Cache.generateCacheKey parseSimpleURL compareCodeUnits toFrom None None
     = Cache.generateCacheKey parseSimpleURL compareCodeUnits fromTo None None.
Proof.
  assert (Hrun : populated = Some (resultOf populated, worldOf populated))
    by (vm_compute; reflexivity).
  assert (Herror : error (resultOf populated) = None) by reflexivity.
  assert (Hfresh : fromCache (resultOf populated) = None) by reflexivity.
  assert (Hlive : clock (elapse 4000 (worldOf populated))
                  < timestamp (resultOf populated) + 300 * 1000) by (vm_compute; reflexivity).
  split; [lia|]. split; [exact Hrun|]. split; [exact Herror|]. split; [exact Hfresh|].
  split; [exact Hlive|]. split.
  - destruct (cache_idempotence parseSimpleURL compareCodeUnits (scripted outage) v8Message
                quoteUrl None None 0 3 false false 300 emptyWorld _ _ ltac:(lia) Hrun)
      as (Hhit & _ & _).
    destruct (Hhit Herror Hfresh) as [Hstored Hagain].
    apply Hagain; trivial; lia.
  - assert (Hconvert : run [NetResponse (jsonResponse 200 quoteBody) 10]
                         fromTo None None 0 3 false (Some 300) false emptyWorld
                       = Some (fresh quoteBody 10,
                               worldOf (run [NetResponse (jsonResponse 200 quoteBody) 10]
                                          fromTo None None 0 3 false (Some 300) false
                                          emptyWorld)))
      by (vm_compute; reflexivity).
    destruct (cache_idempotence parseSimpleURL compareCodeUnits
                (scripted [NetResponse (jsonResponse 200 quoteBody) 10]) v8Message
                fromTo None None 0 3 false false 300 emptyWorld _ _ ltac:(lia) Hconvert)
      as (_ & Horder & _).
    apply (Horder toFrom
             {| origin := "https://api.example.com"; pathname := "/convert";
                searchParams := [("from", "USD"); ("to", "EUR")] |}
             {| origin := "https://api.example.com"; pathname := "/convert";
                searchParams := [("to", "EUR"); ("from", "USD")] |});
      try reflexivity.
    + apply KeyFacts.compareCodeUnits_consistent.
    + apply perm_swap.
    + apply distinctNames_fromTo.
Defined.

(** C1 as the specification words it fails twice.  A refresh with
    [bypassCache = true] sends nothing while the origin is blocked: it
    returns the rate-limit notice and leaves the trace as it was.  And two
    urls that carry the same parameters in different order get different
    keys when a parameter name repeats. *)
Lemma bypass_blocked_sends_nothing :
  refreshed = Some (failed (rateLimitedMessage 120) 20, worldOf throttled)
  /\ trace (worldOf refreshed) = trace (worldOf throttled)
  /\ option_map searchParams (parseSimpleURL tagsAB) = Some [("tag", "a"); ("tag", "b")]
  /\ option_map searchParams (parseSimpleURL tagsBA) = Some [("tag", "b"); ("tag", "a")]
  /\ Cache.generateCacheKey parseSimpleURL compareCodeUnits tagsAB None None
     <> Cache.generateCacheKey parseSimpleURL compareCodeUnits tagsBA None None.
Proof.
  split; [vm_compute; reflexivity|]. split; [vm_compute; reflexivity|].
  split; [reflexivity|]. split; [reflexivity|].
  vm_compute. discriminate.
Qed.

(** C2 as the specification words it fails: the refresh that is stopped
    by the rate-limit check returns a failure, and the entry an earlier
    call stored is still served afterwards. *)
Lemma blocked_failure_keeps_entry :
  responseCache (worldOf populated)
    !! Cache.generateCacheKey parseSimpleURL compareCodeUnits quoteUrl None None
  = Some {| Cache.data := quoteBody; Cache.timestamp := 10;
            Cache.expiresAt := 300010; Cache.url := quoteUrl |}
  /\ isFailure (resultOf refreshed)
  /\ fst (Cache.getCachedData (clock (worldOf refreshed))
            (Cache.generateCacheKey parseSimpleURL compareCodeUnits quoteUrl None None)
            (responseCache (worldOf refreshed)))
     = Some {| Cache.data := quoteBody; Cache.timestamp := 10;
               Cache.expiresAt := 300010; Cache.url := quoteUrl |}.
Proof.
  split; [vm_compute; reflexivity|]. split.
  - split; [eexists|]; vm_compute; reflexivity.
  - vm_compute. reflexivity.
Qed.

(** *** The further properties at work on the sample platform *)

Lemma no_ttl_no_cache_witness :
  (forall ttl, @None Z = Some ttl -> ttl <= 0)
  /\ responseCache
       (worldOf (run [] quoteUrl None None 0 2 false None false (worldOf populated)))
     = responseCache (worldOf populated).
Proof.
  assert (Httl : forall ttl, @None Z = Some ttl -> ttl <= 0) by discriminate.
  split; [exact Httl|].
  refine (proj1 (no_ttl_no_cache parseSimpleURL compareCodeUnits (scripted []) v8Message
                   quoteUrl None None 2 false None false 0 (worldOf populated) _ _ Httl _)).
  vm_compute. reflexivity.
Defined.


Lemma soft_error_fails_witness :
  truthy (JStr alphaNote) = true
  /\ exists msg w',
       run alphaThrottled alphaUrl None None 0 3 false (Some 300) false emptyWorld
       = Some (failed msg 10, w')
       /\ msg = "Alpha Vantage API Error: " +:+ alphaNote +:+ thankYouHelp.
Proof.
  split; [reflexivity|].
  destruct (soft_error_fails parseSimpleURL compareCodeUnits (scripted alphaThrottled)
              v8Message alphaUrl None None 3 false (Some 300) false
              0 emptyWorld emptyWorld
              (jsonResponse 200 (JObj [("Note", JStr alphaNote)])) 10%N
              (JObj [("Note", JStr alphaNote)]))
    as (msg & Hrun & _ & _ & Hmsg); try reflexivity.
  - apply reaches_at_start. vm_compute. eauto.
  - exists msg. eexists. split; [exact Hrun|]. exact (Hmsg alphaNote eq_refl).
Defined.

Lemma long_block_single_request_witness :
  parseInt "120" = Int 120 /\ 60 < 120
  /\ exists w',
       run longBlock quoteUrl None None 0 3 false None false emptyWorld
       = Some (failed (rateLimitedMessage 60) 60010, w')
       /\ trace w' = [EvFetch (request quoteUrl None None false); EvSleep 60000].
Proof.
  split; [reflexivity|]. split; [lia|].
  destruct (long_block_single_request parseSimpleURL compareCodeUnits (scripted longBlock)
              v8Message quoteUrl None None 3 false None false
              0 emptyWorld emptyWorld
              {| origin := "https://api.example.com"; pathname := "/quote";
                 searchParams := [("symbol", "AAPL")] |}
              (tooManyRequests "120") 10%N "120" 120)
    as (w' & Hrun & Htrace & _); try reflexivity; try lia.
  - apply reaches_at_start. vm_compute. eauto.
  - exists w'. split; [exact Hrun | exact Htrace].
Defined.

Lemma short_block_retries_witness :
  parseInt "1" = Int 1 /\ 1 <= 60
  /\ exists r w' rest,
       run shortBlock quoteUrl None None 0 3 false None false emptyWorld = Some (r, w')
       /\ trace w'
          = EvFetch (request quoteUrl None None false) :: EvSleep 1000
            :: EvFetch (request quoteUrl None None false) :: rest.
Proof.
  split; [reflexivity|]. split; [lia|].
  destruct (short_block_retries parseSimpleURL compareCodeUnits (scripted shortBlock)
              v8Message quoteUrl None None 3 false None false
              0 emptyWorld emptyWorld
              {| origin := "https://api.example.com"; pathname := "/quote";
                 searchParams := [("symbol", "AAPL")] |}
              (tooManyRequests "1") 10%N 1010)
    as (r & w' & rest & Hrun & Htrace); try reflexivity; try lia.
  - apply reaches_at_start. vm_compute. eauto.
  - left. exists "1", 1. repeat split; try reflexivity. lia.
  - exists r, w', rest. split; [exact Hrun | exact Htrace].
Defined.

Lemma invalid_url_fails_witness :
  parseSimpleURL "not a url" = None
  /\ includes "fetch" (v8Message InvalidURL) = false
  /\ run [] "not a url" None None 0 3 false (Some 300) false emptyWorld
     = Some (failed (v8Message InvalidURL) 0, emptyWorld).
Proof.
  split; [reflexivity|]. split; [reflexivity|].
  refine (proj1 (invalid_url_fails parseSimpleURL compareCodeUnits (scripted []) v8Message
                   "not a url" None None 3 false (Some 300) false
                   0 emptyWorld emptyWorld eq_refl eq_refl _)).
  vm_compute. reflexivity.
Defined.

Lemma request_budget_witness :
  afterBreakdown = Some (resultOf afterBreakdown, worldOf afterBreakdown)
  /\ exists new,
       trace (worldOf afterBreakdown) = trace (worldOf beforeBreakdown) ++ new
       /\ (List.length (requests new) <= List.length (sleeps new) + 2)%nat.
Proof.
  assert (Hrun : afterBreakdown = Some (resultOf afterBreakdown, worldOf afterBreakdown))
    by (vm_compute; reflexivity).
  split; [exact Hrun|].
  destruct (request_budget parseSimpleURL compareCodeUnits (scripted breakdown) v8Message
              quoteUrl None None 0 false (Some 300) true
              0 (worldOf beforeBreakdown) _ _ Hrun) as (new & Ht & Hreq & _).
  exists new. split; [exact Ht | exact Hreq].
Defined.

Lemma response_shape_witness :
  populated = Some (resultOf populated, worldOf populated)
  /\ (fromCache (resultOf populated) = None ->
      timestamp (resultOf populated) = clock (worldOf populated)
      /\ cacheAge (resultOf populated) = None).
Proof.
  assert (Hrun : populated = Some (resultOf populated, worldOf populated))
    by (vm_compute; reflexivity).
  split; [exact Hrun|].
  exact (proj1 (proj2 (response_shape parseSimpleURL compareCodeUnits (scripted outage)
                         v8Message quoteUrl None None 3 false (Some 300) false
                         0 emptyWorld _ _ Hrun))).
Defined.

Lemma proxy_envelope_witness :
  truthy (getProp "data" zeroEnvelope) = false
  /\ (exists r w' entry,
        fetchApiData parseSimpleURL compareCodeUnits proxyOnly v8Message
                     quoteUrl None None 0 3 true (Some 300) false emptyWorld = Some (r, w')
        /\ data r = zeroEnvelope /\ error r = None
        /\ responseCache w'
             !! Cache.generateCacheKey parseSimpleURL compareCodeUnits quoteUrl None None
           = Some entry
        /\ Cache.data entry = zeroEnvelope)
  /\ (exists r w' entry,
        fetchApiData parseSimpleURL compareCodeUnits proxyOnly v8Message
                     quoteUrl None None 0 3 false (Some 300) false emptyWorld = Some (r, w')
        /\ data r = JNum 0 /\ error r = None
        /\ responseCache w'
             !! Cache.generateCacheKey parseSimpleURL compareCodeUnits quoteUrl None None
           = Some entry
        /\ Cache.data entry = JNum 0).
Proof.
  split; [reflexivity|].
  destruct (proxy_envelope parseSimpleURL compareCodeUnits proxyOnly v8Message
              quoteUrl None None 0 3 (Some 300) false emptyWorld emptyWorld
              (jsonResponse 200 zeroEnvelope) zeroEnvelope)
    as [Hproxy Hfallback]; try reflexivity; try discriminate.
  - apply reaches_at_start. vm_compute. eauto.
  - split.
    + destruct (Hproxy 7%N eq_refl) as (r & w' & Hrun & Hdata & Herror & Hstore).
      destruct (Hstore 300 eq_refl ltac:(lia)) as (entry & Hlook & Hentry).
      exists r, w', entry. auto.
    + destruct (Hfallback (mkExn true "Failed to fetch") 5%N 7%N eq_refl eq_refl eq_refl
                  eq_refl) as (r & w' & Hrun & Hdata & Herror & Hstore).
      destruct (Hstore 300 eq_refl ltac:(lia)) as (entry & Hlook & Hentry).
      exists r, w', entry. auto.
Defined.

Lemma key_prefix_shares_cache_witness :
  take 8 keyOne = take 8 keyTwo
  /\ Cache.generateCacheKey parseSimpleURL compareCodeUnits quoteUrl (Some keyTwo) None
     = Cache.generateCacheKey parseSimpleURL compareCodeUnits quoteUrl (Some keyOne) None.
Proof.
  split; [reflexivity|].
  refine (proj1 (key_prefix_shares_cache parseSimpleURL compareCodeUnits (scripted [])
                   v8Message quoteUrl keyOne keyTwo None _ _ eq_refl)); discriminate.
Defined.

End FetchFacts.

(** ** The cache beyond single lookups: statistics, ages, bulk removal *)

Module StoreFacts.
Import JS Web Cache.
Local Open Scope list_scope.
Local Open Scope Z_scope.

Lemma cleanup_lookup now (c : Store) key e :
  cleanupExpiredCache now c !! key = Some e <-> c !! key = Some e /\ now < expiresAt e.
Proof. unfold cleanupExpiredCache. rewrite map_lookup_filter_Some. reflexivity. Qed.

Lemma cleanup_lookup_None now (c : Store) key :
  cleanupExpiredCache now c !! key = None
  <-> c !! key = None \/ exists e, c !! key = Some e /\ expiresAt e <= now.
Proof.
  destruct (cleanupExpiredCache now c !! key) as [e|] eqn:Hclean.
  - apply cleanup_lookup in Hclean as [Hlook Hlive]. split; [discriminate|].
    intros [Hnone|(e' & Hsome & Hdead)]; [congruence|].
    assert (e' = e) by congruence. subst. lia.
  - split; [intros _|reflexivity].
    destruct (c !! key) as [e|] eqn:Hlook; [|now left]. right. exists e.
    split; [reflexivity|]. destruct (Z.lt_ge_cases now (expiresAt e)) as [Hlive|Hdead]; [|lia].
    assert (Hsome : cleanupExpiredCache now c !! key = Some e) by now apply cleanup_lookup.
    congruence.
Qed.

(** The two counters of the statistics loop add up to the number of
    entries, and the second counts what a sweep at the same instant
    keeps. *)
Lemma counts_fold now (c : Store) :
  let counts := map_fold (fun _ entry => countEntry now entry) (0, 0) c in
  fst counts + snd counts = Z.of_nat (size c)
  /\ 0 <= fst counts
  /\ snd counts = Z.of_nat (size (cleanupExpiredCache now c)).
Proof.
  cbn zeta. apply (map_fold_weak_ind (fun counts (m : Store) =>
    fst counts + snd counts = Z.of_nat (size m)
    /\ 0 <= fst counts
    /\ snd counts = Z.of_nat (size (cleanupExpiredCache now m)))).
  - unfold cleanupExpiredCache. rewrite map_filter_empty, map_size_empty. simpl. lia.
  - intros key entry m counts Hfresh (Hsum & Hpos & Hvalid).
    unfold countEntry, cleanupExpiredCache in *.
    rewrite (map_size_insert_None _ _ _ Hfresh).
    destruct (Z.geb_spec now (expiresAt entry)) as [Hdead|Hlive]; cbn [fst snd].
    + rewrite map_filter_insert_False by (simpl; lia).
      rewrite (delete_id _ _ Hfresh). lia.
    + rewrite map_filter_insert_True by (simpl; lia).
      rewrite map_size_insert_None; [lia|].
      apply map_lookup_filter_None. now left.
Qed.

Lemma counts_live now (c : Store) :
  (forall key e, c !! key = Some e -> now < expiresAt e) ->
  map_fold (fun _ entry => countEntry now entry) (0, 0) c = (0, Z.of_nat (size c)).
Proof.
  apply (map_fold_weak_ind (fun counts (m : Store) =>
    (forall key e, m !! key = Some e -> now < expiresAt e) ->
    counts = (0, Z.of_nat (size m)))).
  - intros _. now rewrite map_size_empty.
  - intros key entry m counts Hfresh IH Hlive.
    rewrite IH.
    + unfold countEntry. rewrite (map_size_insert_None _ _ _ Hfresh).
      pose proof (Hlive key entry (lookup_insert_eq _ _ _)) as Hentry.
      destruct (Z.geb_spec now (expiresAt entry)); [lia|]. cbn [fst snd].
      f_equal. lia.
    + intros k e Hlook. apply (Hlive k e).
      rewrite lookup_insert_ne; [assumption|]. intros ->. congruence.
Qed.

(** X1.  [getCacheStats] splits the entries into expired and valid ones, and a
    sweep by [cleanupExpiredCache] at the same instant leaves exactly the
    valid ones: afterwards the statistics show no expired entry and the
    same valid count. *)
Theorem stats_partition (now : Z) (c : Store) :
  let s := getCacheStats now c in
  totalEntries s = expiredEntries s + validEntries s
  /\ 0 <= expiredEntries s /\ 0 <= validEntries s
  /\ getCacheStats now (cleanupExpiredCache now c)
     = {| totalEntries := validEntries s; expiredEntries := 0;
          validEntries := validEntries s |}.
Proof.
  cbn zeta. unfold getCacheStats. cbn [totalEntries expiredEntries validEntries].
  destruct (counts_fold now c) as (Hsum & Hpos & Hvalid).
  split; [lia|]. split; [assumption|]. split; [lia|].
  rewrite counts_live.
  - cbn [fst snd]. now rewrite Hvalid.
  - intros key e Hlook. now apply cleanup_lookup in Hlook.
Qed.

(** X2.  A sweep at [now] is invisible to every lookup made at [now] or later:
    [getCachedData] and [getCacheAge] answer as they would have without
    it.  What the sweep keeps is unexpired, and a later sweep makes an
    earlier one redundant. *)
Theorem cleanup_invisible (now later : Z) (key : string) (c : Store) :
  now <= later ->
  fst (getCachedData later key (cleanupExpiredCache now c)) = fst (getCachedData later key c)
  /\ getCacheAge later key (cleanupExpiredCache now c) = getCacheAge later key c
  /\ cleanupExpiredCache later (cleanupExpiredCache now c) = cleanupExpiredCache later c
  /\ (forall k e, cleanupExpiredCache now c !! k = Some e ->
                  c !! k = Some e /\ now < expiresAt e).
Proof.
  intros Hlater.
  assert (Hsame : forall e, c !! key = Some e -> later < expiresAt e ->
                            cleanupExpiredCache now c !! key = Some e).
  { intros e Hlook Hlive. apply cleanup_lookup. split; [assumption | lia]. }
  split; [|split; [|split]].
  - unfold getCachedData at 2. destruct (c !! key) as [e|] eqn:Hlook.
    + destruct (Z.geb_spec later (expiresAt e)) as [Hdead|Hlive].
      * unfold getCachedData.
        destruct (cleanupExpiredCache now c !! key) as [e'|] eqn:Hclean; [|reflexivity].
        apply cleanup_lookup in Hclean as [Hlook' _].
        assert (e' = e) by congruence. subst.
        destruct (Z.geb_spec later (expiresAt e)); [reflexivity | lia].
      * unfold getCachedData. rewrite (Hsame e eq_refl Hlive).
        destruct (Z.geb_spec later (expiresAt e)); [lia | reflexivity].
    + unfold getCachedData.
      rewrite (proj2 (cleanup_lookup_None now c key)) by now left. reflexivity.
  - unfold getCacheAge at 2. destruct (c !! key) as [e|] eqn:Hlook.
    + destruct (Z.geb_spec later (expiresAt e)) as [Hdead|Hlive].
      * unfold getCacheAge.
        destruct (cleanupExpiredCache now c !! key) as [e'|] eqn:Hclean; [|reflexivity].
        apply cleanup_lookup in Hclean as [Hlook' _].
        assert (e' = e) by congruence. subst.
        destruct (Z.geb_spec later (expiresAt e)); [reflexivity | lia].
      * unfold getCacheAge. rewrite (Hsame e eq_refl Hlive).
        destruct (Z.geb_spec later (expiresAt e)); [lia | reflexivity].
    + unfold getCacheAge.
      rewrite (proj2 (cleanup_lookup_None now c key)) by now left. reflexivity.
  - apply map_eq. intros k.
    destruct (cleanupExpiredCache later c !! k) as [e|] eqn:Hclean.
    + apply cleanup_lookup in Hclean as [Hlook Hlive].
      apply cleanup_lookup. split; [|assumption]. apply cleanup_lookup. split; [assumption | lia].
    + apply cleanup_lookup_None.
      apply cleanup_lookup_None in Hclean as [Hnone|(e & Hlook & Hdead)].
      * left. apply cleanup_lookup_None. now left.
      * destruct (cleanupExpiredCache now c !! k) as [e'|] eqn:Hfirst; [|now left].
        right. exists e'. split; [reflexivity|].
        apply cleanup_lookup in Hfirst as [Hlook' _]. congruence.
  - intros k e. apply cleanup_lookup.
Qed.

Lemma cleanup_invisible_witness :
  5 <= 7
  /\ fst (getCachedData 7 "k"
            (cleanupExpiredCache 5 (setCachedData 0 "k" JNull 6 "u" ∅)))
     = fst (getCachedData 7 "k" (setCachedData 0 "k" JNull 6 "u" ∅)).
Proof.
  split; [lia|].
  exact (proj1 (cleanup_invisible 5 7 "k" (setCachedData 0 "k" JNull 6 "u" ∅) ltac:(lia))).
Defined.

(** X3.  [getCacheAge] answers exactly when [getCachedData] hits.  For an entry
    stored at [t0] with a TTL of [T] seconds and asked for at an instant
    from [t0] up to its expiry, the age is the whole seconds since [t0],
    at least zero and below [T]. *)
Theorem cache_age_bounds (t0 T now : Z) (key : string) (d : JSValue) (u : string)
    (c : Store) :
  t0 <= now -> now < t0 + T * 1000 ->
  getCacheAge now key (setCachedData t0 key d T u c) = Some ((now - t0) / 1000)
  /\ 0 <= (now - t0) / 1000 < T
  /\ (forall c' k t, getCacheAge t k c' = None <-> fst (getCachedData t k c') = None).
Proof.
  intros Hfrom Hto. split; [|split].
  - unfold getCacheAge, setCachedData. rewrite lookup_insert_eq. cbn [expiresAt timestamp].
    destruct (Z.geb_spec now (t0 + T * 1000)); [lia | reflexivity].
  - split; [apply Z.div_pos; lia|]. apply Z.div_lt_upper_bound; lia.
  - intros c' k t. unfold getCacheAge, getCachedData.
    destruct (c' !! k) as [e|]; [|tauto].
    destruct (t >=? expiresAt e); cbn [fst]; split; (reflexivity || discriminate).
Qed.

Lemma cache_age_bounds_witness :
  (0 <= 4500 /\ 4500 < 0 + 5 * 1000)
  /\ getCacheAge 4500 "k" (setCachedData 0 "k" JNull 5 "u" ∅) = Some 4.
Proof.
  split; [lia|].
  exact (proj1 (cache_age_bounds 0 5 4500 "k" JNull "u" ∅ ltac:(lia) ltac:(lia))).
Defined.

(** X4.  [clearCacheByUrlPattern] removes the entries whose url contains the
    pattern, and only those.  The empty pattern is contained in every url,
    so it empties the cache; and the url an entry was stored for always
    removes that entry. *)
Theorem clear_by_pattern (pattern : string) (c : Store) :
  (forall key,
      clearCacheByUrlPattern pattern c !! key
      = match c !! key with
        | Some e => if includes pattern (url e) then None else Some e
        | None => None
        end)
  /\ clearCacheByUrlPattern EmptyString c = ∅
  /\ (forall now key d ttl u,
        clearCacheByUrlPattern u (setCachedData now key d ttl u c) !! key = None).
Proof.
  assert (Hlookup : forall p (m : Store) key,
             clearCacheByUrlPattern p m !! key
             = match m !! key with
               | Some e => if includes p (url e) then None else Some e
               | None => None
               end).
  { intros p m key. unfold clearCacheByUrlPattern.
    destruct (m !! key) as [e|] eqn:Hlook.
    - destruct (includes p (url e)) eqn:Hin.
      + apply map_lookup_filter_None. right. intros e' He'. simpl.
        assert (e' = e) by congruence. subst. congruence.
      + apply map_lookup_filter_Some. auto.
    - apply map_lookup_filter_None. now left. }
  split; [apply Hlookup|]. split.
  - apply map_eq. intros key. rewrite Hlookup, lookup_empty.
    destruct (c !! key) as [e|]; [|reflexivity]. now rewrite TextFacts.includes_empty.
  - intros now key d ttl u. rewrite Hlookup. unfold setCachedData.
    rewrite lookup_insert_eq. cbn [url]. now rewrite TextFacts.includes_refl.
Qed.

End StoreFacts.

(** ** Paths: how they compose, and what the field selector offers *)

Module FieldFacts.
Import JS Web Api.
Local Open Scope list_scope.

Import CurrencyFacts.

(** *** Paths *)

(** X15.  Resolving [p.q] is resolving [p] and then [q] from what that gave;
    once a path has led to [undefined], every continuation does. *)
Theorem path_composition (obj : Any) (p q : string) :
  exists v,
    getNestedValue obj p = inr v
    /\ getNestedValue obj (p +:+ "." +:+ q) = getNestedValue v q
    /\ (v = Data JUndefined ->
        getNestedValue obj (p +:+ "." +:+ q) = inr (Data JUndefined)).
Proof.
  destruct (PathFacts.resolve_total (split "."%char p) obj) as [v Hv]. exists v.
  assert (Hcompose : getNestedValue obj (p +:+ "." +:+ q) = getNestedValue v q).
  { unfold getNestedValue. change ("." +:+ q) with (String "."%char q).
    rewrite TextFacts.split_app. now apply PathFacts.resolve_app. }
  split; [exact Hv|]. split; [exact Hcompose|].
  intros ->. rewrite Hcompose. apply PathFacts.resolve_undefined.
Qed.

Lemma bracket_split name i :
  includes "[" name = false -> includes "[" i = false ->
  forall more,
    includes "[" (name +:+ "[" +:+ i +:+ more) = true
    /\ exists tail, split "["%char (name +:+ "[" +:+ i +:+ more) = name :: tail
       /\ (more = EmptyString -> tail = [i])
       /\ (forall m, more = String "["%char m -> exists tail', tail = i :: tail').
Proof.
  intros Hname Hi more. split.
  - change ("[" +:+ i +:+ more) with (String "["%char (i +:+ more)).
    rewrite TextFacts.includes_char_app, TextFacts.includes_char, Ascii.eqb_refl.
    now rewrite orb_true_r.
  - change ("[" +:+ i +:+ more) with (String "["%char (i +:+ more)).
    rewrite TextFacts.split_app, (TextFacts.split_plain _ _ Hname).
    exists (split "["%char (i +:+ more)). split; [reflexivity|]. split.
    + intros ->. rewrite TextFacts.append_nil_r. now apply TextFacts.split_plain.
    + intros m ->. rewrite TextFacts.split_app, (TextFacts.split_plain _ _ Hi).
      eexists. reflexivity.
Qed.

(** X16.  In a path segment everything from a second [[] on is ignored: a
    segment such as [m[1][2]] reads [m[1]]. *)
Theorem second_index_ignored (name i more : string) (rest : list string)
    (current : Any) :
  includes "[" name = false -> includes "[" i = false ->
  resolve ((name +:+ "[" +:+ i +:+ "[" +:+ more) :: rest) current
  = resolve ((name +:+ "[" +:+ i) :: rest) current.
Proof.
  intros Hname Hi.
  destruct (bracket_split name i Hname Hi (String "["%char more))
    as (Hin2 & tail2 & Hs2 & _ & Htail2).
  destruct (bracket_split name i Hname Hi EmptyString) as (Hin1 & tail1 & Hs1 & Htail1 & _).
  rewrite TextFacts.append_nil_r in Hin1, Hs1.
  change ("[" +:+ more) with (String "["%char more).
  destruct (Htail2 more eq_refl) as [tail' ->]. rewrite (Htail1 eq_refl) in Hs1.
  cbn [resolve]. rewrite Hin1, Hin2, Hs1, Hs2. reflexivity.
Qed.

Lemma second_index_ignored_witness :
  (includes "[" "m" = false /\ includes "[" "1]" = false)
  /\ getNestedValue (JObj [("m", JArr [JArr [JNum 1; JNum 2]; JArr [JNum 3; JNum 4]])])
       "m[1][0]"
     = getNestedValue (JObj [("m", JArr [JArr [JNum 1; JNum 2]; JArr [JNum 3; JNum 4]])])
         "m[1]".
Proof.
  split; [split; reflexivity|].
  exact (second_index_ignored "m" "1]" "0]" []
           (JObj [("m", JArr [JArr [JNum 1; JNum 2]; JArr [JNum 3; JNum 4]])])
           eq_refl eq_refl).
Defined.

(** *** The field selector *)

Lemma extract_object_cons k x rest prefix b :
  extractFieldsFromJson (JObj ((k, x) :: rest)) prefix b
  = mkField (pathUnder prefix k) (fst (describe x)) (snd (describe x))
            (childFields x (pathUnder prefix k) b)
    :: extractFieldsFromJson (JObj rest) prefix b.
Proof.
  cbn [extractFieldsFromJson]. destruct x as [| |b0|n|s|items|fields]; reflexivity.
Qed.

Lemma offered_cons f fs : offered (f :: fs) = allFields f ++ offered fs.
Proof. reflexivity. Qed.

Lemma allFields_field p v t c :
  allFields (mkField p v t c)
  = mkField p v t c :: match c with Some cs => offered cs | None => [] end.
Proof. destruct c; reflexivity. Qed.

Lemma plainKey_inv k :
  plainKey k = true ->
  k <> EmptyString /\ includes "." k = false /\ includes "[" k = false.
Proof.
  unfold plainKey. intros [[Hk Hdot%negb_true_iff]%andb_true_iff Hbr%negb_true_iff]%andb_true_iff.
  split; [|auto]. intros ->. discriminate Hk.
Qed.

Lemma distinct_assoc (fields : list (string * JSValue)) :
  distinct (List.map fst fields) = true ->
  forall k x, In (k, x) fields -> assoc k fields = Some x.
Proof.
  induction fields as [|[k0 x0] rest IH]; intros Hd k x; [intros []|].
  cbn [List.map fst distinct] in Hd.
  apply andb_true_iff in Hd as [Hfresh%negb_true_iff Hrest].
  intros [[= -> ->]|Hin]; cbn [assoc].
  - now rewrite String.eqb_refl.
  - destruct (String.eqb_spec k k0) as [->|_]; [|now apply IH].
    assert (Hex : existsb (String.eqb k0) (List.map fst rest) = true).
    { apply existsb_exists. exists k0. split; [|apply String.eqb_refl].
      apply in_map_iff. now exists (k0, x). }
    congruence.
Qed.

Lemma plainKeys_object fields :
  plainKeys (JObj fields) = true ->
  distinct (List.map fst fields) = true
  /\ forall k x, In (k, x) fields -> plainKey k = true /\ plainKeys x = true.
Proof.
  cbn [plainKeys]. intros [Hd Hall]%andb_true_iff. split; [exact Hd|]. clear Hd.
  induction fields as [|[k0 x0] rest IH]; intros k x; [intros []|].
  apply andb_true_iff in Hall as [[Hk Hx]%andb_true_iff Hrest].
  intros [[= -> ->]|Hin]; [auto | now apply IH].
Qed.

Lemma plainKeys_first first more :
  plainKeys (JArr (first :: more)) = true -> plainKeys first = true.
Proof. cbn [plainKeys]. now intros [H _]%andb_true_iff. Qed.

Lemma flatArrays_object fields :
  flatArrays (JObj fields) = true ->
  forall k x, In (k, x) fields -> flatArrays x = true.
Proof.
  cbn [flatArrays]. induction fields as [|[k0 x0] rest IH]; intros Hall k x; [intros []|].
  apply andb_true_iff in Hall as [Hx Hrest].
  intros [[= -> ->]|Hin]; [auto | now apply (IH Hrest k)].
Qed.

Lemma flatArrays_first first more :
  flatArrays (JArr (first :: more)) = true ->
  isArray first = false /\ flatArrays first = true.
Proof.
  cbn [flatArrays]. intros [Hfirst%negb_true_iff [H _]%andb_true_iff]%andb_true_iff. auto.
Qed.

(** One step of the walk through a plain key, and through a plain key
    followed by the index of the first element. *)
Lemma resolve_plain_step k x fields rest :
  plainKey k = true -> assoc k fields = Some x ->
  resolve (k :: rest) (JObj fields) = resolve rest x.
Proof.
  intros (_ & _ & Hbr)%plainKey_inv Hassoc. cbn [resolve]. rewrite Hbr.
  rewrite PathFacts.lookup_member. cbn [memberOf]. unfold member. cbn [ownProperty].
  now rewrite Hassoc.
Qed.

Lemma resolve_first_step k first more fields rest :
  plainKey k = true -> assoc k fields = Some (JArr (first :: more)) ->
  first <> JUndefined ->
  resolve ((k +:+ "[0]") :: rest) (JObj fields) = resolve rest first.
Proof.
  intros (_ & _ & Hbr)%plainKey_inv Hassoc Hdef.
  destruct (bracket_split k "0]" Hbr eq_refl EmptyString) as (Hin & tail & Hs & Htail & _).
  rewrite TextFacts.append_nil_r in Hin, Hs. rewrite (Htail eq_refl) in Hs.
  change (k +:+ "[" +:+ "0]") with (k +:+ "[0]") in Hin, Hs.
  cbn [resolve]. rewrite Hin, Hs.
  rewrite PathFacts.lookup_member. cbn [memberOf]. unfold member. cbn [ownProperty].
  rewrite Hassoc. cbn [element].
  change (getIndex (parseInt10 (removeFirst "]"%char "0]")) (first :: more)) with first.
  destruct first; try reflexivity. contradiction.
Qed.

Lemma pathUnder_truthy prefix k : k <> EmptyString -> truthyStr (pathUnder prefix k) = true.
Proof.
  intros Hk. unfold pathUnder. destruct (truthyStr prefix) eqn:Hp.
  - destruct prefix; [discriminate | reflexivity].
  - destruct k; [contradiction | reflexivity].
Qed.

Lemma pathUnder_app prefix k t : pathUnder prefix (k +:+ t) = pathUnder prefix k +:+ t.
Proof.
  unfold pathUnder. destruct (truthyStr prefix); [|reflexivity].
  now rewrite !TextFacts.append_assoc.
Qed.

Lemma located_root root : located root EmptyString root.
Proof.
  intros seg rest Hseg. unfold pathUnder. cbn [truthyStr String.eqb negb].
  now rewrite (TextFacts.split_plain _ _ Hseg).
Qed.

Lemma located_under root prefix obj seg :
  located root prefix obj -> seg <> EmptyString -> includes "." seg = false ->
  forall x : JSValue, (forall rest, resolve (seg :: rest) obj = resolve rest x) ->
  located root (pathUnder prefix seg) x.
Proof.
  intros Hloc Hne Hseg x Hstep seg' rest Hseg'.
  unfold pathUnder at 1. rewrite (pathUnder_truthy prefix seg Hne).
  change ("." +:+ seg') with (String "."%char seg').
  rewrite TextFacts.split_app, (TextFacts.split_plain _ _ Hseg'), <- app_assoc.
  cbn [app]. rewrite (Hloc seg (seg' :: rest) Hseg). apply Hstep.
Qed.

(** In a payload with plain keys and without arrays of arrays, the
    fields under an object that [prefix] leads to are faithful. *)
Lemma object_fields_faithful root : forall v,
  let Q := fun x =>
    forall fields, x = JObj fields ->
    plainKeys x = true -> flatArrays x = true ->
    forall prefix b, located root prefix x ->
    forall f, In f (offered (extractFieldsFromJson x prefix b)) -> faithful root f in
  Q v /\ (forall first more, v = JArr (first :: more) -> Q first).
Proof.
  induction v as [| | b0 | n | s | items IH | fields IH] using JSValue_nested_ind;
    cbn zeta.
  1-5: split; [intros fields0 [=] | intros first more [=]].
  - split; [intros fields0 [=]|]. intros first more [= ->].
    inversion IH as [|? ? [Hfirst _] _]. exact Hfirst.
  - split; [|intros first more [=]].
    intros fields' [= <-] Hplain Hflat prefix b Hloc.
    destruct (plainKeys_object _ Hplain) as [Hd Hkeys].
    pose proof (distinct_assoc _ Hd) as Hassoc.
    pose proof (flatArrays_object _ Hflat) as Hflats.
    rewrite List.Forall_forall in IH. cbn zeta in IH.
    enough (Hpart : forall part,
               (forall kv, In kv part -> In kv fields) ->
               forall f, In f (offered (extractFieldsFromJson (JObj part) prefix b)) ->
                         faithful root f)
      by (apply (Hpart fields); auto).
    induction part as [|[k x] rest IHs]; intros Hsub f Hin; [destruct Hin|].
    rewrite extract_object_cons, offered_cons, allFields_field in Hin.
    apply in_app_or in Hin as [Hin|Hin];
      [|apply IHs; [intros kv Hkv; apply Hsub; now right | exact Hin]].
    assert (Hk : In (k, x) fields) by (apply Hsub; now left).
    destruct (Hkeys k x Hk) as [Hpk Hpx]. specialize (Hassoc k x Hk).
    destruct (plainKey_inv k Hpk) as (Hne & Hdot & Hbr).
    assert (Hstep : forall rest', resolve (k :: rest') (JObj fields) = resolve rest' x)
      by (intros rest'; now apply resolve_plain_step).
    destruct Hin as [<-|Hin].
    + exists x. split.
      * unfold getNestedValue. cbn [fieldPath].
        pose proof (Hloc k [] Hdot) as Hpath. rewrite app_nil_r in Hpath.
        rewrite Hpath, Hstep. reflexivity.
      * cbn [fieldValue fieldType]. now destruct (describe x).
    + destruct x as [| |b0|n|s|items|fields0]; cbn [childFields] in Hin; try destruct Hin.
      * destruct items as [|first more]; [destruct Hin|].
        destruct (typeofObject first) eqn:Hto; [|destruct Hin].
        destruct (flatArrays_first _ _ (Hflats k _ Hk)) as [Hnotarr Hflat1].
        pose proof (plainKeys_first _ _ Hpx) as Hplain1.
        destruct (IH (k, JArr (first :: more)) Hk) as [_ Hfirst]. cbn [snd] in Hfirst.
        specialize (Hfirst first more eq_refl).
        destruct first as [| |b0|n|s|items0|fields0]; try discriminate; [destruct Hin|].
        apply (Hfirst _ eq_refl Hplain1 Hflat1 (pathUnder prefix k +:+ "[0]") b); [|exact Hin].
        rewrite <- pathUnder_app. apply (located_under root prefix (JObj fields)); trivial.
        -- destruct k; discriminate.
        -- now rewrite TextFacts.includes_char_app, Hdot.
        -- intros rest'. apply (resolve_first_step k _ more); trivial. discriminate.
      * destruct (IH (k, JObj fields0) Hk) as [Hobj _]. cbn [snd] in Hobj.
        apply (Hobj _ eq_refl Hpx (Hflats k _ Hk) (pathUnder prefix k) b); [|exact Hin].
        now apply (located_under root prefix (JObj fields)).
Qed.

(** X18.  What the field selector offers for an object payload can be read
    back: when the property names are plain (not empty, no [.] or [[],
    distinct) and no array starts with an array, every offered field, at
    any depth, has a path that [getNestedValue] resolves from the payload
    to a value that the field's value and type texts describe. *)
Theorem offered_paths_resolve (fields : list (string * JSValue)) (showArraysOnly : bool)
    (f : FieldMapping) :
  plainKeys (JObj fields) = true -> flatArrays (JObj fields) = true ->
  In f (offered (extractFieldsFromJson (JObj fields) EmptyString showArraysOnly)) ->
  exists v : JSValue,
    getNestedValue (JObj fields) (fieldPath f) = inr (Data v)
    /\ describe v = (fieldValue f, fieldType f).
Proof.
  intros Hplain Hflat Hin.
  destruct (object_fields_faithful (JObj fields) (JObj fields)) as [Hobj _].
  exact (Hobj fields eq_refl Hplain Hflat EmptyString showArraysOnly
              (located_root (JObj fields)) f Hin).
Qed.

Lemma offered_paths_resolve_witness :
  (plainKeys Sample.nestedPayload = true /\ flatArrays Sample.nestedPayload = true)
  /\ exists v : JSValue,
       getNestedValue Sample.nestedPayload "a.b[0].c" = inr (Data v)
       /\ describe v = ("5", "number").
Proof.
  split; [split; reflexivity|].
  refine (offered_paths_resolve
            [("a", JObj [("b", JArr [JObj [("c", JNum 5)]])])] false
            (mkField "a.b[0].c" "5" "number" None) eq_refl eq_refl _).
  cbn. right. right. left. reflexivity.
Defined.

Lemma startsWith_append a b : startsWith a (a +:+ b) = true.
Proof.
  induction a as [|x a IH]; [reflexivity|].
  rewrite TextFacts.append_cons. cbn [startsWith]. now rewrite Ascii.eqb_refl, IH.
Qed.

Lemma startsWith_trans a b c :
  startsWith a b = true -> startsWith b c = true -> startsWith a c = true.
Proof.
  revert b c. induction a as [|x a IH]; intros b c; [reflexivity|].
  destruct b as [|y b]; [discriminate|]. destruct c as [|z c]; [discriminate|].
  cbn [startsWith]. intros [Hxy Hab]%andb_true_iff [Hyz Hbc]%andb_true_iff.
  apply Ascii.eqb_eq in Hxy, Hyz. subst. rewrite Ascii.eqb_refl. cbn [andb]. eauto.
Qed.

Lemma strOr_truthy a b : a <> EmptyString -> strOr a b = a.
Proof. intros Ha. unfold strOr. destruct a; [contradiction | reflexivity]. Qed.

Lemma extract_array_cons first more prefix b :
  extractFieldsFromJson (JArr (first :: more)) prefix b
  = (if negb b
     then [mkField (strOr prefix "root") (arrayLabel (first :: more)) "array" None]
     else [])
    ++ match first with
       | JArr _ | JObj _ => extractFieldsFromJson first (prefix +:+ "[0]") b
       | _ => []
       end.
Proof. destruct first; reflexivity. Qed.

Lemma offered_app l1 l2 : offered (l1 ++ l2) = offered l1 ++ offered l2.
Proof. apply flat_map_app. Qed.

(** Every path offered below a prefix starts with it. *)
Lemma paths_prefixed : forall v prefix b f,
  prefix <> EmptyString ->
  In f (offered (extractFieldsFromJson v prefix b)) ->
  startsWith prefix (fieldPath f) = true.
Proof.
  assert (Hself : forall prefix v t,
             prefix <> EmptyString ->
             startsWith prefix (fieldPath (mkField (strOr prefix "root") v t None)) = true).
  { intros prefix v t Hne. cbn [fieldPath]. rewrite (strOr_truthy _ _ Hne).
    apply TextFacts.startsWith_refl. }
  induction v as [| | b0 | n | s | items IH | fields IH] using JSValue_nested_ind;
    intros prefix b f Hne Hin.
  - destruct Hin.
  - destruct Hin.
  - destruct Hin as [<-|[]]. now apply Hself.
  - destruct Hin as [<-|[]]. now apply Hself.
  - destruct Hin as [<-|[]]. now apply Hself.
  - destruct IH as [|first more Hfirst _].
    + cbn in Hin. destruct (negb b); [|destruct Hin]. destruct Hin as [<-|[]].
      now apply Hself.
    + rewrite extract_array_cons, offered_app in Hin. apply in_app_or in Hin as [Hin|Hin].
      * destruct (negb b); [|destruct Hin]. destruct Hin as [<-|[]]. now apply Hself.
      * apply (startsWith_trans _ (prefix +:+ "[0]")); [apply startsWith_append|].
        assert (Hmore : prefix +:+ "[0]" <> EmptyString)
          by (destruct prefix; [contradiction | discriminate]).
        destruct first; try destruct Hin; now apply (Hfirst _ b).
  - rewrite List.Forall_forall in IH.
    enough (Hpart : forall part,
               (forall kv, In kv part -> In kv fields) ->
               In f (offered (extractFieldsFromJson (JObj part) prefix b)) ->
               startsWith prefix (fieldPath f) = true)
      by (apply (Hpart fields); auto).
    induction part as [|[k x] rest IHs]; intros Hsub Hin'; [destruct Hin'|].
    rewrite extract_object_cons, offered_cons, allFields_field in Hin'.
    apply in_app_or in Hin' as [Hin'|Hin'];
      [|apply IHs; [intros kv Hkv; apply Hsub; now right | exact Hin']].
    assert (Hk : In (k, x) fields) by (apply Hsub; now left).
    assert (Hunder : startsWith prefix (pathUnder prefix k) = true).
    { unfold pathUnder. rewrite (proj2 (FetchFacts.truthyStr_true prefix) Hne).
      apply startsWith_append. }
    assert (Hfull : pathUnder prefix k <> EmptyString).
    { unfold pathUnder. rewrite (proj2 (FetchFacts.truthyStr_true prefix) Hne).
      destruct prefix; [contradiction | discriminate]. }
    destruct Hin' as [<-|Hin']; [exact Hunder|].
    apply (startsWith_trans _ (pathUnder prefix k)); [exact Hunder|].
    pose proof (IH (k, x) Hk) as Hx. cbn [snd] in Hx.
    destruct x as [| |b0|n|s|items|fields0]; cbn [childFields] in Hin'; try destruct Hin'.
    + destruct items as [|first more]; [destruct Hin'|].
      destruct (typeofObject first) eqn:Hto; [|destruct Hin'].
      apply (Hx (pathUnder prefix k) b f Hfull).
      rewrite extract_array_cons, offered_app. apply in_or_app. right.
      destruct first; try discriminate; [destruct Hin' | exact Hin' | exact Hin'].
    + now apply (Hx (pathUnder prefix k) b f Hfull).
Qed.

(** A path that starts with a bracket finds nothing in an array. *)
Lemma bracket_first_dangles items p :
  startsWith "[" p = true -> getNestedValue (JArr items) p = inr (Data JUndefined).
Proof.
  destruct p as [|c p]; [discriminate|]. cbn [startsWith].
  rewrite andb_true_r. intros Hc%Ascii.eqb_eq. subst c.
  unfold getNestedValue. cbn [split]. cbn [Ascii.eqb Bool.eqb andb].
  destruct (split "."%char p) as [|piece pieces] eqn:Hs;
    [now destruct (TextFacts.split_nonempty "."%char p)|].
  cbn [resolve]. rewrite TextFacts.includes_char, Ascii.eqb_refl. cbn [orb split].
  rewrite Ascii.eqb_refl.
  destruct (split "["%char piece) as [|i more] eqn:Hi;
    [now destruct (TextFacts.split_nonempty "["%char piece)|].
  reflexivity.
Qed.

(** X19.  For a payload that is an array the selector offers nothing that can
    be read back from the payload: the path of every offered field, at
    any depth, resolves to [undefined]. *)
Theorem array_payload_paths_dangle (items : list JSValue) (showArraysOnly : bool)
    (f : FieldMapping) :
  In f (offered (extractFieldsFromJson (JArr items) EmptyString showArraysOnly)) ->
  getNestedValue (JArr items) (fieldPath f) = inr (Data JUndefined).
Proof.
  intros Hin. destruct items as [|first more].
  - cbn in Hin. destruct (negb showArraysOnly); [|destruct Hin].
    destruct Hin as [<-|[]]. reflexivity.
  - rewrite extract_array_cons, offered_app in Hin. apply in_app_or in Hin as [Hin|Hin].
    + destruct (negb showArraysOnly); [|destruct Hin]. destruct Hin as [<-|[]]. reflexivity.
    + apply bracket_first_dangles.
      apply (startsWith_trans _ ("" +:+ "[0]")); [reflexivity|].
      destruct first; try destruct Hin;
        (eapply paths_prefixed; [|exact Hin]); rewrite TextFacts.append_nil_l; discriminate.
Qed.

Lemma array_payload_paths_dangle_witness :
  In (mkField "[0].c" "5" "number" None)
     (offered (extractFieldsFromJson (JArr [JObj [("c", JNum 5)]]) EmptyString false))
  /\ getNestedValue (JArr [JObj [("c", JNum 5)]]) "[0].c" = inr (Data JUndefined).
Proof.
  assert (Hin : In (mkField "[0].c" "5" "number" None)
                   (offered (extractFieldsFromJson (JArr [JObj [("c", JNum 5)]])
                               EmptyString false)))
    by (cbn; right; left; reflexivity).
  split; [exact Hin|].
  exact (array_payload_paths_dangle [JObj [("c", JNum 5)]] false _ Hin).
Defined.

(** The two settings of [showArraysOnly] agree on every value that is not
    an array and holds no array that starts with an array. *)
Lemma showArraysOnly_idle_all : forall v,
  let Q := fun x =>
    isArray x = false -> flatArrays x = true ->
    forall prefix, extractFieldsFromJson x prefix true = extractFieldsFromJson x prefix false in
  Q v /\ (forall first more, v = JArr (first :: more) -> Q first).
Proof.
  induction v as [| | b0 | n | s | items IH | fields IH] using JSValue_nested_ind;
    cbn zeta.
  1-5: split; [reflexivity | intros first more [=]].
  - split; [discriminate|]. intros first more [= ->].
    inversion IH as [|? ? [Hfirst _] _]. exact Hfirst.
  - split; [|intros first more [=]]. intros _ Hflat prefix.
    pose proof (flatArrays_object _ Hflat) as Hflats.
    rewrite List.Forall_forall in IH. cbn zeta in IH.
    enough (Hpart : forall part,
               (forall kv, In kv part -> In kv fields) ->
               extractFieldsFromJson (JObj part) prefix true
               = extractFieldsFromJson (JObj part) prefix false)
      by (apply (Hpart fields); auto).
    induction part as [|[k x] rest IHs]; intros Hsub; [reflexivity|].
    rewrite !extract_object_cons, IHs by (intros kv Hkv; apply Hsub; now right).
    assert (Hk : In (k, x) fields) by (apply Hsub; now left).
    do 2 f_equal. pose proof (IH (k, x) Hk) as [Hx Hfirst]. cbn [snd] in Hx, Hfirst.
    pose proof (Hflats k x Hk) as Hflatx.
    destruct x as [| |b0|n|s|items|fields0]; cbn [childFields]; try reflexivity.
    + destruct items as [|first more]; [reflexivity|].
      destruct (flatArrays_first _ _ Hflatx) as [Hnotarr Hflat1].
      destruct (typeofObject first); [|reflexivity].
      now rewrite (Hfirst first more eq_refl Hnotarr Hflat1).
    + now rewrite (Hx eq_refl Hflatx).
Qed.

(** X20.  [showArraysOnly] has no effect on what is extracted from an object, as
    long as no array in it starts with an array: primitive fields are
    never filtered out. *)
Theorem showArraysOnly_idle (fields : list (string * JSValue)) (prefix : string) :
  flatArrays (JObj fields) = true ->
  extractFieldsFromJson (JObj fields) prefix true
  = extractFieldsFromJson (JObj fields) prefix false.
Proof.
  intros Hflat. now apply (proj1 (showArraysOnly_idle_all (JObj fields))).
Qed.

Lemma showArraysOnly_idle_witness :
  flatArrays Sample.nestedPayload = true
  /\ extractFieldsFromJson Sample.nestedPayload EmptyString true
     = extractFieldsFromJson Sample.nestedPayload EmptyString false.
Proof.
  split; [reflexivity|].
  exact (showArraysOnly_idle [("a", JObj [("b", JArr [JObj [("c", JNum 5)]])])]
           EmptyString eq_refl).
Defined.

End FieldFacts.

(** ** Currency codes and symbols *)

Module SymbolFacts.
Import JS Currency CurrencyFacts.
Local Open Scope list_scope.

Lemma symbol_table s c :
  tableLookup s SYMBOL_TO_CURRENCY_CODE = Some c ->
  isCode c = true /\ getCurrencySymbol c = s /\ truthyStr c = true.
Proof.
  unfold SYMBOL_TO_CURRENCY_CODE. cbn [tableLookup].
  repeat match goal with
         | |- context [String.eqb s ?k] =>
             destruct (String.eqb_spec s k) as [->|_];
             [intros [= <-]; repeat split; reflexivity|]
         end.
  discriminate.
Qed.

Lemma code_table k s :
  tableLookup k CURRENCY_CODE_TO_SYMBOL = Some s -> s <> EmptyString.
Proof.
  unfold CURRENCY_CODE_TO_SYMBOL. cbn [tableLookup].
  repeat match goal with
         | |- context [String.eqb k ?c] =>
             destruct (String.eqb k c); [intros [= <-]; discriminate|]
         end.
  discriminate.
Qed.

Lemma upper_fixed a : isUpper a = true -> upperChar a = a.
Proof.
  unfold upperChar, isUpper, isLower. intros [H1 H2]%andb_true_iff.
  apply Nat.leb_le in H1, H2.
  destruct (Nat.leb_spec 97 (nat_of_ascii a)); [lia | reflexivity].
Qed.

Lemma code_upper c : isCode c = true -> toUpperCase c = c.
Proof.
  destruct c as [|x [|y [|z [|]]]]; try discriminate. cbn [isCode].
  intros [[Hx Hy]%andb_true_iff Hz]%andb_true_iff.
  unfold toUpperCase. cbn [mapString]. now rewrite !upper_fixed.
Qed.

Lemma upperChar_idempotent c : upperChar (upperChar c) = upperChar c.
Proof. destruct c as [[|] [|] [|] [|] [|] [|] [|] [|]]; reflexivity. Qed.

Lemma toUpperCase_idempotent s : toUpperCase (toUpperCase s) = toUpperCase s.
Proof.
  unfold toUpperCase. induction s as [|c s IH]; [reflexivity|].
  cbn [mapString]. now rewrite upperChar_idempotent, IH.
Qed.

(** A name in upper case is none of those an object inherits: the reads
    of [getCurrencySymbol] and [matchField] stay inside the tables. *)
Lemma upper_not_inherited s : inherited (toUpperCase s) ObjectPrototype = None.
Proof.
  pose proof (toUpperCase_idempotent s) as Hidem.
  unfold inherited, prototypeMember, among, objectPrototypeMethods. cbn [existsb].
  repeat match goal with
         | |- context [String.eqb (toUpperCase s) ?n] =>
             destruct (String.eqb_spec (toUpperCase s) n) as [Heq|_];
             [rewrite Heq in Hidem; discriminate Hidem|]
         end.
  reflexivity.
Qed.

(** X21.  The two tables agree in the direction from symbols to codes:
    when [getCurrencyCode] gives a string for a symbol, that string is a
    code of three upper-case letters and [getCurrencySymbol] leads from
    it back to the symbol.  It does not always give a string or [null]:
    for a name that every object inherits it gives the inherited member. *)
Theorem symbol_code_round_trip (s : string) :
  (forall c, getCurrencyCode s = Data (JStr c) ->
             getCurrencySymbol c = s /\ isCode c = true)
  /\ (getCurrencyCode s = Data JNull <->
      tableLookup s SYMBOL_TO_CURRENCY_CODE = None
      /\ s <> "__proto__" /\ among s objectPrototypeMethods = false)
  /\ (among s objectPrototypeMethods = true ->
      getCurrencyCode s = Method ObjectPrototype s).
Proof.
  unfold getCurrencyCode.
  destruct (tableLookup s SYMBOL_TO_CURRENCY_CODE) as [c0|] eqn:Hlook.
  - destruct (symbol_table s c0 Hlook) as (Hcode & Hsymbol & Htruthy). rewrite Htruthy.
    split; [intros c [= <-]; auto|]. split; [split; [discriminate | intros [[=] _]]|].
    intros Hamong. exfalso. revert Hlook Hamong.
    unfold SYMBOL_TO_CURRENCY_CODE, among, objectPrototypeMethods. cbn [tableLookup existsb].
    repeat match goal with
           | |- context [String.eqb s ?k] =>
               destruct (String.eqb_spec s k) as [->|_]; [discriminate|]
           end.
    discriminate.
  - unfold inherited. cbn [prototypeMember].
    destruct (String.eqb_spec s "__proto__") as [->|Hne].
    + split; [discriminate|]. split; [split; [discriminate | intros (_ & Hn & _); now destruct Hn]|].
      discriminate.
    + destruct (among s objectPrototypeMethods); cbn [default from_option id].
      * split; [discriminate|]. split; [split; [discriminate | intros (_ & _ & [=])]|].
        reflexivity.
      * split; [discriminate|]. split; [split; auto|]. discriminate.
Qed.

Lemma symbol_code_round_trip_witness :
  getCurrencyCode "€" = Data (JStr "EUR") /\ getCurrencySymbol "EUR" = "€".
Proof.
  split; [reflexivity|].
  exact (proj1 (proj1 (symbol_code_round_trip "€") "EUR" eq_refl)).
Defined.

(** What one key can yield. *)
Lemma matchField_shape location k v info :
  matchField location k v = Some info ->
  isCode (code info) = true
  /\ symbol info = getCurrencySymbol (code info)
  /\ path info = childPath location k
  /\ isCurrencyField k = true
  /\ exists s, v = JStr s /\ trim s <> EmptyString
               /\ (toUpperCase (trim s) = code info \/ toUpperCase (trim s) = symbol info).
Proof.
  unfold matchField. destruct (isCurrencyField k); [|discriminate].
  destruct v as [| |b|n|s|items|fields]; try discriminate.
  destruct (truthyStr (trim s)) eqn:Htrim; [|discriminate].
  apply FetchFacts.truthyStr_true in Htrim.
  remember (toUpperCase (trim s)) as cv eqn:Hcv.
  destruct (isCode cv) eqn:Hcode.
  - assert (Hsym : default cv (tableLookup cv CURRENCY_CODE_TO_SYMBOL)
                   = getCurrencySymbol cv).
    { unfold getCurrencySymbol. rewrite (code_upper _ Hcode).
      destruct (tableLookup cv CURRENCY_CODE_TO_SYMBOL) as [sym|] eqn:Hlook; [|reflexivity].
      cbn [default from_option id]. unfold strOr.
      now rewrite (proj2 (FetchFacts.truthyStr_true sym) (code_table _ _ Hlook)). }
    rewrite Hsym. intros [= <-]. cbn [code symbol path]. split; [exact Hcode|].
    split; [reflexivity|]. split; [reflexivity|]. split; [reflexivity|]. exists s. auto.
  - destruct (tableLookup cv SYMBOL_TO_CURRENCY_CODE) as [c|] eqn:Hlook; [|discriminate].
    intros [= <-]. cbn [code symbol path].
    destruct (symbol_table cv c Hlook) as (Hc & Hsym & _).
    split; [exact Hc|]. split; [now rewrite Hsym|].
    split; [reflexivity|]. split; [reflexivity|]. exists s. auto.
Qed.

Lemma firstMatch_some l info :
  firstMatch l = Some info ->
  exists x, In x l /\ matchField (location x) (key x) (value x) = Some info.
Proof.
  induction l as [|x l IH]; [discriminate|]. cbn [firstMatch].
  destruct (matchField (location x) (key x) (value x)) as [found|] eqn:Hm.
  - intros [= <-]. exists x. split; [now left | exact Hm].
  - intros Hrest. destruct (IH Hrest) as (y & Hin & Hy). exists y. split; [now right | exact Hy].
Qed.

Lemma find_shape obj location maxDepth d info :
  findCurrencyInObject obj location maxDepth d = Some info ->
  exists x, In x (visits obj location maxDepth d)
            /\ matchField (Currency.location x) (key x) (value x) = Some info.
Proof. rewrite find_is_first_visit. apply firstMatch_some. Qed.

(** Whatever the scan inspects is a key of the data with its value. *)
Lemma visits_entries : forall obj location maxDepth d x,
  In x (visits obj location maxDepth d) -> In (key x, value x) (entries obj).
Proof.
  induction obj as [| | b0 | n | s | items IH | fields IH] using JSValue_nested_ind;
    intros location maxDepth d x; cbn [visits];
    destruct (d >? maxDepth)%Z; try (intros []).
  - destruct IH as [|first more Hfirst _]; [intros []|].
    intros Hin. cbn [entries]. apply in_or_app. left. exact (Hfirst _ _ _ _ Hin).
  - rewrite List.Forall_forall in IH. cbn [entries].
    enough (Hpart : forall part,
               (forall kv, In kv part -> In kv fields) ->
               In x ((fix each (fs : list (string * JSValue)) : list Visit :=
                        match fs with
                        | [] => []
                        | (k, v) :: rest =>
                            mkVisit d location k v
                            :: match v with
                               | JObj _ => visits v (childPath location k) maxDepth (d + 1)
                               | _ => []
                               end
                            ++ each rest
                        end) part) ->
               In (key x, value x)
                  ((fix each (fs : list (string * JSValue)) : list (string * JSValue) :=
                      match fs with
                      | [] => []
                      | (k, v) :: rest => (k, v) :: entries v ++ each rest
                      end) part))
      by (apply (Hpart fields); auto).
    induction part as [|[k v] rest IHs]; intros Hsub; [intros []|].
    intros [<-|Hin]; [now left|]. right. apply in_or_app.
    apply in_app_or in Hin as [Hin|Hin].
    + left. assert (Hk : In (k, v) fields) by (apply Hsub; now left).
      pose proof (IH (k, v) Hk) as Hv. cbn [snd] in Hv.
      destruct v; try destruct Hin. exact (Hv _ _ _ _ Hin).
    + right. apply IHs; [intros kv Hkv; apply Hsub; now right | exact Hin].
Qed.

Lemma entries_member k v fields :
  In (k, v) fields -> forall e, In e (entries v) -> In e (entries (JObj fields)).
Proof.
  cbn [entries]. induction fields as [|[k0 v0] rest IH]; [intros []|].
  intros [[= -> ->]|Hin] e He; right; apply in_or_app; [now left|].
  right. now apply IH.
Qed.

Lemma assoc_In k (fields : list (string * JSValue)) v : assoc k fields = Some v -> In (k, v) fields.
Proof.
  induction fields as [|[k0 v0] rest IH]; [discriminate|]. cbn [assoc].
  destruct (String.eqb_spec k k0) as [->|_]; [intros [= ->]; now left|].
  intros H. right. now apply IH.
Qed.

(** X22.  Whatever [detectCurrency] reports is well formed and comes from the
    data: the code is three upper-case letters, the symbol is the one
    [getCurrencySymbol] gives for the code, and somewhere in the payload
    there is a key, whose name contains one of the currency field names
    and in which the reported path ends, with a non-blank string for its
    value that reads, trimmed and in upper case, as the code or as the
    symbol. *)
Theorem detected_currency_shape (payload : JSValue) (info : CurrencyInfo) :
  detectCurrency payload = Some info ->
  isCode (code info) = true
  /\ symbol info = getCurrencySymbol (code info)
  /\ exists location k s,
       In (k, JStr s) (entries payload)
       /\ path info = childPath location k
       /\ isCurrencyField k = true
       /\ trim s <> EmptyString
       /\ (toUpperCase (trim s) = code info \/ toUpperCase (trim s) = symbol info).
Proof.
  intros Hdetect.
  assert (Hfound : exists obj location d,
             findCurrencyInObject obj location 5 d = Some info
             /\ forall e, In e (entries obj) -> In e (entries payload)).
  { unfold detectCurrency in Hdetect.
    destruct (negb (truthy payload) || negb (typeofObject payload)); [discriminate|].
    destruct (findCurrencyInObject payload "" 5 0) as [r|] eqn:Hroot.
    { injection Hdetect as <-. eauto. }
    assert (Hfirst : forall first more, payload = JArr (first :: more) ->
                     forall e, In e (entries first) -> In e (entries payload)).
    { intros first more -> e He. cbn [entries]. apply in_or_app. now left. }
    destruct (truthy (getProp "data" payload) && typeofObject (getProp "data" payload)).
    - destruct (findCurrencyInObject (getProp "data" payload) "data" 5 0) as [r|] eqn:Hdata.
      { injection Hdetect as <-. exists (getProp "data" payload), "data", 0.
        split; [exact Hdata|]. intros e He. unfold getProp in He.
        destruct (ownProperty "data" payload) as [v|] eqn:Hown; [|destruct He].
        destruct payload as [| |b|n|s|items|fields]; try discriminate.
        cbn [ownProperty] in Hown. cbn [default from_option id] in He.
        exact (entries_member "data" v fields (assoc_In _ _ _ Hown) e He). }
      destruct payload as [| |b|n|s|[|first more]|fields]; try discriminate.
      exists first, "[0]", 0. split; [exact Hdetect | exact (Hfirst _ _ eq_refl)].
    - destruct payload as [| |b|n|s|[|first more]|fields]; try discriminate.
      exists first, "[0]", 0. split; [exact Hdetect | exact (Hfirst _ _ eq_refl)]. }
  destruct Hfound as (obj & location & d & Hfind & Hsub).
  destruct (find_shape _ _ _ _ _ Hfind) as (x & Hin & Hmatch).
  destruct (matchField_shape _ _ _ _ Hmatch)
    as (Hcode & Hsym & Hpath & Hfield & s & Hvalue & Hs).
  split; [exact Hcode|]. split; [exact Hsym|].
  exists (Currency.location x), (key x), s.
  split; [|tauto]. apply Hsub. rewrite <- Hvalue. now apply (visits_entries _ _ _ _ _ Hin).
Qed.

Lemma detected_currency_shape_witness :
  detectCurrency Sample.quotePayload
  = Some {| code := "USD"; symbol := "$"; path := "quote.currency" |}
  /\ "$" = getCurrencySymbol "USD"
  /\ In ("currency", JStr "USD") (entries Sample.quotePayload).
Proof.
  split; [reflexivity|].
  split; [|cbn; right; left; reflexivity].
  exact (proj1 (proj2 (detected_currency_shape Sample.quotePayload
                         {| code := "USD"; symbol := "$"; path := "quote.currency" |}
                         eq_refl))).
Defined.

End SymbolFacts.

(** ** Time intervals in urls *)

Module BuilderFacts.
Import JS Web Builder.
Local Open Scope list_scope.

Lemma get_remove_other name other params :
  name <> other -> get name (remove other params) = get name params.
Proof.
  intros Hne. unfold remove. induction params as [|[k v] rest IH]; [reflexivity|].
  cbn [List.filter fst get].
  destruct (String.eqb_spec k other) as [->|Hk]; cbn [negb].
  - destruct (String.eqb_spec other name); [congruence | exact IH].
  - cbn [get]. now rewrite IH.
Qed.

Lemma get_set_same name value params : get name (set name value params) = Some value.
Proof.
  induction params as [|[k v] rest IH]; cbn [set get].
  - now rewrite String.eqb_refl.
  - destruct (String.eqb_spec k name) as [->|Hk]; cbn [get].
    + now rewrite String.eqb_refl.
    + destruct (String.eqb_spec k name); [contradiction | exact IH].
Qed.

Lemma get_set_other name other value params :
  name <> other -> get name (set other value params) = get name params.
Proof.
  intros Hne. induction params as [|[k v] rest IH]; cbn [set get].
  - destruct (String.eqb_spec other name); [congruence | reflexivity].
  - destruct (String.eqb_spec k other) as [->|Hk]; cbn [get].
    + destruct (String.eqb_spec other name); [congruence|].
      now apply get_remove_other.
    + now rewrite IH.
Qed.

Lemma intervalParameter_inv name :
  intervalParameter name = false ->
  name <> "resolution" /\ name <> "from" /\ name <> "to"
  /\ name <> "interval" /\ name <> "period".
Proof.
  unfold intervalParameter. intros H.
  repeat (apply orb_false_iff in H as [H ?]).
  repeat split; intros ->; discriminate.
Qed.

(** X23.  [addTimeIntervalToUrl] leaves alone what it does not own: a search
    parameter other than [resolution], [from], [to], [interval] and
    [period] reads after it as before.  A [custom] interval, an empty url
    and a url that does not parse are returned as they are. *)
Theorem interval_frame (parseURL : string -> option URL) (hostname : string -> string)
    (href : string -> list (string * string) -> string) (now : Z) :
  (forall host t params name,
      intervalParameter name = false ->
      get name (intervalParams now host t params) = get name params)
  /\ (forall url, addTimeIntervalToUrl parseURL hostname href now url Custom = url)
  /\ (forall t, addTimeIntervalToUrl parseURL hostname href now EmptyString t = EmptyString)
  /\ (forall url t, parseURL url = None ->
                    addTimeIntervalToUrl parseURL hostname href now url t = url).
Proof.
  split; [|split; [|split]].
  - intros host t params name (Hres & Hfrom & Hto & Hint & Hper)%intervalParameter_inv.
    unfold intervalParams.
    repeat match goal with
           | |- context [if ?c then _ else _] => destruct c
           end;
      rewrite ?get_set_other by assumption; reflexivity.
  - intros url. unfold addTimeIntervalToUrl. now rewrite orb_true_r.
  - intros t. reflexivity.
  - intros url t Hu. unfold addTimeIntervalToUrl. rewrite Hu.
    now destruct (negb (truthyStr url) || _).
Qed.

Section Platform.

Variable parseURL : string -> option URL.
Variable hostname : string -> string.
Variable href : string -> list (string * string) -> string.

(** X24.  What [addTimeIntervalToUrl] writes, [extractTimeIntervalFromUrl]
    reads back: for a Finnhub or Alpha Vantage host, and for any other
    host whose url has no [interval] parameter yet, the interval read
    from the new url is the one that was asked for.  An [interval]
    parameter that another host's url already has is left to speak. *)
Theorem interval_round_trip (now : Z) (url : string) (t : TimeInterval) (u : URL) :
  t <> Custom -> url <> EmptyString -> parseURL url = Some u ->
  let host := toLowerCase (hostname url) in
  let written := intervalParams now host t (searchParams u) in
  (exists u', parseURL (href url written) = Some u' /\ searchParams u' = written) ->
  hostname (href url written) = hostname url ->
  (includes "finnhub.io" host = true \/ includes "alphavantage.co" host = true
   \/ has "interval" (searchParams u) = false ->
   extractTimeIntervalFromUrl parseURL hostname
     (addTimeIntervalToUrl parseURL hostname href now url t) = Some t)
  /\ (includes "finnhub.io" host = false -> includes "alphavantage.co" host = false ->
      has "interval" (searchParams u) = true ->
      extractTimeIntervalFromUrl parseURL hostname
        (addTimeIntervalToUrl parseURL hostname href now url t)
      = extractTimeIntervalFromUrl parseURL hostname url).
Proof.
  intros Ht Hurl Hu host written (u' & Hu' & Hparams) Hhost.
  assert (Hadd : addTimeIntervalToUrl parseURL hostname href now url t = href url written).
  { unfold addTimeIntervalToUrl. rewrite Hu.
    rewrite (proj2 (FetchFacts.truthyStr_true url) Hurl). now destruct t. }
  rewrite Hadd. unfold extractTimeIntervalFromUrl. rewrite Hu', Hhost, Hparams, Hu.
  fold host. subst written. unfold intervalParams.
  destruct (includes "finnhub.io" host) eqn:Hfinn.
  - split; [intros _|discriminate].
    assert (Hres : forall ps, get "resolution" (set "resolution" (resolutionMap t) ps)
                              = Some (resolutionMap t)) by (intros; apply get_set_same).
    destruct t; try contradiction; cbn [resolutionMap truthyStr String.eqb negb];
      (destruct (negb (has "from" _) || negb (has "to" _));
       rewrite ?get_set_other by discriminate; rewrite get_set_same; reflexivity).
  - destruct (includes "alphavantage.co" host) eqn:Halpha.
    + split; [intros _|discriminate].
      destruct t; try contradiction; cbn [intervalMap truthyStr String.eqb negb];
        rewrite get_set_same; reflexivity.
    + split.
      * intros [[=]|[[=]|Hnone]]. rewrite Hnone. cbn [negb].
        destruct (negb (has "period" _));
          rewrite ?get_set_other by discriminate; rewrite get_set_same;
          destruct t; try contradiction; reflexivity.
      * intros _ _ Hsome. rewrite Hsome. cbn [negb].
        destruct (negb (has "period" _)); rewrite ?get_set_other by discriminate;
          reflexivity.
Qed.

End Platform.

Lemma interval_round_trip_witness :
  Sample.parseSimpleURL Sample.candleUrl
  = Some {| origin := "https://finnhub.io"; pathname := "/api/v1/stock/candle";
            searchParams := [("symbol", "AAPL")] |}
  /\ extractTimeIntervalFromUrl Sample.parseSimpleURL Sample.simpleHostname
       (addTimeIntervalToUrl Sample.parseSimpleURL Sample.simpleHostname Sample.simpleHref
          86400000 Sample.candleUrl Weekly)
     = Some Weekly.
Proof.
  split; [reflexivity|].
  refine (proj1 (interval_round_trip Sample.parseSimpleURL Sample.simpleHostname
                   Sample.simpleHref 86400000 Sample.candleUrl Weekly _ _ _ eq_refl _ _) _).
  - discriminate.
  - discriminate.
  - eexists. split; vm_compute; reflexivity.
  - vm_compute. reflexivity.
  - left. vm_compute. reflexivity.
Defined.

End BuilderFacts.

(** ** Numerals: what [String(n)] writes, the readers read back *)

Module DigitFacts.
Import JS Hook.
Local Open Scope Z_scope.

Lemma leading_step c a s k :
  isDigit c = true -> digitValue c = k ->
  leadingDigits a (String c s) = leadingDigits (Some (10 * default 0 a + k)) s.
Proof. intros Hc Hk. cbn [leadingDigits]. now rewrite Hc, Hk. Qed.

Lemma span_step c s :
  isDigit c = true ->
  spanDigits (String c s) = (String c (fst (spanDigits s)), snd (spanDigits s)).
Proof. intros Hc. cbn [spanDigits]. rewrite Hc. now destruct (spanDigits s). Qed.

Ltac digit_cases d :=
  destruct d as [|d|d|d|d|d|d|d|d|d|d].

Ltac read_digit :=
  match goal with
  | |- context [leadingDigits _ (String ?c _)] =>
      let k := eval vm_compute in (digitValue c) in
      rewrite (leading_step c _ _ k eq_refl eq_refl)
  end.

Lemma leading_acc d : forall acc rest,
  (forall a, leadingDigits a rest = a) ->
  leadingDigits (Some (Z.pos acc)) (NilEmpty.string_of_uint d +:+ rest)
  = Some (Z.pos (Pos.of_uint_acc d acc)).
Proof.
  induction d as [|d IH|d IH|d IH|d IH|d IH|d IH|d IH|d IH|d IH|d IH];
    intros acc rest Hrest; cbn [NilEmpty.string_of_uint Pos.of_uint_acc];
    rewrite ?TextFacts.append_nil_l, ?TextFacts.append_cons;
    [apply Hrest|..];
    read_digit; cbn [default from_option id];
    rewrite <- (IH _ rest Hrest); do 2 f_equal; lia.
Qed.

Lemma leading_zero d : forall rest,
  (forall a, leadingDigits a rest = a) ->
  leadingDigits (Some 0) (NilEmpty.string_of_uint d +:+ rest)
  = Some (Z.of_N (Pos.of_uint d)).
Proof.
  induction d as [|d IH|d IH|d IH|d IH|d IH|d IH|d IH|d IH|d IH|d IH];
    intros rest Hrest; cbn [NilEmpty.string_of_uint Pos.of_uint];
    rewrite ?TextFacts.append_nil_l, ?TextFacts.append_cons;
    [apply Hrest|..];
    read_digit; cbn [default from_option id];
    [now apply IH|..];
    cbn [Z.of_N]; rewrite <- (leading_acc d _ rest Hrest); reflexivity.
Qed.

Lemma leading_none d rest :
  d <> Decimal.Nil ->
  (forall a, leadingDigits a rest = a) ->
  leadingDigits None (NilEmpty.string_of_uint d +:+ rest)
  = Some (Z.of_N (Pos.of_uint d)).
Proof.
  intros Hd Hrest. digit_cases d; [contradiction|..];
    cbn [NilEmpty.string_of_uint Pos.of_uint]; rewrite TextFacts.append_cons;
    read_digit; cbn [default from_option id];
    [now apply leading_zero|..];
    cbn [Z.of_N]; rewrite <- (leading_acc d _ rest Hrest); reflexivity.
Qed.

Lemma span_numeral d rest :
  spanDigits rest = (EmptyString, rest) ->
  spanDigits (NilEmpty.string_of_uint d +:+ rest) = (NilEmpty.string_of_uint d, rest).
Proof.
  intros Hrest.
  induction d as [|d IH|d IH|d IH|d IH|d IH|d IH|d IH|d IH|d IH|d IH];
    cbn [NilEmpty.string_of_uint];
    rewrite ?TextFacts.append_nil_l, ?TextFacts.append_cons;
    [exact Hrest|..];
    rewrite span_step by reflexivity; now rewrite IH.
Qed.

Lemma splitSign_digit c s : isDigit c = true -> splitSign (String c s) = (false, String c s).
Proof.
  destruct c as [[|] [|] [|] [|] [|] [|] [|] [|]]; try discriminate; reflexivity.
Qed.

Lemma showZ_positive p : showZ (Z.pos p) = NilEmpty.string_of_uint (Pos.to_uint p).
Proof.
  unfold showZ. cbn [Z.to_int NilZero.string_of_int]. unfold NilZero.string_of_uint.
  pose proof (Unsigned.to_uint_nonnil p) as Hnil.
  destruct (Pos.to_uint p); [contradiction|..]; reflexivity.
Qed.

(** The numeral of a positive number starts with a digit, is read back by
    [parseInt], and is what [spanDigits] takes off a text that goes on
    with something else. *)
Lemma numeral_positive n :
  0 < n ->
  truthyStr (showZ n) = true
  /\ parseInt (showZ n) = Int n
  /\ forall rest, spanDigits rest = (EmptyString, rest) ->
                  spanDigits (showZ n +:+ rest) = (showZ n, rest).
Proof.
  intros Hn. destruct n as [|p|p]; try lia. rewrite showZ_positive.
  pose proof (Unsigned.to_uint_nonnil p) as Hnil.
  pose proof (DecimalPos.Unsigned.of_to p) as Hback.
  assert (Hread : leadingDigits None (NilEmpty.string_of_uint (Pos.to_uint p))
                  = Some (Z.pos p)).
  { rewrite <- (TextFacts.append_nil_r (NilEmpty.string_of_uint (Pos.to_uint p))).
    rewrite leading_none; [now rewrite Hback | exact Hnil | reflexivity]. }
  split; [|split].
  - destruct (Pos.to_uint p); [contradiction|..]; reflexivity.
  - unfold parseInt. revert Hread. generalize (Pos.to_uint p) Hnil. intros d Hd.
    digit_cases d; [contradiction|digit_cases d|..]; cbn [NilEmpty.string_of_uint];
      intros Hread; rewrite splitSign_digit by reflexivity; cbv beta iota;
      rewrite Hread; reflexivity.
  - intros rest Hrest. now apply span_numeral.
Qed.

End DigitFacts.

(** ** [useWidgetData.ts]: the pause of a rate-limited widget *)

Module HookFacts.
Import JS Web Api Currency Builder Hook.
Local Open Scope Z_scope.

Lemma startsWith_weaken p a b : startsWith p a = true -> startsWith p (a +:+ b) = true.
Proof.
  revert a. induction p as [|x p IH]; intros a; [now destruct a|].
  destruct a as [|y a]; cbn [startsWith]; [discriminate|].
  rewrite TextFacts.append_cons. cbn [startsWith].
  intros [-> Hp]%andb_true_iff. now rewrite (IH _ Hp).
Qed.

Lemma includes_app_l p a b : includes p a = true -> includes p (a +:+ b) = true.
Proof.
  induction a as [|x a IH].
  - destruct p; [intros _; apply TextFacts.includes_empty | discriminate].
  - rewrite TextFacts.append_cons. cbn [includes].
    intros [Hs|Hi]%orb_true_iff.
    + change (String x (a +:+ b)) with (String x a +:+ b).
      now rewrite (startsWith_weaken _ _ _ Hs).
    + rewrite (IH Hi). apply orb_true_r.
Qed.


Lemma matchSeconds_here s digits :
  matchSecondsHere s = Some digits -> matchSeconds s = Some digits.
Proof. intros H. destruct s; cbn [matchSeconds]; now rewrite H. Qed.

Lemma matchSeconds_skip c s : isDigit c = false -> matchSeconds (String c s) = matchSeconds s.
Proof.
  intros Hc. cbn [matchSeconds]. unfold matchSecondsHere at 1. cbn [spanDigits].
  now rewrite Hc.
Qed.

Lemma matchSeconds_numeral n rest :
  0 < n ->
  spanDigits rest = (EmptyString, rest) ->
  startsWith "seconds" (trimStart rest) = true ->
  matchSeconds (showZ n +:+ rest) = Some (showZ n).
Proof.
  intros Hn Hrest Hword. apply matchSeconds_here. unfold matchSecondsHere.
  destruct (DigitFacts.numeral_positive n Hn) as (Htruthy & _ & Hspan).
  now rewrite (Hspan rest Hrest), Htruthy, Hword.
Qed.

Ltac skip_words :=
  repeat (rewrite TextFacts.append_cons; rewrite matchSeconds_skip by reflexivity);
  rewrite TextFacts.append_nil_l.

(** The two wait notices of [fetchApiData], read by the hook's pattern. *)
Lemma matchSeconds_notice n :
  0 < n ->
  matchSeconds (rateLimitedMessage n) = Some (showZ n)
  /\ matchSeconds (rateLimitExhaustedMessage n) = Some (showZ n).
Proof.
  intros Hn. unfold rateLimitedMessage, rateLimitExhaustedMessage.
  split; skip_words; now apply matchSeconds_numeral.
Qed.

(** What the hook makes of a wait notice for [n] seconds. *)
Lemma settle_notice msg n t now st :
  0 < n ->
  msg = rateLimitedMessage n \/ msg = rateLimitExhaustedMessage n ->
  settle (failed msg t) now st
  = {| Hook.data := None; loading := false; Hook.error := Some msg;
       isRateLimited := true; rateLimitResetTime := Some (Int (now + n * 1000));
       Hook.fromCache := Hook.fromCache st; Hook.cacheAge := Hook.cacheAge st;
       detectedCurrency := detectedCurrency st |}.
Proof.
  intros Hn Hmsg. destruct (matchSeconds_notice n Hn) as [Hfirst Hsecond].
  destruct (DigitFacts.numeral_positive n Hn) as (_ & Hparse & _).
  unfold settle, failed. cbn [Api.error truthyOpt default from_option id].
  assert (Hmatch : matchSeconds msg = Some (showZ n)) by (destruct Hmsg; now subst).
  assert (Htruthy : truthyStr msg = true) by (destruct Hmsg; now subst).
  assert (Hlimited : includes "Rate limit" msg || includes "rate limit" msg = true).
  { destruct Hmsg; subst msg.
    - apply orb_true_iff. left. unfold rateLimitedMessage.
      apply includes_app_l. reflexivity.
    - apply orb_true_iff. right. unfold rateLimitExhaustedMessage.
      apply includes_app_l. reflexivity. }
  rewrite Htruthy, Hlimited, Hmatch, Hparse. reflexivity.
Qed.

Section Platform.

Variable parseURL : string -> option URL.
Variable localeCompare : string -> string -> Z.
Variable network : Z -> list Event -> Request -> NetResult.
Variable typeErrorMessage : Fault -> string.
Variable hostname : string -> string.
Variable href : string -> list (string * string) -> string.
Variable widget : WidgetConfig.

Local Abbreviation address := (requestUrl parseURL hostname href widget).
Local Abbreviation fetch_data :=
  (fetchData parseURL localeCompare network typeErrorMessage hostname href widget).
Local Abbreviation ttl := (Some (default 30 (cacheTTL widget))).
Local Abbreviation key_of url := (keyToUse widget url).
Local Abbreviation header_of url := (headerToUse widget url).

(** Nothing cached, or the cache bypassed: the lookup passes and leaves
    the world alone. *)
Lemma checkCache_absent url apiKey apiKeyHeader cacheTTL bypassCache w :
  bypassCache = true
  \/ responseCache w !! cacheKey parseURL localeCompare url apiKey apiKeyHeader = None ->
  checkCache parseURL localeCompare url apiKey apiKeyHeader cacheTTL bypassCache w
  = (inr None, w).
Proof.
  intros Hmiss. unfold checkCache.
  destruct (negb bypassCache && caching cacheTTL) eqn:Hon; [|reflexivity].
  apply andb_true_iff in Hon as [Hb%negb_true_iff _].
  destruct Hmiss as [->|Hnone]; [discriminate|].
  unfold bind, getCachedData, ret, Cache.getCachedData. rewrite Hnone. simpl.
  now destruct w.
Qed.

(** A call made while the hook's own pause lasts. *)
Lemma paused_call b st w reset :
  isRateLimited st = true ->
  rateLimitResetTime st = Some (Int reset) ->
  reset <> 0 ->
  clock w < reset ->
  fetch_data b st w
  = Some ({| Hook.data := Hook.data st; loading := loading st;
             Hook.error := Some (pausedMessage (ceilSeconds (reset - clock w)));
             isRateLimited := true; rateLimitResetTime := Some (Int reset);
             Hook.fromCache := Hook.fromCache st; Hook.cacheAge := Hook.cacheAge st;
             detectedCurrency := detectedCurrency st |}, w).
Proof.
  intros Hlim Hreset Hnonzero Hlt. unfold fetchData. rewrite Hlim, Hreset.
  cbn [truthyInstant andb]. destruct (Z.eqb_spec reset 0) as [|_]; [contradiction|].
  cbn [negb]. destruct (Z.ltb_spec (clock w) reset); [reflexivity | lia].
Qed.

(** X25.  A widget asks while the module has its origin on record as blocked
    (by this or by any other widget) and the cache has nothing to offer:
    nothing is sent, and the hook pauses itself up to an instant that is
    not before the end of the block and less than a second after it.
    Until then every further call, bypassing the cache or not, is
    answered by the hook alone. *)
Theorem block_pauses_widget (b : bool) (st : HookState) (w : World) (u : URL)
    (c until : Z) :
  isRateLimited st = false ->
  0 <= clock w < until ->
  parseURL (address (clock w)) = Some u ->
  rateLimitCache w !! origin u = Some (mkLimit c (Int until)) ->
  b = true
  \/ responseCache w
       !! cacheKey parseURL localeCompare (address (clock w))
            (key_of (address (clock w))) (header_of (address (clock w))) = None ->
  let reset := clock w + ceilSeconds (until - clock w) * 1000 in
  until <= reset < until + 1000
  /\ exists st',
       fetch_data b st w = Some (st', w)
       /\ Hook.data st' = None
       /\ Hook.error st' = Some (rateLimitedMessage (ceilSeconds (until - clock w)))
       /\ isRateLimited st' = true
       /\ rateLimitResetTime st' = Some (Int reset)
       /\ forall b' w', clock w' < reset ->
            exists st'',
              fetch_data b' st' w' = Some (st'', w')
              /\ Hook.error st'' = Some (pausedMessage (ceilSeconds (reset - clock w')))
              /\ isRateLimited st'' = true
              /\ rateLimitResetTime st'' = Some (Int reset).
Proof.
  intros Hfree Hclock Hu Hrec Hmiss reset.
  pose proof (FetchFacts.ceilSeconds_bounds (until - clock w)) as Hceil.
  assert (Hbounds : until <= reset < until + 1000) by (subst reset; lia).
  split; [exact Hbounds|].
  assert (Hwait : 0 < ceilSeconds (until - clock w)) by lia.
  pose proof (checkCache_absent (address (clock w)) (key_of (address (clock w)))
                (header_of (address (clock w))) ttl b w Hmiss) as Hcache.
  destruct (FetchFacts.blocked_run parseURL localeCompare network typeErrorMessage
              (address (clock w)) (key_of (address (clock w)))
              (header_of (address (clock w))) 3 false ttl b 0 w w u c until
              Hu Hcache Hrec ltac:(lia)) as [Hrun _].
  eexists. split.
  { unfold fetchData. rewrite Hfree. cbn [andb]. cbv zeta. rewrite Hrun.
    rewrite (settle_notice _ _ _ _ _ Hwait (or_introl eq_refl)). reflexivity. }
  cbn [Hook.data Hook.error isRateLimited rateLimitResetTime].
  do 4 (split; [reflexivity|]).
  intros b' w' Hlt. eexists. split.
  { apply paused_call; [reflexivity | reflexivity | lia | exact Hlt]. }
  cbn [Hook.error isRateLimited rateLimitResetTime]. repeat split.
Qed.


End Platform.

Import Sample.

Lemma block_pauses_widget_witness :
  (isRateLimited initialState = false
   /\ 0 <= clock (worldOf throttled) < 120020
   /\ rateLimitCache (worldOf throttled) !! "https://api.example.com"
      = Some (mkLimit 1 (Int 120020)))
  /\ exists st',
       fetchQuote (scripted outage) true initialState (worldOf throttled)
       = Some (st', worldOf throttled)
       /\ isRateLimited st' = true
       /\ rateLimitResetTime st' = Some (Int 120020)
       /\ forall b w', clock w' < 120020 ->
            exists st'', fetchQuote (scripted outage) b st' w' = Some (st'', w').
Proof.
  split; [split; [reflexivity | split; [vm_compute; split; [discriminate | reflexivity]
                                       | vm_compute; reflexivity]]|].
  destruct (block_pauses_widget parseSimpleURL compareCodeUnits (scripted outage) v8Message
              simpleHostname simpleHref quoteWidget true initialState (worldOf throttled)
              {| origin := "https://api.example.com"; pathname := "/quote";
                 searchParams := [("symbol", "AAPL")] |} 1 120020)
    as (_ & st' & Hrun & _ & _ & Hlim & Hreset & Hlater).
  - reflexivity.
  - vm_compute. split; [discriminate | reflexivity].
  - vm_compute. reflexivity.
  - vm_compute. reflexivity.
  - left. reflexivity.
  - exists st'. split; [exact Hrun|]. split; [exact Hlim|]. split; [exact Hreset|].
    intros b w' Hlt. destruct (Hlater b w' Hlt) as (st'' & Hagain & _).
    exists st''. exact Hagain.
Defined.


End HookFacts.
